(** * cleanlab.latent_estimation: confident joint estimation and calibration

    A shallow embedding of [src/cleanlab/latent_estimation.py].

    - NumPy integer arrays are lists of [Z]; a 2-D array is the list of its
      rows.  An array without rows does not record its number of columns, so
      the statements below are about data sets with at least one example.
    - NumPy floating-point arrays are lists over a number type [T] given by
      the class [Num].  Two instances are provided: exact rationals [Q]
      (the arithmetic the algorithm is designed for, used for the general
      theorems) and IEEE binary64 [float] (the arithmetic NumPy runs, used
      to evaluate the code on concrete inputs).
    - Python exceptions are the constructor [Raise] of [result].
    - A threshold array may hold NaN (NumPy's mean of an empty selection);
      a NaN entry is [None], a number [x] is [Some x].
    - The caller's ndarrays live in a [heap]; the one function that updates
      an array in place threads the heap. *)

From Stdlib Require Import List ZArith QArith Qround Bool Lia.
From Stdlib Require Import PrimFloat Uint63 FloatOps SpecFloat.
Import ListNotations.

Set Implicit Arguments.

(** ** Python exceptions *)

Inductive exn : Type :=
| ValueError          (* shapes that do not broadcast, argmax of an empty row *)
| IndexError          (* boolean mask or column index out of shape *)
| TypeError           (* float() of an array with more than one element *)
| AssertionError      (* a failed assert *)
| ZeroDivisionError   (* a division by zero: NumPy carries on with nan/inf and
                         the assert or int() that follows raises *)
| UnboundLocalError.  (* a local variable read before assignment *)

Inductive result (A : Type) : Type :=
| Ok (a : A)
| Raise (e : exn).

Arguments Ok {A} a.
Arguments Raise {A} e.

Definition bind {A B} (c : result A) (k : A -> result B) : result B :=
  match c with
  | Ok a => k a
  | Raise e => Raise e
  end.

Notation "x <- c ;; k" := (bind c (fun x => k))
  (at level 61, c at next level, right associativity).

Fixpoint mapM {A B} (f : A -> result B) (l : list A) : result (list B) :=
  match l with
  | [] => Ok []
  | x :: l' => y <- f x ;; ys <- mapM f l' ;; Ok (y :: ys)
  end.

(** ** The number type *)

Class Num (T : Type) : Type := {
  of_Z : Z -> T;            (* float(n) *)
  add : T -> T -> T;
  sub : T -> T -> T;
  mul : T -> T -> T;
  div : T -> T -> T;
  geb : T -> T -> bool;     (* x >= y *)
  gtb : T -> T -> bool;     (* x > y *)
  is_zero : T -> bool;      (* x == 0 *)
  to_int : T -> Z;          (* int(x): truncation toward zero *)
  rint : T -> Z             (* round(x): to nearest, ties to even *)
}.

(** Exact rationals. *)

Definition Qtrunc (q : Q) : Z :=
  if Qle_bool 0 q then Qfloor q else Qceiling q.

Definition Qrint (q : Q) : Z :=
  let f := Qfloor q in
  match Qcompare (q - inject_Z f) (1 # 2) with
  | Lt => f
  | Gt => (f + 1)%Z
  | Eq => if Z.even f then f else (f + 1)%Z
  end.

#[export] Instance Num_Q : Num Q := {
  of_Z := inject_Z;
  add := Qplus;
  sub := Qminus;
  mul := Qmult;
  div := Qdiv;
  geb := fun x y => Qle_bool y x;
  gtb := fun x y => negb (Qle_bool x y);
  is_zero := fun x => Qeq_bool x 0;
  to_int := Qtrunc;
  rint := Qrint
}.

(** IEEE binary64, NumPy's float64. *)

Definition float_of_Z (z : Z) : float :=
  if (z <? 0)%Z
  then PrimFloat.opp (PrimFloat.of_uint63 (Uint63.of_Z (- z)))
  else PrimFloat.of_uint63 (Uint63.of_Z z).

(** The value of a finite float.  nan and the infinities have no value and
    are sent to 0: Python's [int] raises on them and NumPy's [astype(int)]
    gives an unspecified integer, so the two conversions of the instance
    below are those of the source on finite values only, the only ones the
    statements evaluated in binary64 convert. *)
Definition Q_of_float (x : float) : Q :=
  match Prim2SF x with
  | S754_finite sg m e =>
      let v := if (0 <=? e)%Z
               then inject_Z (Z.pos m * 2 ^ e)
               else Z.pos m # Pos.pow 2 (Z.to_pos (- e)) in
      if sg then Qopp v else v
  | _ => 0
  end.

#[export] Instance Num_float : Num float := {
  of_Z := float_of_Z;
  add := PrimFloat.add;
  sub := PrimFloat.sub;
  mul := PrimFloat.mul;
  div := PrimFloat.div;
  geb := fun x y => PrimFloat.leb y x;
  gtb := fun x y => PrimFloat.ltb y x;
  is_zero := fun x => PrimFloat.eqb x PrimFloat.zero;
  to_int := fun x => Qtrunc (Q_of_float x);
  rint := fun x => Qrint (Q_of_float x)
}.

(** ** NumPy on integer arrays *)

Definition count_eq (k : Z) (s : list Z) : Z :=
  Z.of_nat (length (filter (Z.eqb k) s)).

Definition zrange (n : Z) : list Z := map Z.of_nat (seq 0 (Z.to_nat n)).

Definition zmax (s : list Z) : Z := fold_right Z.max 0%Z s.

(** [np.bincount(s)]: negative entries are refused; the result has
    [max(s) + 1] entries, none for an empty [s]. *)
Definition bincount (s : list Z) : result (list Z) :=
  if existsb (fun x => (x <? 0)%Z) s then Raise ValueError
  else match s with
       | [] => Ok []
       | _ => Ok (map (fun k => count_eq k s) (zrange (zmax s + 1)))
       end.

Fixpoint insert_uniq (x : Z) (l : list Z) : list Z :=
  match l with
  | [] => [x]
  | y :: l' =>
      if (x <? y)%Z then x :: l
      else if (x =? y)%Z then l
      else y :: insert_uniq x l'
  end.

(** [np.unique(s)]: the distinct values, ascending. *)
Definition unique (s : list Z) : list Z := fold_right insert_uniq [] s.

(** [a[mask]] for a boolean mask of the same length. *)
Fixpoint mask {A} (a : list A) (m : list bool) : result (list A) :=
  match a, m with
  | [], [] => Ok []
  | x :: a', b :: m' =>
      r <- mask a' m' ;; Ok (if b then x :: r else r)
  | _, _ => Raise IndexError
  end.

(** Broadcasting of two 1-D operands. *)
Definition bcast2 {A B C} (f : A -> B -> C) (xs : list A) (ys : list B)
  : result (list C) :=
  if (length xs =? length ys)%nat then Ok (map (fun p => f (fst p) (snd p)) (combine xs ys))
  else match xs, ys with
       | _, [y] => Ok (map (fun x => f x y) xs)
       | [x], _ => Ok (map (f x) ys)
       | _, _ => Raise ValueError
       end.

(** Broadcasting of a 2-D operand against a 1-D one, along the last axis. *)
Definition bcast_rows {A B C} (f : A -> B -> C) (M : list (list A)) (v : list B)
  : result (list (list C)) :=
  match M with
  | [] => if (length v <=? 1)%nat then Ok [] else Raise ValueError
  | _ => mapM (fun r => bcast2 f r v) M
  end.

Definition transpose {A} (d : A) (M : list (list A)) : list (list A) :=
  map (fun j => map (fun r => nth j r d) M) (seq 0 (length (hd [] M))).

(** [sklearn.metrics.confusion_matrix(y_true, y_pred)] without [labels]:
    the classes are the sorted distinct values met in either argument, and
    entry (i, j) counts the samples of true class number i predicted as
    class number j. *)
Definition confusion_matrix (y_true y_pred : list Z) : list (list Z) :=
  let labels := unique (y_true ++ y_pred) in
  let pairs := combine y_true y_pred in
  map (fun a =>
         map (fun b =>
                Z.of_nat (length (filter (fun p => (fst p =? a)%Z && (snd p =? b)%Z) pairs)))
             labels)
      labels.

(** ** The functions of [latent_estimation.py] *)

Section LatentEstimation.

Context {T : Type} `{Num T}.

Definition matrix : Type := list (list T).

(** The float literals of the source: [1e-6], the tolerance of the
    confident-bin test, and [0.5], the learning rate. *)
Definition tol : T := div (of_Z 1) (of_Z 1000000).
Definition eta : T := div (of_Z 1) (of_Z 2).

(** [np.sum] of a 1-D array and of a 2-D array (all entries). *)
Definition np_sum (l : list T) : T := fold_left add l (of_Z 0).
Definition np_sum2 (M : matrix) : T := np_sum (concat M).

(** [M.sum(axis=1)]. *)
Definition row_sums (M : matrix) : list T := map np_sum M.

Definition zsum (l : list Z) : Z := fold_left Z.add l 0%Z.

(** A division whose divisor is zero yields nan or inf in NumPy; every
    caller below then fails an assert or an [int()], so it raises here. *)
Definition div_guard (x d : T) : result T :=
  if is_zero d then Raise ZeroDivisionError else Ok (div x d).

(** [np.mean(a)]: NaN ([None]) for an empty selection. *)
Definition np_mean (a : list T) : option T :=
  match a with
  | [] => None
  | _ => Some (div (np_sum a) (of_Z (Z.of_nat (length a))))
  end.

(** [psx[:,k]]. *)
Definition column (psx : matrix) (k : nat) : result (list T) :=
  mapM (fun row => match nth_error row k with
                   | Some x => Ok x
                   | None => Raise IndexError
                   end) psx.

(** [np.mean(psx[:,k][s == k])], the self-confidence of class [k]. *)
Definition mean_where (s : list Z) (psx : matrix) (k : nat) : result (option T) :=
  col <- column psx k ;;
  sel <- mask col (map (fun l => (l =? Z.of_nat k)%Z) s) ;;
  Ok (np_mean sel).

(** [[np.mean(psx[:,k][s == k]) for k in range(K)]]. *)
Definition default_thresholds (s : list Z) (psx : matrix) (K : Z)
  : result (list (option T)) :=
  mapM (mean_where s psx) (seq 0 (Z.to_nat K)).

(** [row >= thresholds - 1e-6] on one entry; a comparison with NaN is False. *)
Definition confident_bin (p : T) (t : option T) : bool :=
  match t with
  | Some t => geb p (sub t tol)
  | None => false
  end.

(** [argmax] of a non-empty row: the first position of the maximum. *)
Fixpoint argmax_from (i best : nat) (bv : T) (l : list T) : nat :=
  match l with
  | [] => best
  | x :: l' => if gtb x bv then argmax_from (S i) i x l'
               else argmax_from (S i) best bv l'
  end.

Definition argmax (row : list T) : result nat :=
  match row with
  | [] => Raise ValueError
  | x :: l => Ok (argmax_from 1 0 x l)
  end.

(** [argmax] of a non-empty boolean row: the first True, 0 when all False. *)
Fixpoint first_true (i : nat) (l : list bool) : nat :=
  match l with
  | [] => 0
  | b :: l' => if b then i else first_true (S i) l'
  end.

Definition bool_argmax (row : list bool) : result nat :=
  match row with
  | [] => Raise ValueError
  | _ => Ok (first_true 0 row)
  end.

Definition num_true (row : list bool) : nat := length (filter (fun b => b) row).

(** One row of the vectorised computation: [(at_least_one_confident,
    true_label_guess)] of the example. *)
Definition classify (thresholds : list (option T)) (row : list T)
  : result (bool * Z) :=
  psx_bool <- bcast2 confident_bin row thresholds ;;
  let num_confident_bins := num_true psx_bool in
  let at_least_one_confident := (0 <? num_confident_bins)%nat in
  let more_than_one_confident := (1 <? num_confident_bins)%nat in
  psx_argmax <- argmax row ;;
  confident_argmax <- bool_argmax psx_bool ;;
  let true_label_guess :=
    if more_than_one_confident then psx_argmax else confident_argmax in
  Ok (at_least_one_confident, Z.of_nat true_label_guess).

(** [thresholds] is a 1-D array (shape (K,)); [K] is read only to build the
    default thresholds. *)
Definition compute_confident_joint (s : list Z) (psx : matrix)
  (K : option Z) (thresholds : option (list (option T)))
  : result (list (list Z)) :=
  let K := match K with
           | Some K => K
           | None => Z.of_nat (length (unique s))
           end in
  thresholds <- match thresholds with
                | Some t => Ok t
                | None => default_thresholds s psx K
                end ;;
  rows <- mapM (classify thresholds) psx ;;
  let at_least_one_confident := map fst rows in
  let true_label_guess := map snd rows in
  y_confident <- mask true_label_guess at_least_one_confident ;;
  s_confident <- mask s at_least_one_confident ;;
  Ok (transpose 0%Z (confusion_matrix y_confident s_confident)).

Definition calibrate_confident_joint (confident_joint : list (list Z))
  (s : list Z) (psx : matrix) : result matrix :=
  s_counts <- bincount s ;;
  confident_joint <- compute_confident_joint s psx None None ;;
  (* (confident_joint.T / confident_joint.sum(axis=1) * s_counts).T *)
  q <- bcast_rows (fun a d => (a, d)) (transpose 0%Z confident_joint)
                  (map zsum confident_joint) ;;
  q <- mapM (mapM (fun ad => div_guard (of_Z (fst ad)) (of_Z (snd ad)))) q ;;
  q <- bcast_rows (fun x c => mul x (of_Z c)) q s_counts ;;
  let calibrated_cj := transpose (of_Z 0) q in
  (* calibrated_cj / np.sum(calibrated_cj) * len(s) *)
  let total := np_sum2 calibrated_cj in
  calibrated_cj <- mapM (mapM (fun x => d <- div_guard x total ;;
                                        Ok (mul d (of_Z (Z.of_nat (length s))))))
                        calibrated_cj ;;
  (* Check calibration *)
  same <- bcast2 Z.eqb (map rint (row_sums calibrated_cj)) s_counts ;;
  if negb (forallb (fun b => b) same) then Raise AssertionError
  else if negb (Z.of_nat (length s) =? rint (np_sum2 calibrated_cj))%Z
  then Raise AssertionError
  else Ok calibrated_cj.

(** The value of Python's builtin [sum] on a 2-D array: [0 + row0 + row1 + ...],
    an integer for no rows and a 1-D array otherwise. *)
Inductive pyvalue : Type :=
| Scalar (x : T)
| Array1 (a : list T).

Definition py_add (acc : result pyvalue) (row : list T) : result pyvalue :=
  acc <- acc ;;
  match acc with
  | Scalar x => Ok (Array1 (map (add x) row))
  | Array1 a => r <- bcast2 add a row ;; Ok (Array1 r)
  end.

Definition builtin_sum (M : matrix) : result pyvalue :=
  fold_left py_add M (Ok (Scalar (of_Z 0))).

(** [float(v)]: only a scalar or an array of exactly one element converts. *)
Definition py_float (v : pyvalue) : result T :=
  match v with
  | Scalar x => Ok x
  | Array1 [x] => Ok x
  | Array1 _ => Raise TypeError
  end.

Definition estimate_joint (confident_joint : list (list Z))
  (s : list Z) (psx : matrix) : result matrix :=
  calibrated_cj <- calibrate_confident_joint confident_joint s psx ;;
  v <- builtin_sum calibrated_cj ;;
  total <- py_float v ;;
  mapM (mapM (fun x => div_guard x total)) calibrated_cj.

(** Modelled from the spec: [cleanlab.util.value_counts], a general array
    utility that is not part of this file; the number of occurrences of each
    distinct label, in ascending order of the labels. *)
Definition value_counts (s : list Z) : list Z :=
  map (fun k => count_eq k s) (unique s).

(** *** The adaptive-threshold loop *)

(** The caller's float ndarrays, by address.  An address outside the heap
    reads as an empty array; callers pass addresses of arrays they own. *)
Definition heap : Type := list (list (option T)).

Definition heap_get (h : heap) (r : nat) : list (option T) := nth r h [].

Fixpoint heap_set (h : heap) (r : nat) (a : list (option T)) : heap :=
  match h, r with
  | [], _ => []
  | _ :: h', O => a :: h'
  | x :: h', S r' => x :: heap_set h' r' a
  end.

(** The [thresholds] argument: [None], a Python list, or an ndarray. *)
Inductive thresholds_arg : Type :=
| NoThresholds
| ThresholdList (l : list (option T))
| ThresholdArray (r : nat).

(** The [force_ps] argument: a bool or an int. *)
Inductive force_ps_arg : Type :=
| ForceBool (b : bool)
| ForceInt (n : Z).

(** [if force_ps:] *)
Definition truthy (force_ps : force_ps_arg) : bool :=
  match force_ps with
  | ForceBool b => b
  | ForceInt n => negb (n =? 0)%Z
  end.

(** [5 if force_ps is True else 1], overridden when [type(force_ps) == int]. *)
Definition sgd_epochs (force_ps : force_ps_arg) : Z :=
  match force_ps with
  | ForceBool true => 5
  | ForceBool false => 1
  | ForceInt n => n
  end.

(** The function returns the list of the calibrated joints of all passes or
    the last one. *)
Inductive cj_output : Type :=
| JointList (cjs : list matrix)
| Joint (confident_joint : matrix).

(** [np.asarray(thresholds)]: a list is converted to a fresh array, an
    ndarray is returned as it is (no copy). *)
Definition asarray (h : heap) (a : list (option T) + nat) : heap * nat :=
  match a with
  | inl l => (h ++ [l], length h)
  | inr r => (h, r)
  end.

(** [thresholds += eta * (joint_ps - ps)], the new contents of the array:
    the right-hand side must broadcast to the shape of [thresholds]. *)
Definition updated_thresholds (thresholds : list (option T))
  (joint_ps ps : list T) : result (list (option T)) :=
  d <- bcast2 sub joint_ps ps ;;
  let step := map (mul eta) d in
  if (length step =? length thresholds)%nat || (length step =? 1)%nat
  then bcast2 (fun t x => option_map (fun t => add t x) t) thresholds step
  else Raise ValueError.

(** The body of [for sgd_iteration in range(sgd_epochs)], run [fuel] times
    unless it breaks or raises; [thresholds] is the address of the array. *)
Fixpoint sgd_loop (s : list Z) (psx : matrix) (K : Z) (ps : list T)
  (force_ps : force_ps_arg) (thresholds : nat) (fuel : nat)
  (h : heap) (cjs : list matrix) (last : option matrix)
  : heap * result (list matrix * option matrix) :=
  match fuel with
  | O => (h, Ok (cjs, last))
  | S fuel' =>
      match (confident_joint <-
               compute_confident_joint s psx (Some K) (Some (heap_get h thresholds)) ;;
             calibrate_confident_joint confident_joint s psx) with
      | Raise e => (h, Raise e)
      | Ok confident_joint =>
          let cjs := cjs ++ [confident_joint] in
          if truthy force_ps then
            match (joint_ps <- mapM (fun x => div_guard x (np_sum2 confident_joint))
                                    (row_sums confident_joint) ;;
                   updated_thresholds (heap_get h thresholds) joint_ps ps) with
            | Raise e => (h, Raise e)
            | Ok t => sgd_loop s psx K ps force_ps thresholds fuel'
                               (heap_set h thresholds t) cjs (Some confident_joint)
            end
          else (h, Ok (cjs, Some confident_joint))
      end
  end.

Definition estimate_confident_joint_from_probabilities (h : heap)
  (s : list Z) (psx : matrix) (thresholds : thresholds_arg)
  (force_ps : force_ps_arg) (return_list_of_converging_cj_matrices : bool)
  : heap * result cj_output :=
  let K := Z.of_nat (length (unique s)) in
  match (mapM (fun c => div_guard (of_Z c) (of_Z (Z.of_nat (length s))))
              (value_counts s)) with
  | Raise e => (h, Raise e)
  | Ok ps =>
      match (match thresholds with
             | NoThresholds => t <- default_thresholds s psx K ;; Ok (inl t)
             | ThresholdList l => Ok (inl l)
             | ThresholdArray r => Ok (inr r)
             end) with
      | Raise e => (h, Raise e)
      | Ok a =>
          let (h, thresholds) := asarray h a in
          let (h, r) := sgd_loop s psx K ps force_ps thresholds
                                 (Z.to_nat (sgd_epochs force_ps)) h [] None in
          (h,
           out <- r ;;
           if return_list_of_converging_cj_matrices then Ok (JointList (fst out))
           else match snd out with
                | Some confident_joint => Ok (Joint confident_joint)
                | None => Raise UnboundLocalError
                end)
      end
  end.

(** [M.trace()]. *)
Definition trace (M : matrix) : T :=
  np_sum (map (fun i => nth i (nth i M []) (of_Z 0))
              (seq 0 (Nat.min (length M) (length (hd [] M))))).

(** An integer [confident_joint] is passed as its conversion to float, which
    the division performs in the source. *)
Definition num_label_errors (labels : list Z) (psx : matrix)
  (confident_joint : option matrix) : result Z :=
  confident_joint <-
    match confident_joint with
    | Some cj => Ok cj
    | None =>
        out <- snd (estimate_confident_joint_from_probabilities
                      [] labels psx NoThresholds (ForceBool false) false) ;;
        match out with
        | Joint cj => Ok cj
        | JointList _ => Raise TypeError
        end
    end ;;
  let total := np_sum2 confident_joint in
  joint <- mapM (mapM (fun x => div_guard x total)) confident_joint ;;
  let frac_errors := sub (of_Z 1) (trace joint) in
  let num_errors := to_int (mul frac_errors (of_Z (Z.of_nat (length labels)))) in
  Ok num_errors.

End LatentEstimation.

Arguments matrix T : clear implicits.
Arguments heap T : clear implicits.
Arguments thresholds_arg T : clear implicits.
Arguments cj_output T : clear implicits.

(** *** The consistency iterator *)

Section ConvergeEstimates.

(** Vectors and matrices of [cleanlab.latent_algebra], whose three functions
    are imported by the source and are parameters here. *)
Variables V M : Type.
Variable compute_inv_noise_matrix : V -> M -> V -> M.           (* py, noise_matrix, ps *)
Variable compute_py : V -> M -> M -> V.                         (* ps, noise_matrix, inverse_noise_matrix *)
Variable compute_noise_matrix_from_inverse : V -> M -> V -> M.  (* ps, inverse_noise_matrix, py *)

(** Keyword arguments left out take their defaults, 5 and 3. *)
Definition converge_estimates (ps py : V) (noise_matrix inverse_noise_matrix : M)
  (inv_noise_matrix_iterations noise_matrix_iterations : option Z) : V * M * M :=
  let inv_noise_matrix_iterations :=
    match inv_noise_matrix_iterations with Some n => n | None => 5%Z end in
  let noise_matrix_iterations :=
    match noise_matrix_iterations with Some n => n | None => 3%Z end in
  fold_left
    (fun st (j : Z) =>
       let '(py, noise_matrix, inverse_noise_matrix) := st in
       let '(py, inverse_noise_matrix) :=
         fold_left
           (fun st (i : Z) =>
              let '(py, inverse_noise_matrix) := st in
              let inverse_noise_matrix := compute_inv_noise_matrix py noise_matrix ps in
              let py := compute_py ps noise_matrix inverse_noise_matrix in
              (py, inverse_noise_matrix))
           (zrange inv_noise_matrix_iterations)
           (py, inverse_noise_matrix) in
       let noise_matrix := compute_noise_matrix_from_inverse ps inverse_noise_matrix py in
       (py, noise_matrix, inverse_noise_matrix))
    (zrange noise_matrix_iterations)
    (py, noise_matrix, inverse_noise_matrix).

(** The iteration as the specification words it: one inner iteration
    recomputes the inverse noise matrix and then py; one outer iteration is
    the inner iterations followed by one update of the noise matrix. *)
Definition inner_iteration (ps : V) (st : V * M * M) : V * M * M :=
  let '(py, noise_matrix, _) := st in
  let inverse_noise_matrix := compute_inv_noise_matrix py noise_matrix ps in
  (compute_py ps noise_matrix inverse_noise_matrix, noise_matrix, inverse_noise_matrix).

Definition noise_matrix_update (ps : V) (st : V * M * M) : V * M * M :=
  let '(py, _, inverse_noise_matrix) := st in
  (py, compute_noise_matrix_from_inverse ps inverse_noise_matrix py, inverse_noise_matrix).

Definition outer_iteration (ps : V) (inner : nat) (st : V * M * M) : V * M * M :=
  noise_matrix_update ps (Nat.iter inner (inner_iteration ps) st).

End ConvergeEstimates.

(** *** The latent solver *)

Section EstimateLatent.

Context {T : Type} `{Num T}.

(** [compute_py] and the two functions of [converge_estimates] come from
    [cleanlab.latent_algebra], [clip_noise_rates] and [clip_values] from
    [cleanlab.util]; the source imports them and they are parameters here,
    as is the type of [py_method] with its default ['cnt']. *)
Variable Method : Type.
Variable cnt : Method.
Variable compute_py :
  list T -> matrix T -> matrix T -> Method -> option (list T) -> list T.
Variable compute_inv_noise_matrix : list T -> matrix T -> list T -> matrix T.
Variable compute_noise_matrix_from_inverse : list T -> matrix T -> list T -> matrix T.
Variable clip_noise_rates : matrix T -> matrix T.
Variable clip_values : list T -> T -> T -> T -> list T.   (* low, high, new_sum *)

(** [M.sum(axis=0)]. *)
Definition column_sums (M : matrix T) : list T := row_sums (transpose (of_Z 0) M).

(** The divisions of this function are NumPy's and never raise: a zero
    divisor gives what [div] gives (nan or inf in binary64).  Only shapes
    that do not broadcast raise. *)
Definition estimate_latent (confident_joint : matrix T) (s : list Z)
  (py_method : Method) (converge_latent_estimates : bool)
  : result (list T * matrix T * matrix T) :=
  let ps := map (fun c => div (of_Z c) (of_Z (Z.of_nat (length s)))) (value_counts s) in
  let s_count := row_sums confident_joint in
  let y_count := column_sums confident_joint in
  noise_matrix <- bcast_rows div confident_joint y_count ;;
  inv_noise_matrix <- bcast_rows div (transpose (of_Z 0) confident_joint) s_count ;;
  let py := compute_py ps noise_matrix inv_noise_matrix py_method (Some y_count) in
  let noise_matrix := clip_noise_rates noise_matrix in
  let inv_noise_matrix := clip_noise_rates inv_noise_matrix in
  if converge_latent_estimates then
    let '(py, noise_matrix, inv_noise_matrix) :=
      converge_estimates compute_inv_noise_matrix
        (fun ps noise_matrix inverse_noise_matrix =>
           compute_py ps noise_matrix inverse_noise_matrix cnt None)
        compute_noise_matrix_from_inverse
        ps py noise_matrix inv_noise_matrix None None in
    let py := clip_values py (div (of_Z 1) (of_Z 100000)) (of_Z 1) (of_Z 1) in
    let noise_matrix := clip_noise_rates noise_matrix in
    let inv_noise_matrix := clip_noise_rates inv_noise_matrix in
    Ok (py, noise_matrix, inv_noise_matrix)
  else Ok (py, noise_matrix, inv_noise_matrix).

(** The defaults of the keyword arguments ([thresholds = None],
    [converge_latent_estimates = True], [force_ps = False],
    [py_method = 'cnt']) are the caller's to pass. *)
Definition estimate_py_and_noise_matrices_from_probabilities (h : heap T)
  (s : list Z) (psx : matrix T) (thresholds : thresholds_arg T)
  (converge_latent_estimates : bool) (force_ps : force_ps_arg)
  (py_method : Method)
  : heap T * result (list T * matrix T * matrix T * matrix T) :=
  let (h, r) := estimate_confident_joint_from_probabilities
                  h s psx thresholds force_ps false in
  (h,
   out <- r ;;
   match out with
   | Joint confident_joint =>
       l <- estimate_latent confident_joint s py_method converge_latent_estimates ;;
       let '(py, noise_matrix, inv_noise_matrix) := l in
       Ok (py, noise_matrix, inv_noise_matrix, confident_joint)
   | JointList _ => Raise TypeError
   end).

End EstimateLatent.

(** ** Specification-side definitions and inputs *)

(** [(1 - trace(confident_joint / sum(confident_joint))) * N], converted to an
    integer by [conv]. *)
Definition error_count {T} `{Num T} (conv : T -> Z) (labels : list Z)
  (confident_joint : matrix T) : Z :=
  let total := np_sum2 confident_joint in
  let joint := map (map (fun x => div x total)) confident_joint in
  conv (mul (sub (of_Z 1) (trace joint)) (of_Z (Z.of_nat (length labels)))).

(** The K x K matrix of zeros. *)
Definition zeros (K : nat) : list (list Z) := repeat (repeat 0%Z K) K.

(** Labels in [0, K), every class met at least once. *)
Definition valid_labels (K : nat) (s : list Z) : Prop :=
  (0 < K)%nat /\
  Forall (fun l => (0 <= l < Z.of_nat K)%Z) s /\
  forall k, (0 <= k < Z.of_nat K)%Z -> In k s.

(** An N x K matrix for the N labels [s]. *)
Definition shape_ok {A} (K : nat) (s : list Z) (psx : list (list A)) : Prop :=
  length psx = length s /\ Forall (fun row => length row = K) psx.

(** The empirical per-class counts, [bincount(labels)] on valid labels. *)
Definition class_counts (K : nat) (s : list Z) : list Z :=
  map (fun k => count_eq k s) (zrange (Z.of_nat K)).

(** The noiseless, perfectly confident probability matrix of the labels. *)
Definition one_hot (K : nat) (l : Z) : list Q :=
  map (fun j => if (j =? l)%Z then 1%Q else 0%Q) (zrange (Z.of_nat K)).

Definition diagonal (K : nat) (s : list Z) : list (list Z) :=
  map (fun i => map (fun j => if (i =? j)%Z then count_eq i s else 0%Z)
                    (zrange (Z.of_nat K)))
      (zrange (Z.of_nat K)).

(** What [classify] computes on a row of the same length as the thresholds:
    the confident bins, and the pair (included, guess). *)
Definition bins_of {T} `{Num T} (thresholds : list (option T)) (row : list T)
  : list bool :=
  map (fun p => confident_bin (fst p) (snd p)) (combine row thresholds).

Definition guess_of {T} `{Num T} (thresholds : list (option T)) (row : list T)
  : bool * Z :=
  let bins := bins_of thresholds row in
  ((0 <? num_true bins)%nat,
   Z.of_nat (if (1 <? num_true bins)%nat
             then match row with [] => 0%nat | x :: l => argmax_from 1 0 x l end
             else first_true 0 bins)).

(** The examples of a data set, as (label, probability row) pairs, and the
    confident ones under given thresholds, as (label, guess) pairs. *)
Definition examples {T} (s : list Z) (psx : matrix T) : list (Z * list T) :=
  combine s psx.

Definition confident_pairs {T} `{Num T} (thresholds : list (option T))
  (s : list Z) (psx : matrix T) : list (Z * Z) :=
  map (fun e => (fst e, snd (guess_of thresholds (snd e))))
      (filter (fun e => fst (guess_of thresholds (snd e))) (examples s psx)).

(** The number of confident examples of observed label [i] and guess [j]. *)
Definition pair_count (pairs : list (Z * Z)) (i j : Z) : Z :=
  Z.of_nat (length (filter (fun p => (fst p =? i)%Z && (snd p =? j)%Z) pairs)).

(** A matrix given by its entries over index lists. *)
Definition tabulate {A B C} (f : A -> B -> C) (rows : list A) (cols : list B)
  : list (list C) :=
  map (fun a => map (f a) cols) rows.

(** [psx[:,k][s == k]] and the default thresholds, on data of the right shape. *)
Definition selection {T} `{Num T} (s : list Z) (psx : matrix T) (k : nat) : list T :=
  map (fun e => nth k (snd e) (of_Z 0))
      (filter (fun e => (fst e =? Z.of_nat k)%Z) (examples s psx)).

Definition mean_thresholds {T} `{Num T} (K : nat) (s : list Z) (psx : matrix T)
  : list (option T) :=
  map (fun k => np_mean (selection s psx k)) (seq 0 K).

(** The entries of the joint after the first rescaling: the share of the
    guess [j] among the confident examples of label [i], times the number of
    examples of label [i]. *)
Definition rescaled_entry (K : nat) (s : list Z) (P : list (Z * Z)) (i j : Z) : Q :=
  inject_Z (pair_count P i j)
  / inject_Z (zsum (map (pair_count P i) (zrange (Z.of_nat K))))
  * inject_Z (count_eq i s).

(** The calibrated joint of valid data: the rescaled entries, divided by
    their total and multiplied by the number of examples. *)
Definition calibrated_table (K : nat) (s : list Z) (psx : matrix Q) : matrix Q :=
  let L := zrange (Z.of_nat K) in
  let P := confident_pairs (mean_thresholds K s psx) s psx in
  let total := np_sum2 (tabulate (rescaled_entry K s P) L L) in
  tabulate (fun i j => rescaled_entry K s P i j / total
                       * inject_Z (Z.of_nat (length s))) L L.

(** *** The adaptive-threshold loop as the specification words it *)

Section AdaptiveLoopSpec.

Context {T : Type} `{Num T}.

(** The number of passes: 5 for [True], 1 for [False], [n] for an integer. *)
Definition passes (force_ps : force_ps_arg) : nat :=
  match force_ps with
  | ForceBool true => 5
  | ForceBool false => 1
  | ForceInt n => Z.to_nat n
  end.

(** The observed-label distribution of the data, [ps]. *)
Definition empirical_marginal (s : list Z) : result (list T) :=
  mapM (fun c => div_guard (of_Z c) (of_Z (Z.of_nat (length s)))) (value_counts s).

(** The observed-label marginal of a calibrated joint: its row sums,
    normalised by its total. *)
Definition joint_marginal (cj : matrix T) : result (list T) :=
  mapM (fun x => div_guard x (np_sum2 cj)) (row_sums cj).

(** A pass without adaptation: recompute the confident joint with the
    current thresholds and calibrate. *)
Definition plain_pass (s : list Z) (psx : matrix T) (K : Z)
  (thresholds : list (option T)) : result (matrix T) :=
  raw <- compute_confident_joint s psx (Some K) (Some thresholds) ;;
  calibrate_confident_joint raw s psx.

(** A pass with adaptation: the same, followed by
    [threshold += 0.5 * (joint_marginal - true_empirical_marginal)]. *)
Definition adaptive_pass (s : list Z) (psx : matrix T) (K : Z) (ps : list T)
  (thresholds : list (option T)) : result (matrix T * list (option T)) :=
  calibrated <- plain_pass s psx K thresholds ;;
  marginal <- joint_marginal calibrated ;;
  thresholds <- updated_thresholds thresholds marginal ps ;;
  Ok (calibrated, thresholds).

(** [n] passes with adaptation, one after the other, whatever the residual. *)
Fixpoint adaptive_passes (n : nat) (s : list Z) (psx : matrix T) (K : Z)
  (ps : list T) (thresholds : list (option T))
  : result (list (matrix T) * list (option T)) :=
  match n with
  | O => Ok ([], thresholds)
  | S n' =>
      r <- adaptive_pass s psx K ps thresholds ;;
      rest <- adaptive_passes n' s psx K ps (snd r) ;;
      Ok (fst r :: fst rest, snd rest)
  end.

(** All passes of a call: the calibrated joints in order, and the thresholds
    after the last pass. *)
Definition all_passes (force_ps : force_ps_arg) (s : list Z) (psx : matrix T)
  (K : Z) (ps : list T) (thresholds : list (option T))
  : result (list (matrix T) * list (option T)) :=
  match force_ps with
  | ForceBool false =>
      calibrated <- plain_pass s psx K thresholds ;; Ok ([calibrated], thresholds)
  | _ => adaptive_passes (passes force_ps) s psx K ps thresholds
  end.

(** The array the loop works on: a fresh one for no thresholds or a list,
    the caller's own for an ndarray. *)
Definition thresholds_array (h : heap T) (s : list Z) (psx : matrix T)
  (thresholds : thresholds_arg T) : result (heap T * nat) :=
  match thresholds with
  | NoThresholds =>
      t <- default_thresholds s psx (Z.of_nat (length (unique s))) ;;
      Ok (h ++ [t], length h)
  | ThresholdList l => Ok (h ++ [l], length h)
  | ThresholdArray r => Ok (h, r)
  end.

(** The caller passes the address of an array of the heap. *)
Definition owned (h : heap T) (thresholds : thresholds_arg T) : Prop :=
  match thresholds with
  | ThresholdArray r => (r < length h)%nat
  | _ => True
  end.

Definition last_joint (previous : option (matrix T)) (cjs : list (matrix T))
  : option (matrix T) :=
  match rev cjs with
  | [] => previous
  | m :: _ => Some m
  end.

End AdaptiveLoopSpec.

(** [row.argmax()] of a non-empty row, as a plain number. *)
Definition argmax_index {T} `{Num T} (row : list T) : nat :=
  match row with
  | [] => 0%nat
  | x :: l => argmax_from 1 0 x l
  end.

(** Thresholds of [K] entries, however they are passed. *)
Definition thresholds_shape {T} (K : nat) (h : heap T) (thresholds : thresholds_arg T)
  : Prop :=
  match thresholds with
  | NoThresholds => True
  | ThresholdList l => length l = K
  | ThresholdArray r => (r < length h)%nat /\ length (heap_get h r) = K
  end.

(** The calibration of a given raw joint, by the steps of the calibrator as
    its docstring and the specification give them: each row rescaled to add
    up to the count of its label, then the whole matrix rescaled to add up
    to the number of examples. *)
Definition calibration_of {T} `{Num T} (raw : list (list Z)) (s : list Z) : matrix T :=
  let s_counts := map (fun k => count_eq k s) (zrange (Z.of_nat (length raw))) in
  let rows :=
    map (fun rc =>
           map (fun x => mul (div (of_Z x) (of_Z (zsum (fst rc)))) (of_Z (snd rc)))
               (fst rc))
        (combine raw s_counts) in
  map (map (fun x => mul (div x (np_sum2 rows)) (of_Z (Z.of_nat (length s))))) rows.

(** * Theorems *)

(** ** Generic lemmas on the error monad and on loops *)

Lemma mapM_pure {A B} (f : A -> result B) (g : A -> B) (l : list A) :
  (forall x, In x l -> f x = Ok (g x)) -> mapM f l = Ok (map g l).
Proof.
  induction l as [|x l IH]; intros Hf; simpl.
  - reflexivity.
  - rewrite (Hf x (or_introl eq_refl)). simpl.
    rewrite IH by (intros y Hy; apply Hf; right; exact Hy).
    reflexivity.
Qed.

Lemma length_zrange (n : Z) : length (zrange n) = Z.to_nat n.
Proof. unfold zrange. now rewrite length_map, length_seq. Qed.

Lemma fold_left_const_iter {A B} (f : A -> A) (l : list B) (a : A) :
  fold_left (fun st _ => f st) l a = Nat.iter (length l) f a.
Proof.
  revert a. induction l as [|x l IH]; intros a; simpl.
  - reflexivity.
  - rewrite IH. apply Nat.iter_swap.
Qed.

Lemma fold_left_pointwise {A B} (f g : A -> B -> A) (l : list B) (a : A) :
  (forall st x, f st x = g st x) -> fold_left f l a = fold_left g l a.
Proof.
  intros Hfg. revert a. induction l as [|x l IH]; intros a; simpl.
  - reflexivity.
  - rewrite Hfg. apply IH.
Qed.

(** ** C4: the calibrator ignores the joint it is given *)

(** C4.  For fixed labels and probabilities, [calibrate_confident_joint]
    returns the same result whatever is passed as [confident_joint]: the
    parameter is overwritten by the raw joint recomputed from the labels and
    the probabilities with the default thresholds. *)
Theorem calibrate_confident_joint_ignores_joint :
  forall (T : Type) (N : Num T) (J1 J2 : list (list Z)) (s : list Z) (psx : matrix T),
    calibrate_confident_joint J1 s psx = calibrate_confident_joint J2 s psx.
Proof. intros. reflexivity. Qed.

(** ** C6: the loop structure of [converge_estimates] *)

Lemma inner_loop_iter {V M : Type} (inv_f : V -> M -> V -> M) (py_f : V -> M -> M -> V)
  (ps : V) (nm : M) (l : list Z) (py : V) (inv : M) :
  (let '(py', inv') :=
     fold_left (fun st (_ : Z) =>
                  let '(py, _) := st in
                  let inverse_noise_matrix := inv_f py nm ps in
                  (py_f ps nm inverse_noise_matrix, inverse_noise_matrix))
               l (py, inv) in
   (py', nm, inv'))
  = Nat.iter (length l) (inner_iteration inv_f py_f ps) (py, nm, inv).
Proof.
  revert py inv. induction l as [|x l IH]; intros py inv; simpl.
  - reflexivity.
  - rewrite IH. rewrite <- Nat.iter_swap. reflexivity.
Qed.

(** C6.  [converge_estimates] runs [noise_matrix_iterations] outer
    iterations (3 by default); each one runs [inv_noise_matrix_iterations]
    inner iterations (5 by default), every inner iteration recomputing the
    inverse noise matrix from (py, noise_matrix, ps) and then py from
    (ps, noise_matrix, inverse_noise_matrix), and only then recomputes the
    noise matrix from (ps, inverse_noise_matrix, py), once; the three
    quantities reached are returned. *)
Theorem converge_estimates_iterations :
  forall (V M : Type) (inv_f : V -> M -> V -> M) (py_f : V -> M -> M -> V)
         (nm_f : V -> M -> V -> M) (ps py : V) (nm inv : M)
         (inv_noise_matrix_iterations noise_matrix_iterations : option Z),
    converge_estimates inv_f py_f nm_f ps py nm inv
                       inv_noise_matrix_iterations noise_matrix_iterations
    = Nat.iter
        (Z.to_nat (match noise_matrix_iterations with Some n => n | None => 3%Z end))
        (outer_iteration inv_f py_f nm_f ps
           (Z.to_nat (match inv_noise_matrix_iterations with Some n => n | None => 5%Z end)))
        (py, nm, inv).
Proof.
  intros. unfold converge_estimates.
  rewrite <- (length_zrange (match noise_matrix_iterations with Some n => n | None => 3%Z end)).
  rewrite <- fold_left_const_iter.
  apply fold_left_pointwise. intros [[py' nm'] inv'] j.
  unfold outer_iteration.
  rewrite <- (length_zrange (match inv_noise_matrix_iterations with Some n => n | None => 5%Z end)).
  rewrite <- inner_loop_iter.
  destruct (fold_left _ _ (py', inv')) as [py2 inv2]. reflexivity.
Qed.

(** ** C2: [estimate_joint] *)

(** C2, the code at labels [0, 1] with the noiseless probabilities
    [[1, 0], [0, 1]]: the calibrated joint is [[1, 0], [0, 1]], Python's
    builtin [sum] adds its rows to the array [1, 1], and [float] of an array
    of two elements raises, in binary64 and in exact arithmetic alike. *)
Theorem estimate_joint_raises_TypeError :
  calibrate_confident_joint [] [0; 1]%Z [[1; 0]; [0; 1]]%float
    = Ok [[1; 0]; [0; 1]]%float /\
  builtin_sum [[1; 0]; [0; 1]]%float = Ok (Array1 [1; 1]%float) /\
  estimate_joint [] [0; 1]%Z [[1; 0]; [0; 1]]%float = Raise TypeError /\
  estimate_joint [] [0; 1]%Z [[1; 0]; [0; 1]]%Q = Raise TypeError.
Proof. repeat split; vm_compute; reflexivity. Qed.

(** ** C8: [num_label_errors] *)

(** C8 as stated fails: for labels [0, 1, 1] and the joint
    [[1, 1], [1, 1]] the fraction of errors is 1/2 and 1/2 * 3 = 1.5, which
    rounds to 2, while the function returns [int(1.5)] = 1. *)
Lemma num_label_errors_not_rounded :
  num_label_errors [0; 1; 1]%Z [[1; 0]; [0; 1]; [0; 1]]%Q (Some [[1; 1]; [1; 1]]%Q) = Ok 1%Z /\
  error_count rint [0; 1; 1]%Z [[1; 1]; [1; 1]]%Q = 2%Z /\
  num_label_errors [0; 1; 1]%Z [[1; 0]; [0; 1]; [0; 1]]%float (Some [[1; 1]; [1; 1]]%float) = Ok 1%Z /\
  error_count rint [0; 1; 1]%Z [[1; 1]; [1; 1]]%float = 2%Z.
Proof. repeat split; vm_compute; reflexivity. Qed.

(** C8, amended.  With a confident joint whose entries do not sum to zero,
    [num_label_errors] returns [(1 - trace(confident_joint /
    sum(confident_joint))) * N] truncated toward zero; without one it does
    the same on the joint that
    [estimate_confident_joint_from_probabilities] computes. *)
Theorem num_label_errors_truncates :
  forall (T : Type) (N : Num T) (labels : list Z) (psx cj : matrix T),
    is_zero (np_sum2 cj) = false ->
    num_label_errors labels psx (Some cj) = Ok (error_count to_int labels cj) /\
    (snd (estimate_confident_joint_from_probabilities
            [] labels psx NoThresholds (ForceBool false) false) = Ok (Joint cj) ->
     num_label_errors labels psx None = Ok (error_count to_int labels cj)).
Proof.
  intros T N labels psx cj Hz.
  assert (Hdiv : mapM (mapM (fun x => div_guard x (np_sum2 cj))) cj
                 = Ok (map (map (fun x => div x (np_sum2 cj))) cj)).
  { apply mapM_pure. intros row _. apply mapM_pure. intros x _.
    unfold div_guard. now rewrite Hz. }
  split.
  - unfold num_label_errors. simpl. rewrite Hdiv. reflexivity.
  - intros Hest. unfold num_label_errors. rewrite Hest. simpl.
    rewrite Hdiv. reflexivity.
Qed.

Lemma num_label_errors_truncates_witness :
  is_zero (np_sum2 [[1; 1]; [1; 1]]%Q) = false /\
  num_label_errors [0; 1; 1]%Z [[1; 0]; [0; 1]; [0; 1]]%Q (Some [[1; 1]; [1; 1]]%Q)
    = Ok (error_count to_int [0; 1; 1]%Z [[1; 1]; [1; 1]]%Q).
Proof.
  split.
  - reflexivity.
  - apply (num_label_errors_truncates Num_Q [0; 1; 1]%Z
             [[1; 0]; [0; 1]; [0; 1]]%Q [[1; 1]; [1; 1]]%Q).
    reflexivity.
Defined.

(** [int()] on exact rationals is truncation toward zero. *)
Lemma Qtrunc_toward_zero (q : Q) :
  (0 <= q -> inject_Z (Qtrunc q) <= q < inject_Z (Qtrunc q + 1)) /\
  (q < 0 -> inject_Z (Qtrunc q - 1) < q <= inject_Z (Qtrunc q)).
Proof.
  unfold Qtrunc. split; intros Hq.
  - apply Qle_bool_iff in Hq. rewrite Hq. split.
    + apply Qfloor_le.
    + apply Qlt_floor.
  - destruct (Qle_bool 0 q) eqn:E.
    + apply Qle_bool_iff in E. exfalso. apply (Qlt_irrefl q).
      eapply Qlt_le_trans; eauto.
    + split.
      * apply Qceiling_lt.
      * apply Qle_ceiling.
Qed.

(** ** C3 and C10: the confident-set selector *)

Lemma first_true_spec (l : list bool) (i : nat) :
  (0 < num_true l)%nat ->
  (i <= first_true i l)%nat /\ nth (first_true i l - i) l false = true.
Proof.
  revert i. induction l as [|b l IH]; intros i Hn.
  - inversion Hn.
  - simpl. destruct b.
    + rewrite Nat.sub_diag. split; [lia | reflexivity].
    + unfold num_true in Hn. simpl in Hn.
      destruct (IH (S i) Hn) as [Hle Hnth]. split; [lia|].
      replace (first_true (S i) l - i)%nat with (S (first_true (S i) l - S i)) by lia.
      exact Hnth.
Qed.

(** The decision rule on one example: it is excluded exactly when it has no
    confident bin; with one confident bin the guess is that bin; with more
    than one the guess is the argmax of the whole row. *)
Lemma classify_rule {T} `{Num T} (thresholds : list (option T)) (row : list T)
  (included : bool) (guess : Z) :
  classify thresholds row = Ok (included, guess) ->
  exists bins,
    bcast2 confident_bin row thresholds = Ok bins /\
    included = (0 <? num_true bins)%nat /\
    (num_true bins = 1%nat -> nth (Z.to_nat guess) bins false = true) /\
    (1 < num_true bins -> argmax row = Ok (Z.to_nat guess))%nat.
Proof.
  unfold classify. intros Hc.
  destruct (bcast2 confident_bin row thresholds) as [bins|e]; [|discriminate].
  simpl in Hc.
  destruct (argmax row) as [am|e]; [|discriminate]. simpl in Hc.
  destruct (bool_argmax bins) as [cm|e] eqn:Hcm; [|discriminate]. simpl in Hc.
  injection Hc as Hi Hg. exists bins. split; [reflexivity|].
  split; [now symmetry|]. split.
  - intros H1. rewrite H1 in Hg. simpl in Hg. subst guess.
    rewrite Nat2Z.id. unfold bool_argmax in Hcm.
    destruct bins as [|b bins]; [discriminate|]. injection Hcm as <-.
    assert (Hpos : (0 < num_true (b :: bins))%nat) by lia.
    destruct (first_true_spec (b :: bins) 0 Hpos) as [_ Hn].
    now rewrite Nat.sub_0_r in Hn.
  - intros H1. apply Nat.ltb_lt in H1. rewrite H1 in Hg. subst guess.
    now rewrite Nat2Z.id.
Qed.

Lemma mask_all_false {A} (a : list A) (m : list bool) :
  length a = length m -> Forall (fun b => b = false) m -> mask a m = Ok [].
Proof.
  revert m. induction a as [|x a IH]; intros [|b m] Hl Hm; simpl in *; try discriminate.
  - reflexivity.
  - inversion Hm; subst. rewrite IH; auto.
Qed.

Lemma mapM_length {A B} (f : A -> result B) (l : list A) (r : list B) :
  mapM f l = Ok r -> length r = length l.
Proof.
  revert r. induction l as [|x l IH]; intros r Hr; simpl in Hr.
  - injection Hr as <-. reflexivity.
  - destruct (f x); [|discriminate]. simpl in Hr.
    destruct (mapM f l) as [r'|e]; [|discriminate]. simpl in Hr.
    injection Hr as <-. simpl. now rewrite (IH r').
Qed.

(** When no example has a confident bin the result has no row at all. *)
Lemma compute_confident_joint_nothing_confident {T} `{Num T}
  (s : list Z) (psx : matrix T) (K : option Z) (thresholds : list (option T))
  (rows : list (bool * Z)) :
  length psx = length s ->
  mapM (classify thresholds) psx = Ok rows ->
  Forall (fun r => fst r = false) rows ->
  compute_confident_joint s psx K (Some thresholds) = Ok [].
Proof.
  intros Hl Hrows Hex. unfold compute_confident_joint. simpl.
  rewrite Hrows. simpl.
  pose proof (mapM_length _ _ Hrows) as Hlen.
  assert (Hf : Forall (fun b => b = false) (map fst rows)).
  { apply Forall_map. exact Hex. }
  rewrite (@mask_all_false _ (map snd rows) (map fst rows)); [|now rewrite !length_map|exact Hf].
  simpl.
  rewrite (@mask_all_false _ s (map fst rows)); [|rewrite length_map; congruence|exact Hf].
  reflexivity.
Qed.

(** C10, the code at labels [0, 1], probabilities [[0.25, 0.5], [0.5, 0.25]]
    and thresholds [0.75, 0.75]: no probability reaches a threshold, and the
    result is the matrix without rows, not the 2 x 2 matrix of zeros. *)
Theorem compute_confident_joint_no_confident_example :
  compute_confident_joint [0; 1]%Z [[0.25; 0.5]; [0.5; 0.25]]%float None
                          (Some [Some 0.75; Some 0.75]%float) = Ok [] /\
  compute_confident_joint [0; 1]%Z [[1 # 4; 1 # 2]; [1 # 2; 1 # 4]]%Q None
                          (Some [Some (3 # 4); Some (3 # 4)]%Q) = Ok [] /\
  zeros 2 = [[0; 0]; [0; 0]]%Z /\
  @nil (list Z) <> zeros 2.
Proof. repeat split; try (vm_compute; reflexivity). discriminate. Qed.

(** C3, the code at labels [0, 1], probabilities [[0.25, 0.25],
    [0.25, 0.75]] and thresholds [0.5, 0.5]: the first example is excluded,
    the second has the single confident bin 1, and the pair (observed 1,
    guessed 1) is counted in row 0, column 0 of a 1 x 1 matrix. *)
Theorem compute_confident_joint_rows_are_ranks :
  classify [Some 0.5; Some 0.5]%float [0.25; 0.25]%float = Ok (false, 0%Z) /\
  classify [Some 0.5; Some 0.5]%float [0.25; 0.75]%float = Ok (true, 1%Z) /\
  compute_confident_joint [0; 1]%Z [[0.25; 0.25]; [0.25; 0.75]]%float None
                          (Some [Some 0.5; Some 0.5]%float) = Ok [[1%Z]] /\
  compute_confident_joint [0; 1]%Z [[1 # 4; 1 # 4]; [1 # 4; 3 # 4]]%Q None
                          (Some [Some (1 # 2); Some (1 # 2)]%Q) = Ok [[1%Z]].
Proof. repeat split; vm_compute; reflexivity. Qed.

(** ** Labels: [np.unique] and [np.bincount] on valid labels *)

Lemma insert_uniq_In (x y : Z) (l : list Z) :
  In y (insert_uniq x l) <-> y = x \/ In y l.
Proof.
  induction l as [|z l IH]; simpl.
  - intuition.
  - destruct (x <? z)%Z eqn:E1; [simpl; intuition|].
    destruct (x =? z)%Z eqn:E2.
    + apply Z.eqb_eq in E2. subst. simpl. intuition.
    + simpl. rewrite IH. intuition.
Qed.

Lemma unique_In (y : Z) (s : list Z) : In y (unique s) <-> In y s.
Proof.
  induction s as [|x s IH]; simpl.
  - reflexivity.
  - rewrite insert_uniq_In, IH. intuition.
Qed.

(** Ascending without repetition. *)
Fixpoint ascending (l : list Z) : Prop :=
  match l with
  | [] => True
  | x :: l' => (forall y, In y l' -> (x < y)%Z) /\ ascending l'
  end.

Lemma insert_uniq_ascending (x : Z) (l : list Z) :
  ascending l -> ascending (insert_uniq x l).
Proof.
  induction l as [|z l IH]; simpl; intros Ha.
  - split; [intros y []|exact I].
  - destruct Ha as [Hz Ha].
    destruct (x <? z)%Z eqn:E1.
    + apply Z.ltb_lt in E1. simpl. split; [|split; assumption].
      intros y [<-|Hy]; [exact E1|]. specialize (Hz y Hy). lia.
    + destruct (x =? z)%Z eqn:E2; [simpl; split; assumption|].
      apply Z.ltb_ge in E1. apply Z.eqb_neq in E2. simpl. split.
      * intros y Hy. apply insert_uniq_In in Hy. destruct Hy as [->|Hy].
        -- lia.
        -- apply Hz, Hy.
      * apply IH, Ha.
Qed.

Lemma unique_ascending (s : list Z) : ascending (unique s).
Proof.
  induction s as [|x s IH]; simpl.
  - exact I.
  - apply insert_uniq_ascending, IH.
Qed.

Lemma ascending_ext (l1 l2 : list Z) :
  ascending l1 -> ascending l2 -> (forall x, In x l1 <-> In x l2) -> l1 = l2.
Proof.
  revert l2. induction l1 as [|a l1 IH]; intros [|b l2] H1 H2 Hin.
  - reflexivity.
  - exfalso. apply (proj2 (Hin b)). now left.
  - exfalso. apply (proj1 (Hin a)). now left.
  - destruct H1 as [Ha H1], H2 as [Hb H2].
    assert (Hab : a = b).
    { destruct (proj1 (Hin a) (or_introl eq_refl)) as [E|Ea]; [now symmetry|].
      destruct (proj2 (Hin b) (or_introl eq_refl)) as [E|Eb]; [exact E|].
      specialize (Ha b Eb). specialize (Hb a Ea). lia. }
    subst b. f_equal. apply IH; try assumption.
    intros x. split; intros Hx.
    + destruct (proj1 (Hin x) (or_intror Hx)) as [E|Hx']; [|exact Hx'].
      subst x. specialize (Ha a Hx). lia.
    + destruct (proj2 (Hin x) (or_intror Hx)) as [E|Hx']; [|exact Hx'].
      subst x. specialize (Hb a Hx). lia.
Qed.

Lemma zrange_In (n x : Z) : In x (zrange n) <-> (0 <= x < n)%Z.
Proof.
  unfold zrange. rewrite in_map_iff. split.
  - intros [k [<- Hk]]. apply in_seq in Hk. lia.
  - intros Hx. exists (Z.to_nat x). split; [lia|]. apply in_seq. lia.
Qed.

Lemma seq_ascending (len start : nat) : ascending (map Z.of_nat (seq start len)).
Proof.
  revert start. induction len as [|len IH]; intros start; simpl.
  - exact I.
  - split; [|apply IH]. intros y Hy. apply in_map_iff in Hy.
    destruct Hy as [k [<- Hk]]. apply in_seq in Hk. lia.
Qed.

Lemma unique_eq_zrange (K : Z) (l : list Z) :
  (forall x, In x l <-> (0 <= x < K)%Z) -> unique l = zrange K.
Proof.
  intros Hl. apply ascending_ext.
  - apply unique_ascending.
  - apply seq_ascending.
  - intros x. rewrite unique_In, zrange_In. apply Hl.
Qed.

Lemma valid_labels_In (K : nat) (s : list Z) :
  valid_labels K s -> forall x, In x s <-> (0 <= x < Z.of_nat K)%Z.
Proof.
  intros [_ [Hr Hc]] x. split.
  - intros Hx. rewrite Forall_forall in Hr. apply Hr, Hx.
  - apply Hc.
Qed.

Lemma zmax_ge (s : list Z) (x : Z) : In x s -> (x <= zmax s)%Z.
Proof.
  induction s as [|y s IH]; simpl; intros Hx.
  - destruct Hx.
  - destruct Hx as [->|Hx]; [lia|]. specialize (IH Hx). lia.
Qed.

Lemma zmax_le (s : list Z) (b : Z) :
  (0 <= b)%Z -> Forall (fun x => (x <= b)%Z) s -> (zmax s <= b)%Z.
Proof.
  intros Hb. induction 1; simpl; lia.
Qed.

Lemma bincount_valid (K : nat) (s : list Z) :
  valid_labels K s -> bincount s = Ok (class_counts K s).
Proof.
  intros Hv. pose proof (valid_labels_In Hv) as Hin.
  destruct Hv as [HK [Hr Hc]]. unfold bincount.
  assert (Hneg : existsb (fun x => (x <? 0)%Z) s = false).
  { apply not_true_is_false. intros Hex. apply existsb_exists in Hex.
    destruct Hex as [x [Hx Hlt]]. apply Z.ltb_lt in Hlt.
    apply Hin in Hx. lia. }
  rewrite Hneg.
  assert (Hmax : (zmax s + 1 = Z.of_nat K)%Z).
  { assert (zmax s <= Z.of_nat K - 1)%Z.
    { apply zmax_le; [lia|]. rewrite Forall_forall. intros x Hx.
      apply Hin in Hx. lia. }
    assert (Z.of_nat K - 1 <= zmax s)%Z.
    { apply zmax_ge. apply Hin. lia. }
    lia. }
  rewrite Hmax. destruct s as [|x s].
  - exfalso. apply (proj2 (Hin 0%Z)). lia.
  - reflexivity.
Qed.

(** ** Arrays: masks, broadcasting, transposition *)

Lemma mask_map_filter {A B} (f : A -> B) (p : A -> bool) (l : list A) :
  mask (map f l) (map p l) = Ok (map f (filter p l)).
Proof.
  induction l as [|x l IH]; simpl.
  - reflexivity.
  - rewrite IH. simpl. destruct (p x); reflexivity.
Qed.

Lemma bcast2_same {A B C} (f : A -> B -> C) (xs : list A) (ys : list B) :
  length xs = length ys ->
  bcast2 f xs ys = Ok (map (fun p => f (fst p) (snd p)) (combine xs ys)).
Proof. intros Hl. unfold bcast2. now rewrite Hl, Nat.eqb_refl. Qed.

Lemma combine_map_map {A B C} (f : A -> B) (g : A -> C) (l : list A) :
  combine (map f l) (map g l) = map (fun x => (f x, g x)) l.
Proof. induction l as [|x l IH]; simpl; [reflexivity|now rewrite IH]. Qed.

Lemma combine_fst_snd {A B} (l : list (A * B)) :
  combine (map fst l) (map snd l) = l.
Proof.
  rewrite combine_map_map. rewrite <- (map_id l) at 2.
  apply map_ext. now intros [a b].
Qed.

Lemma map_fst_combine {A B} (l1 : list A) (l2 : list B) :
  length l1 = length l2 -> map fst (combine l1 l2) = l1.
Proof.
  revert l2. induction l1 as [|x l1 IH]; intros [|y l2] Hl; simpl in *;
    try discriminate; [reflexivity|]. f_equal. apply IH. lia.
Qed.

Lemma map_snd_combine {A B} (l1 : list A) (l2 : list B) :
  length l1 = length l2 -> map snd (combine l1 l2) = l2.
Proof.
  revert l2. induction l1 as [|x l1 IH]; intros [|y l2] Hl; simpl in *;
    try discriminate; [reflexivity|]. f_equal. apply IH. lia.
Qed.

Lemma map_seq_nth {A B} (h : A -> B) (l : list A) (d : A) :
  map (fun j => h (nth j l d)) (seq 0 (length l)) = map h l.
Proof.
  induction l as [|x l IH]; simpl.
  - reflexivity.
  - f_equal. rewrite <- seq_shift, map_map. exact IH.
Qed.

Lemma transpose_tabulate {A B C} (f : A -> B -> C) (rows : list A) (cols : list B)
  (d : C) :
  rows <> [] ->
  transpose d (tabulate f rows cols) = tabulate (fun b a => f a b) cols rows.
Proof.
  intros Hne. unfold transpose, tabulate.
  destruct rows as [|a0 rows]; [contradiction|].
  destruct cols as [|b0 cols]; [reflexivity|].
  set (R := a0 :: rows). set (Cs := b0 :: cols).
  replace (length (hd [] (map (fun a => map (f a) Cs) R))) with (length Cs)
    by (simpl; now rewrite length_map).
  rewrite <- (map_seq_nth (fun b => map (fun a => f a b) R) Cs b0).
  apply map_ext_in. intros j Hj. apply in_seq in Hj.
  rewrite map_map. apply map_ext. intros a.
  rewrite (nth_indep _ d (f a b0)) by (rewrite length_map; lia).
  apply map_nth.
Qed.

Lemma column_same_shape {T} `{Num T} (psx : matrix T) (k : nat) (d : T) :
  Forall (fun row => (k < length row)%nat) psx ->
  column psx k = Ok (map (fun row => nth k row d) psx).
Proof.
  intros Hs. unfold column. apply mapM_pure. intros row Hrow.
  rewrite Forall_forall in Hs. specialize (Hs row Hrow).
  destruct (nth_error row k) eqn:E.
  - now rewrite (nth_error_nth _ _ d E).
  - apply nth_error_None in E. lia.
Qed.

(** ** The decision rule on rows of the right shape *)

Lemma argmax_from_bound {T} `{Num T} (l : list T) (i best : nat) (bv : T) :
  (best < i)%nat -> (argmax_from i best bv l < i + length l)%nat.
Proof.
  revert i best bv. induction l as [|x l IH]; intros i best bv Hb; simpl.
  - lia.
  - destruct (gtb x bv).
    + specialize (IH (S i) i x). lia.
    + specialize (IH (S i) best bv). lia.
Qed.

Lemma first_true_bound (l : list bool) (i : nat) :
  first_true i l = 0%nat \/ (first_true i l < i + length l)%nat.
Proof.
  revert i. induction l as [|b l IH]; intros i; simpl.
  - now left.
  - destruct b; [right; lia|].
    destruct (IH (S i)) as [E|E]; [now left|right; lia].
Qed.

Lemma classify_same_shape {T} `{Num T} (thresholds : list (option T)) (row : list T) :
  length row = length thresholds -> row <> [] ->
  classify thresholds row = Ok (guess_of thresholds row).
Proof.
  intros Hl Hne. unfold classify. rewrite (bcast2_same _ _ _ Hl). simpl.
  destruct row as [|x row]; [contradiction|].
  destruct thresholds as [|t thresholds]; [discriminate|].
  reflexivity.
Qed.

Lemma guess_of_range {T} `{Num T} (thresholds : list (option T)) (row : list T) :
  length row = length thresholds -> row <> [] ->
  (0 <= snd (guess_of thresholds row) < Z.of_nat (length row))%Z.
Proof.
  intros Hl Hne. unfold guess_of. cbv zeta. cbn [snd].
  destruct (1 <? num_true (bins_of thresholds row))%nat.
  - destruct row as [|x row]; [contradiction|].
    pose proof (@argmax_from_bound _ _ row 1 0 x). simpl length. lia.
  - assert (Hb : length (bins_of thresholds row) = length row).
    { unfold bins_of. rewrite length_map, length_combine. lia. }
    destruct (first_true_bound (bins_of thresholds row) 0) as [E|E].
    + rewrite E. destruct row; [contradiction|]. simpl length. lia.
    + lia.
Qed.

(** ** [compute_confident_joint] on data of the right shape *)

Lemma unique_valid_length (K : nat) (s : list Z) :
  valid_labels K s -> Z.of_nat (length (unique s)) = Z.of_nat K.
Proof.
  intros Hv. rewrite (@unique_eq_zrange (Z.of_nat K) s (valid_labels_In Hv)).
  rewrite length_zrange. lia.
Qed.

Lemma default_thresholds_same_shape {T} `{Num T} (K : nat) (s : list Z) (psx : matrix T) :
  shape_ok K s psx ->
  default_thresholds s psx (Z.of_nat K) = Ok (mean_thresholds K s psx).
Proof.
  intros [Hlen Hrows]. unfold default_thresholds, mean_thresholds.
  rewrite Nat2Z.id. apply mapM_pure. intros k Hk. apply in_seq in Hk.
  unfold mean_where.
  rewrite (column_same_shape (k:=k) (of_Z 0)).
  2:{ eapply Forall_impl; [|exact Hrows]. simpl. intros row Hr. lia. }
  simpl.
  rewrite <- (map_snd_combine s psx) at 1 by congruence.
  rewrite <- (map_fst_combine s psx) at 2 by congruence.
  rewrite !map_map.
  rewrite (mask_map_filter (fun e => nth k (snd e) (of_Z 0))
                           (fun e => (fst e =? Z.of_nat k)%Z) (combine s psx)).
  reflexivity.
Qed.

Lemma compute_confident_joint_given {T} `{Num T} (K : nat) (s : list Z)
  (psx : matrix T) (Kopt : option Z) (thresholds : list (option T)) :
  (0 < K)%nat -> shape_ok K s psx -> length thresholds = K ->
  compute_confident_joint s psx Kopt (Some thresholds)
  = Ok (transpose 0%Z (confusion_matrix
                         (map snd (confident_pairs thresholds s psx))
                         (map fst (confident_pairs thresholds s psx)))).
Proof.
  intros HK [Hlen Hrows] Ht.
  assert (Hcl : mapM (classify thresholds) psx = Ok (map (guess_of thresholds) psx)).
  { apply mapM_pure. intros row Hrow. rewrite Forall_forall in Hrows.
    specialize (Hrows row Hrow). apply classify_same_shape; [congruence|].
    intros ->. simpl in Hrows. lia. }
  unfold compute_confident_joint. cbn [bind]. rewrite Hcl. cbn [bind].
  unfold confident_pairs, examples.
  assert (Hs : s = map fst (combine s psx))
    by (symmetry; apply map_fst_combine; congruence).
  assert (Hp : psx = map snd (combine s psx))
    by (symmetry; apply map_snd_combine; congruence).
  revert Hs Hp. generalize (combine s psx) as E. intros E Hs Hp.
  rewrite Hp, Hs. rewrite !map_map.
  rewrite (mask_map_filter (fun e => snd (guess_of thresholds (snd e)))
                           (fun e => fst (guess_of thresholds (snd e))) E).
  cbn [bind].
  rewrite (mask_map_filter fst (fun e => fst (guess_of thresholds (snd e))) E).
  cbn [bind]. reflexivity.
Qed.

Lemma compute_confident_joint_default {T} `{Num T} (K : nat) (s : list Z)
  (psx : matrix T) :
  valid_labels K s -> shape_ok K s psx ->
  compute_confident_joint s psx None None
  = compute_confident_joint s psx None (Some (mean_thresholds K s psx)).
Proof.
  intros Hv Hs. unfold compute_confident_joint.
  rewrite (unique_valid_length Hv).
  rewrite (default_thresholds_same_shape Hs). reflexivity.
Qed.

Lemma filter_map_length {A B} (f : A -> B) (p : B -> bool) (l : list A) :
  length (filter p (map f l)) = length (filter (fun x => p (f x)) l).
Proof.
  induction l as [|x l IH]; simpl; [reflexivity|].
  destruct (p (f x)); simpl; now rewrite IH.
Qed.

(** When the labels met among the confident examples are exactly 0..K-1,
    ranks and labels agree and the joint is the K x K table of counts. *)
Lemma confident_joint_tabulate (K : nat) (P : list (Z * Z)) :
  (0 < K)%nat ->
  (forall x, In x (map snd P ++ map fst P) <-> (0 <= x < Z.of_nat K)%Z) ->
  transpose 0%Z (confusion_matrix (map snd P) (map fst P))
  = tabulate (pair_count P) (zrange (Z.of_nat K)) (zrange (Z.of_nat K)).
Proof.
  intros HK Hin. unfold confusion_matrix.
  rewrite (@unique_eq_zrange (Z.of_nat K) _ Hin).
  set (L := zrange (Z.of_nat K)).
  etransitivity.
  { apply (@transpose_tabulate _ _ _
             (fun a b => Z.of_nat (length (filter (fun p => (fst p =? a)%Z && (snd p =? b)%Z)
                                                  (combine (map snd P) (map fst P)))))
             L L 0%Z).
    unfold L, zrange. rewrite Nat2Z.id. destruct K; [lia|discriminate]. }
  unfold tabulate. apply map_ext. intros i. apply map_ext. intros j.
  unfold pair_count. f_equal. rewrite combine_map_map, filter_map_length.
  f_equal. apply filter_ext. intros [l g]. simpl. apply andb_comm.
Qed.

(** ** Broadcasting and element-wise maps on tables *)

Lemma bcast_rows_tabulate {A B C D E} (g : C -> D -> E) (f : A -> B -> C)
  (h : B -> D) (rows : list A) (cols : list B) :
  rows <> [] ->
  bcast_rows g (tabulate f rows cols) (map h cols)
  = Ok (tabulate (fun a b => g (f a b) (h b)) rows cols).
Proof.
  intros Hne. unfold bcast_rows, tabulate.
  destruct rows as [|a0 rows]; [contradiction|].
  set (R := a0 :: rows).
  assert (Hm : mapM (fun r => bcast2 g r (map h cols)) (map (fun a => map (f a) cols) R)
               = Ok (map (fun a => map (fun b => g (f a b) (h b)) cols) R)).
  { generalize R. intros l. induction l as [|a l IH]; [reflexivity|].
    cbn [map mapM]. rewrite IH.
    rewrite bcast2_same by (now rewrite !length_map).
    rewrite combine_map_map, map_map. reflexivity. }
  exact Hm.
Qed.

Lemma mapM_mapM_tabulate {A B C D} (phi : C -> result D) (f : A -> B -> C)
  (psi : A -> B -> D) (rows : list A) (cols : list B) :
  (forall a b, In a rows -> In b cols -> phi (f a b) = Ok (psi a b)) ->
  mapM (mapM phi) (tabulate f rows cols) = Ok (tabulate psi rows cols).
Proof.
  intros Hphi. unfold tabulate.
  induction rows as [|a rows IH]; [reflexivity|].
  cbn [map mapM].
  assert (Hrow : mapM phi (map (f a) cols) = Ok (map (psi a) cols)).
  { assert (Ha : In a (a :: rows)) by now left.
    revert Ha. generalize (a :: rows). intros R Ha.
    clear IH. induction cols as [|b cols IHc]; [reflexivity|].
    cbn [map mapM]. rewrite (Hphi a b) by (auto; now left).
    cbn [bind]. rewrite IHc; [reflexivity|].
    intros a' b' Ha' Hb'. apply Hphi; [exact Ha'|now right]. }
  rewrite Hrow. cbn [bind].
  rewrite IH by (intros a' b' Ha' Hb'; apply Hphi; [now right|exact Hb']).
  reflexivity.
Qed.

(** ** Sums over exact rationals *)

Lemma fold_left_Qplus_acc (l : list Q) (a : Q) :
  fold_left Qplus l a == a + fold_left Qplus l 0.
Proof.
  revert a. induction l as [|x l IH]; intros a; simpl.
  - ring.
  - rewrite (IH (a + x)), (IH (0 + x)). ring.
Qed.

Lemma np_sum_cons (x : Q) (l : list Q) : np_sum (x :: l) == x + np_sum l.
Proof.
  change (fold_left Qplus l (0 + x) == x + fold_left Qplus l 0).
  rewrite fold_left_Qplus_acc. ring.
Qed.

Lemma np_sum_app (l1 l2 : list Q) : np_sum (l1 ++ l2) == np_sum l1 + np_sum l2.
Proof.
  induction l1 as [|x l1 IH].
  - change (np_sum l2 == 0 + np_sum l2). ring.
  - simpl app. rewrite !np_sum_cons, IH. ring.
Qed.

Lemma np_sum_concat (M : list (list Q)) : np_sum (concat M) == np_sum (map np_sum M).
Proof.
  induction M as [|r M IH].
  - reflexivity.
  - simpl concat. simpl map. rewrite np_sum_app, np_sum_cons, IH. reflexivity.
Qed.

Lemma np_sum_map_ext {A} (f g : A -> Q) (l : list A) :
  (forall x, In x l -> f x == g x) -> np_sum (map f l) == np_sum (map g l).
Proof.
  induction l as [|x l IH]; intros Hfg.
  - reflexivity.
  - simpl map. rewrite !np_sum_cons. apply Qplus_comp.
    + apply Hfg. now left.
    + apply IH. intros y Hy. apply Hfg. now right.
Qed.

Lemma np_sum_map_scale {A} (f : A -> Q) (c : Q) (l : list A) :
  np_sum (map (fun x => f x * c) l) == np_sum (map f l) * c.
Proof.
  induction l as [|x l IH].
  - change (0 == 0 * c). ring.
  - simpl map. rewrite !np_sum_cons, IH. ring.
Qed.

Lemma zsum_cons (x : Z) (l : list Z) : zsum (x :: l) = (x + zsum l)%Z.
Proof.
  unfold zsum. simpl.
  assert (Hacc : forall l a, fold_left Z.add l a = (a + fold_left Z.add l 0)%Z).
  { clear. induction l as [|y l IH]; intros a; simpl; [lia|].
    rewrite (IH (a + y)%Z), (IH y). lia. }
  apply Hacc.
Qed.

Lemma np_sum_map_inject {A} (g : A -> Z) (l : list A) :
  np_sum (map (fun x => inject_Z (g x)) l) == inject_Z (zsum (map g l)).
Proof.
  induction l as [|x l IH].
  - reflexivity.
  - simpl map. rewrite np_sum_cons, zsum_cons, IH, inject_Z_plus. reflexivity.
Qed.

(** ** Rounding of exact integers *)

Lemma Qrint_inject (q : Q) (z : Z) : q == inject_Z z -> Qrint q = z.
Proof.
  intros Hq. unfold Qrint. cbv zeta.
  assert (Hf : Qfloor q = z) by (rewrite Hq; apply Qfloor_Z).
  rewrite Hf.
  assert (Hc : Qcompare (q - inject_Z z) (1 # 2) = Lt).
  { apply Qlt_alt. rewrite Hq.
    setoid_replace (inject_Z z - inject_Z z) with 0 by ring. reflexivity. }
  now rewrite Hc.
Qed.

Lemma Qtrunc_zero (q : Q) : q == 0 -> Qtrunc q = 0%Z.
Proof.
  intros Hq. unfold Qtrunc.
  assert (Hle : Qle_bool 0 q = true) by (apply Qle_bool_iff; rewrite Hq; apply Qle_refl).
  rewrite Hle, Hq. reflexivity.
Qed.

(** ** Every class has a confident example under the default thresholds *)

Lemma np_sum_lt_bound (l : list Q) (m : Q) :
  l <> [] -> Forall (fun x => x < m) l ->
  np_sum l < inject_Z (Z.of_nat (length l)) * m.
Proof.
  intros Hne Hall. induction Hall as [|x l Hx Hall IH]; [contradiction|].
  rewrite np_sum_cons.
  replace (Z.of_nat (length (x :: l))) with (1 + Z.of_nat (length l))%Z
    by (simpl length; lia).
  rewrite inject_Z_plus.
  destruct l as [|y l].
  - change (x + 0 < (inject_Z 1 + inject_Z 0) * m).
    setoid_replace ((inject_Z 1 + inject_Z 0) * m) with m by (unfold inject_Z; ring).
    setoid_replace (x + 0) with x by ring. exact Hx.
  - assert (IH' := IH ltac:(discriminate)).
    setoid_replace ((inject_Z 1 + inject_Z (Z.of_nat (length (y :: l)))) * m)
      with (m + inject_Z (Z.of_nat (length (y :: l))) * m) by (unfold inject_Z at 1; ring).
    apply Qplus_lt_le_compat; [exact Hx|]. apply Qlt_le_weak, IH'.
Qed.

(** Some element of a non-empty array is at least its mean. *)
Lemma mean_le_some (l : list Q) (m : Q) :
  np_mean l = Some m -> exists x, In x l /\ m <= x.
Proof.
  intros Hm. destruct l as [|x0 l]; [discriminate|].
  set (a := x0 :: l) in *.
  assert (Hne : a <> []) by discriminate.
  injection Hm as Hm.
  change (np_sum a / inject_Z (Z.of_nat (length a)) = m) in Hm.
  assert (Hdec : forall x, {x < m} + {~ x < m}).
  { intros x. destruct (Qlt_le_dec x m) as [Hlt|Hle]; [now left|right].
    now apply Qle_not_lt. }
  destruct (Forall_Exists_dec (fun x => x < m) Hdec a) as [Hall|Hex].
  - exfalso. pose proof (np_sum_lt_bound Hne Hall) as Hlt.
    assert (Hpos : ~ inject_Z (Z.of_nat (length a)) == 0).
    { unfold a. simpl length. unfold Qeq. simpl. lia. }
    assert (Heq : np_sum a == inject_Z (Z.of_nat (length a)) * m).
    { rewrite <- Hm. field. exact Hpos. }
    rewrite Heq in Hlt. exact (Qlt_irrefl _ Hlt).
  - apply Exists_exists in Hex. destruct Hex as [x [Hx Hnlt]].
    exists x. split; [exact Hx|]. apply Qnot_lt_le, Hnlt.
Qed.

Lemma num_true_pos (l : list bool) (k : nat) :
  nth k l false = true -> (0 < num_true l)%nat.
Proof.
  revert k. induction l as [|b l IH]; intros k Hk.
  - destruct k; discriminate.
  - unfold num_true. simpl. destruct b; simpl; [lia|].
    destruct k; [discriminate|]. exact (IH k Hk).
Qed.

Lemma bins_of_nth {T} `{Num T} (thresholds : list (option T)) (row : list T) (k : nat) :
  length row = length thresholds ->
  nth k (bins_of thresholds row) false
  = confident_bin (nth k row (of_Z 0)) (nth k thresholds None).
Proof.
  intros Hl. unfold bins_of.
  change false with ((fun p => confident_bin (fst p) (snd p)) (of_Z 0, @None T)).
  rewrite map_nth. rewrite combine_nth by exact Hl. reflexivity.
Qed.

Lemma mean_thresholds_nth {T} `{Num T} (K : nat) (s : list Z) (psx : matrix T) (k : nat) :
  (k < K)%nat -> nth k (mean_thresholds K s psx) None = np_mean (selection s psx k).
Proof.
  intros Hk. unfold mean_thresholds.
  rewrite (nth_indep _ None (np_mean (selection s psx 0)))
    by (rewrite length_map, length_seq; exact Hk).
  rewrite (map_nth (fun k => np_mean (selection s psx k))).
  now rewrite seq_nth.
Qed.

Lemma confident_pairs_range {T} `{Num T} (K : nat) (s : list Z) (psx : matrix T)
  (thresholds : list (option T)) (p : Z * Z) :
  valid_labels K s -> shape_ok K s psx -> length thresholds = K ->
  In p (confident_pairs thresholds s psx) ->
  (0 <= fst p < Z.of_nat K)%Z /\ (0 <= snd p < Z.of_nat K)%Z.
Proof.
  intros Hv [Hlen Hrows] Ht Hp. unfold confident_pairs, examples in Hp.
  apply in_map_iff in Hp. destruct Hp as [[l row] [<- He]].
  apply filter_In in He. destruct He as [He _]. cbn [fst snd].
  split.
  - apply (valid_labels_In Hv). eapply in_combine_l, He.
  - apply in_combine_r in He. rewrite Forall_forall in Hrows.
    specialize (Hrows row He).
    assert (Hne : row <> []) by (destruct Hv as [HK _]; intros ->; simpl in Hrows; lia).
    pose proof (@guess_of_range _ _ thresholds row ltac:(congruence) Hne) as Hg.
    rewrite Hrows in Hg. exact Hg.
Qed.

Lemma tol_nonneg : 0 <= @tol Q _.
Proof. unfold Qle. simpl. lia. Qed.

Lemma confident_pairs_cover (K : nat) (s : list Z) (psx : matrix Q) (k : Z) :
  valid_labels K s -> shape_ok K s psx -> (0 <= k < Z.of_nat K)%Z ->
  exists p, In p (confident_pairs (mean_thresholds K s psx) s psx) /\ fst p = k.
Proof.
  intros Hv [Hlen Hrows] Hk.
  set (kn := Z.to_nat k). assert (Hkn : Z.of_nat kn = k) by (unfold kn; lia).
  assert (Hin : In k s) by (apply (valid_labels_In Hv); exact Hk).
  (* the selection of class k is not empty *)
  assert (Hsel : selection s psx kn <> []).
  { rewrite <- (map_fst_combine s psx) in Hin by congruence.
    apply in_map_iff in Hin. destruct Hin as [e [Hfe He]].
    unfold selection, examples. intros Hnil.
    apply map_eq_nil in Hnil.
    assert (Hf : In e (filter (fun e => (fst e =? Z.of_nat kn)%Z) (combine s psx))).
    { apply filter_In. split; [exact He|]. apply Z.eqb_eq. congruence. }
    rewrite Hnil in Hf. destruct Hf. }
  destruct (np_mean (selection s psx kn)) as [m|] eqn:Hm.
  2:{ unfold np_mean in Hm. destruct (selection s psx kn); [contradiction|discriminate]. }
  destruct (mean_le_some _ Hm) as [x [Hx Hmx]].
  unfold selection, examples in Hx. apply in_map_iff in Hx.
  destruct Hx as [[l row] [Hnth He]]. apply filter_In in He.
  destruct He as [He Hl]. cbn [fst snd] in *. apply Z.eqb_eq in Hl.
  assert (Hrow : length row = K).
  { rewrite Forall_forall in Hrows. apply Hrows. eapply in_combine_r, He. }
  assert (Hlt : length (mean_thresholds K s psx) = K).
  { unfold mean_thresholds. now rewrite length_map, length_seq. }
  assert (Hinc : fst (guess_of (mean_thresholds K s psx) row) = true).
  { unfold guess_of. cbv zeta. cbn [fst]. apply Nat.ltb_lt.
    apply (@num_true_pos _ kn).
    rewrite bins_of_nth by congruence.
    rewrite mean_thresholds_nth by lia.
    rewrite Hm, Hnth.
    unfold confident_bin. change (Qle_bool (m - tol) x = true).
    apply Qle_bool_iff. apply Qle_trans with m; [|exact Hmx].
    pose proof tol_nonneg as Ht.
    apply Qle_minus_iff. setoid_replace (m + - (m - tol)) with (@tol Q _) by ring.
    exact Ht. }
  exists (l, snd (guess_of (mean_thresholds K s psx) row)). split; [|cbn; congruence].
  unfold confident_pairs, examples.
  apply (in_map (fun e => (fst e, snd (guess_of (mean_thresholds K s psx) (snd e))))
                _ (l, row)).
  apply filter_In. split; [exact He|exact Hinc].
Qed.

(** ** Counting *)

Lemma zsum_nonneg (l : list Z) : Forall (fun x => (0 <= x)%Z) l -> (0 <= zsum l)%Z.
Proof.
  induction 1 as [|x l Hx _ IH]; [reflexivity|]. rewrite zsum_cons. lia.
Qed.

Lemma zsum_pos (l : list Z) (x : Z) :
  Forall (fun y => (0 <= y)%Z) l -> In x l -> (0 < x)%Z -> (0 < zsum l)%Z.
Proof.
  intros Hall. revert x. induction Hall as [|y l Hy Hall IH]; intros x Hin Hx.
  - destruct Hin.
  - rewrite zsum_cons. pose proof (zsum_nonneg Hall).
    destruct Hin as [->|Hin]; [lia|]. specialize (IH x Hin Hx). lia.
Qed.

Lemma pair_count_nonneg (P : list (Z * Z)) (i j : Z) : (0 <= pair_count P i j)%Z.
Proof. unfold pair_count. lia. Qed.

Lemma pair_count_pos (P : list (Z * Z)) (p : Z * Z) :
  In p P -> (0 < pair_count P (fst p) (snd p))%Z.
Proof.
  intros Hp. unfold pair_count.
  assert (Hf : In p (filter (fun q => (fst q =? fst p)%Z && (snd q =? snd p)%Z) P)).
  { apply filter_In. split; [exact Hp|]. now rewrite !Z.eqb_refl. }
  destruct (filter _ P); [destruct Hf|]. simpl length. lia.
Qed.

Lemma zsum_map_add {A} (f g : A -> Z) (l : list A) :
  zsum (map (fun x => (f x + g x)%Z) l) = (zsum (map f l) + zsum (map g l))%Z.
Proof.
  induction l as [|x l IH]; [reflexivity|].
  simpl map. rewrite !zsum_cons, IH. lia.
Qed.

Lemma zsum_indicator (x : Z) (len start : nat) :
  zsum (map (fun i => if (i =? x)%Z then 1%Z else 0%Z) (map Z.of_nat (seq start len)))
  = if ((Z.of_nat start <=? x) && (x <? Z.of_nat (start + len)))%Z then 1%Z else 0%Z.
Proof.
  revert start. induction len as [|len IH]; intros start.
  - simpl. destruct (Z.of_nat start <=? x)%Z eqn:E1; [|reflexivity].
    destruct (x <? Z.of_nat (start + 0))%Z eqn:E2; [|reflexivity].
    apply Z.leb_le in E1. apply Z.ltb_lt in E2. lia.
  - cbn [seq map]. rewrite zsum_cons, IH.
    destruct (Z.of_nat start =? x)%Z eqn:E0;
      destruct (Z.of_nat (S start) <=? x)%Z eqn:E1;
      destruct (x <? Z.of_nat (S start + len))%Z eqn:E2;
      destruct (Z.of_nat start <=? x)%Z eqn:E3;
      destruct (x <? Z.of_nat (start + S len))%Z eqn:E4;
      cbn [andb];
      rewrite ?Z.eqb_eq, ?Z.eqb_neq, ?Z.leb_le, ?Z.leb_gt, ?Z.ltb_lt, ?Z.ltb_ge in *;
      lia.
Qed.

Lemma count_eq_cons (i x : Z) (s : list Z) :
  count_eq i (x :: s) = ((if (i =? x)%Z then 1 else 0) + count_eq i s)%Z.
Proof.
  unfold count_eq. simpl. destruct (i =? x)%Z; simpl length; lia.
Qed.

(** The per-class counts of labels in [0, K) add up to the number of labels. *)
Lemma class_counts_total (K : nat) (s : list Z) :
  Forall (fun l => (0 <= l < Z.of_nat K)%Z) s ->
  zsum (class_counts K s) = Z.of_nat (length s).
Proof.
  unfold class_counts. induction 1 as [|x s Hx _ IH].
  - unfold count_eq. simpl. induction (zrange (Z.of_nat K)) as [|i l IHl];
      [reflexivity|]. simpl map. rewrite zsum_cons, IHl. reflexivity.
  - rewrite (map_ext _ _ (fun i => count_eq_cons i x s)).
    rewrite (zsum_map_add (fun i => if (i =? x)%Z then 1%Z else 0%Z)
                          (fun i => count_eq i s)).
    rewrite IH. unfold zrange. rewrite zsum_indicator.
    replace ((Z.of_nat 0 <=? x)%Z && (x <? Z.of_nat (0 + Z.to_nat (Z.of_nat K)))%Z)
      with true.
    + simpl length. lia.
    + symmetry. apply andb_true_intro. split; [apply Z.leb_le|apply Z.ltb_lt]; lia.
Qed.

Lemma row_sums_tabulate {T} `{Num T} {A B} (f : A -> B -> T) (rows : list A)
  (cols : list B) :
  row_sums (tabulate f rows cols) = map (fun a => np_sum (map (f a) cols)) rows.
Proof. unfold row_sums, tabulate. now rewrite map_map. Qed.

Lemma np_sum2_tabulate {A B} (f : A -> B -> Q) (rows : list A) (cols : list B) :
  np_sum2 (tabulate f rows cols) == np_sum (map (fun a => np_sum (map (f a) cols)) rows).
Proof.
  unfold np_sum2. rewrite np_sum_concat. unfold tabulate. now rewrite map_map.
Qed.

(** ** The raw joint and its calibration on valid data *)

Lemma compute_confident_joint_default_table (K : nat) (s : list Z) (psx : matrix Q) :
  valid_labels K s -> shape_ok K s psx ->
  compute_confident_joint s psx None None
  = Ok (tabulate (pair_count (confident_pairs (mean_thresholds K s psx) s psx))
                 (zrange (Z.of_nat K)) (zrange (Z.of_nat K))).
Proof.
  intros Hv Hs.
  assert (Hlt : length (mean_thresholds K s psx) = K).
  { unfold mean_thresholds. now rewrite length_map, length_seq. }
  rewrite (compute_confident_joint_default Hv Hs).
  rewrite (@compute_confident_joint_given _ _ K s psx None _ (proj1 Hv) Hs Hlt).
  f_equal. apply confident_joint_tabulate; [exact (proj1 Hv)|].
  intros x. rewrite in_app_iff. split.
  - intros [Hx|Hx]; apply in_map_iff in Hx; destruct Hx as [p [<- Hp]];
      apply (@confident_pairs_range _ _ K s psx _ p Hv Hs Hlt Hp).
  - intros Hx. right. destruct (@confident_pairs_cover K s psx x Hv Hs Hx) as [p [Hp <-]].
    now apply in_map.
Qed.

Lemma row_total_pos (K : nat) (s : list Z) (psx : matrix Q) (i : Z) :
  valid_labels K s -> shape_ok K s psx -> (0 <= i < Z.of_nat K)%Z ->
  (0 < zsum (map (pair_count (confident_pairs (mean_thresholds K s psx) s psx) i)
                 (zrange (Z.of_nat K))))%Z.
Proof.
  intros Hv Hs Hi.
  assert (Hlt : length (mean_thresholds K s psx) = K).
  { unfold mean_thresholds. now rewrite length_map, length_seq. }
  destruct (@confident_pairs_cover K s psx i Hv Hs Hi) as [p [Hp Hfp]].
  destruct (@confident_pairs_range _ _ K s psx _ p Hv Hs Hlt Hp) as [_ Hg].
  apply zsum_pos with (x := pair_count (confident_pairs (mean_thresholds K s psx) s psx)
                                       i (snd p)).
  - apply Forall_map, Forall_forall. intros j _. apply pair_count_nonneg.
  - apply in_map. apply zrange_In. exact Hg.
  - rewrite <- Hfp. apply pair_count_pos, Hp.
Qed.

Lemma inject_Z_nonzero (z : Z) : (z <> 0)%Z -> Qeq_bool (inject_Z z) 0 = false.
Proof.
  intros Hz. apply not_true_is_false. intros Hq. apply Qeq_bool_iff in Hq.
  unfold Qeq in Hq. simpl in Hq. lia.
Qed.

Lemma rescaled_row_sum (K : nat) (s : list Z) (P : list (Z * Z)) (i : Z) :
  (0 < zsum (map (pair_count P i) (zrange (Z.of_nat K))))%Z ->
  np_sum (map (rescaled_entry K s P i) (zrange (Z.of_nat K))) == inject_Z (count_eq i s).
Proof.
  intros Hpos. set (L := zrange (Z.of_nat K)). set (R := zsum (map (pair_count P i) L)).
  rewrite (np_sum_map_ext (rescaled_entry K s P i)
             (fun j => inject_Z (pair_count P i j) * (/ inject_Z R * inject_Z (count_eq i s)))).
  2:{ intros j _. unfold rescaled_entry. fold L. fold R. unfold Qdiv. ring. }
  rewrite (np_sum_map_scale (fun j => inject_Z (pair_count P i j))).
  rewrite np_sum_map_inject. fold R. field.
  intros Hz. unfold Qeq in Hz. simpl in Hz. unfold R, L in Hz. lia.
Qed.

Lemma rescaled_total (K : nat) (s : list Z) (psx : matrix Q) :
  valid_labels K s -> shape_ok K s psx ->
  np_sum2 (tabulate (rescaled_entry K s (confident_pairs (mean_thresholds K s psx) s psx))
                    (zrange (Z.of_nat K)) (zrange (Z.of_nat K)))
  == inject_Z (Z.of_nat (length s)).
Proof.
  intros Hv Hs. rewrite np_sum2_tabulate.
  rewrite (np_sum_map_ext _ (fun i => inject_Z (count_eq i s))).
  - rewrite np_sum_map_inject.
    change (map (fun i => count_eq i s) (zrange (Z.of_nat K))) with (class_counts K s).
    rewrite class_counts_total; [reflexivity|]. exact (proj1 (proj2 Hv)).
  - intros i Hi. apply rescaled_row_sum. apply zrange_In in Hi.
    now apply row_total_pos.
Qed.

Lemma valid_labels_length (K : nat) (s : list Z) :
  valid_labels K s -> (0 < Z.of_nat (length s))%Z.
Proof.
  intros Hv. pose proof (proj2 (valid_labels_In Hv 0%Z)) as H0.
  destruct Hv as [HK _]. destruct s; [|simpl length; lia].
  exfalso. apply H0. lia.
Qed.

Lemma calibrated_row_sum (K : nat) (s : list Z) (psx : matrix Q) (i : Z) :
  valid_labels K s -> shape_ok K s psx -> (0 <= i < Z.of_nat K)%Z ->
  np_sum (map (fun j =>
                 rescaled_entry K s (confident_pairs (mean_thresholds K s psx) s psx) i j
                 / np_sum2 (tabulate
                              (rescaled_entry K s
                                 (confident_pairs (mean_thresholds K s psx) s psx))
                              (zrange (Z.of_nat K)) (zrange (Z.of_nat K)))
                 * inject_Z (Z.of_nat (length s)))
              (zrange (Z.of_nat K)))
  == inject_Z (count_eq i s).
Proof.
  intros Hv Hs Hi. pose proof (rescaled_total Hv Hs) as Ht.
  pose proof (valid_labels_length Hv) as Hn.
  set (P := confident_pairs (mean_thresholds K s psx) s psx) in *.
  set (total := np_sum2 _) in *.
  rewrite (np_sum_map_ext _
             (fun j => rescaled_entry K s P i j
                       * (/ total * inject_Z (Z.of_nat (length s))))).
  2:{ intros j _. unfold Qdiv. ring. }
  rewrite (np_sum_map_scale (rescaled_entry K s P i)).
  rewrite rescaled_row_sum by (now apply row_total_pos).
  rewrite Ht. field. intros Hz. unfold Qeq in Hz. simpl in Hz. lia.
Qed.

Lemma calibrated_total (K : nat) (s : list Z) (psx : matrix Q) :
  valid_labels K s -> shape_ok K s psx ->
  np_sum2 (calibrated_table K s psx) == inject_Z (Z.of_nat (length s)).
Proof.
  intros Hv Hs. unfold calibrated_table. cbv zeta. rewrite np_sum2_tabulate.
  rewrite (np_sum_map_ext _ (fun i => inject_Z (count_eq i s))).
  - rewrite np_sum_map_inject.
    change (map (fun i => count_eq i s) (zrange (Z.of_nat K))) with (class_counts K s).
    rewrite class_counts_total; [reflexivity|]. exact (proj1 (proj2 Hv)).
  - intros i Hi. apply zrange_In in Hi. now apply calibrated_row_sum.
Qed.

Lemma Qeq_bool_nonzero (q : Q) (z : Z) :
  q == inject_Z z -> (z <> 0)%Z -> Qeq_bool q 0 = false.
Proof.
  intros Hq Hz. apply not_true_is_false. intros Hb. apply Qeq_bool_iff in Hb.
  rewrite Hq in Hb. unfold Qeq in Hb. simpl in Hb. lia.
Qed.

Lemma zrange_nonempty (K : nat) : (0 < K)%nat -> zrange (Z.of_nat K) <> [].
Proof.
  intros HK. unfold zrange. rewrite Nat2Z.id. destruct K; [lia|discriminate].
Qed.

(** On valid data the calibration runs through, both asserts included. *)
Lemma calibrate_confident_joint_valid (K : nat) (s : list Z) (psx : matrix Q)
  (J : list (list Z)) :
  valid_labels K s -> shape_ok K s psx ->
  calibrate_confident_joint J s psx = Ok (calibrated_table K s psx).
Proof.
  intros Hv Hs. pose proof (zrange_nonempty (proj1 Hv)) as HL.
  pose proof (rescaled_total Hv Hs) as Htot.
  pose proof (valid_labels_length Hv) as Hn.
  unfold calibrate_confident_joint.
  rewrite (bincount_valid Hv). cbn [bind].
  rewrite (compute_confident_joint_default_table Hv Hs). cbn [bind].
  unfold calibrated_table. cbv zeta.
  set (P := confident_pairs (mean_thresholds K s psx) s psx) in *.
  set (L := zrange (Z.of_nat K)) in *.
  rewrite (@transpose_tabulate _ _ _ (pair_count P) L L 0%Z HL).
  replace (map zsum (tabulate (pair_count P) L L))
    with (map (fun i => zsum (map (pair_count P i) L)) L)
    by (unfold tabulate; now rewrite map_map).
  rewrite (@bcast_rows_tabulate _ _ _ _ _ (fun (a d : Z) => (a, d))
             (fun j i => pair_count P i j) (fun i => zsum (map (pair_count P i) L))
             L L HL).
  cbn [bind].
  rewrite (@mapM_mapM_tabulate _ _ _ _
             (fun ad : Z * Z => div_guard (of_Z (fst ad)) (of_Z (snd ad)))
             (fun j i => (pair_count P i j, zsum (map (pair_count P i) L)))
             (fun j i => inject_Z (pair_count P i j)
                         / inject_Z (zsum (map (pair_count P i) L))) L L).
  2:{ intros j i _ Hi. unfold div_guard. cbn [fst snd].
      change (is_zero (of_Z ?z)) with (Qeq_bool (inject_Z z) 0).
      rewrite inject_Z_nonzero; [reflexivity|].
      apply zrange_In in Hi. pose proof (@row_total_pos K s psx i Hv Hs Hi) as Hp.
      fold P L in Hp. lia. }
  cbn [bind]. unfold class_counts. fold L.
  rewrite (@bcast_rows_tabulate _ _ _ _ _ (fun (x : Q) (c : Z) => mul x (of_Z c))
             (fun j i => inject_Z (pair_count P i j)
                         / inject_Z (zsum (map (pair_count P i) L)))
             (fun i => count_eq i s) L L HL).
  cbn [bind].
  rewrite (@transpose_tabulate _ _ _
             (fun j i => mul (inject_Z (pair_count P i j)
                              / inject_Z (zsum (map (pair_count P i) L)))
                             (of_Z (count_eq i s))) L L (of_Z 0) HL).
  change (tabulate (fun b a => mul (inject_Z (pair_count P b a)
                                    / inject_Z (zsum (map (pair_count P b) L)))
                                   (of_Z (count_eq b s))) L L)
    with (tabulate (rescaled_entry K s P) L L).
  set (total := np_sum2 (tabulate (rescaled_entry K s P) L L)) in *.
  assert (Hz : is_zero total = false).
  { apply (@Qeq_bool_nonzero total _ Htot). lia. }
  rewrite (@mapM_mapM_tabulate _ _ _ _
             (fun x : Q => d <- div_guard x total ;;
                           Ok (mul d (of_Z (Z.of_nat (length s)))))
             (rescaled_entry K s P)
             (fun i j => (rescaled_entry K s P i j / total
                          * inject_Z (Z.of_nat (length s)))%Q) L L).
  2:{ intros i j _ _. unfold div_guard. rewrite Hz. reflexivity. }
  cbn [bind].
  rewrite row_sums_tabulate, map_map.
  rewrite bcast2_same by (now rewrite !length_map).
  rewrite combine_map_map, map_map. cbn [bind fst snd].
  assert (Hrows : forallb (fun b : bool => b)
                    (map (fun i => (rint (np_sum (map (fun j =>
                                      (rescaled_entry K s P i j / total
                                       * inject_Z (Z.of_nat (length s)))%Q) L))
                                    =? count_eq i s)%Z) L) = true).
  { apply forallb_forall. intros b Hb. apply in_map_iff in Hb.
    destruct Hb as [i [<- Hi]]. apply Z.eqb_eq. apply Qrint_inject.
    apply zrange_In in Hi. exact (@calibrated_row_sum K s psx i Hv Hs Hi). }
  rewrite Hrows. cbn [negb].
  pose proof (calibrated_total Hv Hs) as Hct.
  unfold calibrated_table in Hct. cbv zeta in Hct. fold P L total in Hct.
  change (rint ?q) with (Qrint q).
  rewrite (Qrint_inject Hct), Z.eqb_refl. reflexivity.
Qed.

Lemma Forall2_map_pointwise {A B C} (R : B -> C -> Prop) (f : A -> B) (g : A -> C)
  (l : list A) :
  (forall x, In x l -> R (f x) (g x)) -> Forall2 R (map f l) (map g l).
Proof.
  induction l as [|x l IH]; intros HR; cbn [map]; constructor.
  - apply HR. now left.
  - apply IH. intros y Hy. apply HR. now right.
Qed.

(** ** C1: the marginals of the calibrated joint *)

(** C1.  For labels in [0, K) in which every class occurs and an N x K
    probability matrix, [calibrate_confident_joint] returns a matrix (the
    asserts pass) whose row sums round to [bincount(labels)] and whose total
    rounds to [len(labels)]; in exact arithmetic the row sums and the total
    are these integers. *)
Theorem calibrate_confident_joint_marginals :
  forall (K : nat) (s : list Z) (psx : matrix Q) (J : list (list Z)),
    valid_labels K s -> shape_ok K s psx ->
    exists (counts : list Z) (M : matrix Q),
      bincount s = Ok counts /\
      calibrate_confident_joint J s psx = Ok M /\
      map rint (row_sums M) = counts /\
      rint (np_sum2 M) = Z.of_nat (length s) /\
      Forall2 Qeq (row_sums M) (map inject_Z counts) /\
      np_sum2 M == inject_Z (Z.of_nat (length s)).
Proof.
  intros K s psx J Hv Hs.
  exists (class_counts K s), (calibrated_table K s psx).
  assert (Hrow : forall i, In i (zrange (Z.of_nat K)) ->
            np_sum (map (fun j =>
                 rescaled_entry K s (confident_pairs (mean_thresholds K s psx) s psx) i j
                 / np_sum2 (tabulate
                              (rescaled_entry K s
                                 (confident_pairs (mean_thresholds K s psx) s psx))
                              (zrange (Z.of_nat K)) (zrange (Z.of_nat K)))
                 * inject_Z (Z.of_nat (length s)))
              (zrange (Z.of_nat K))) == inject_Z (count_eq i s)).
  { intros i Hi. apply zrange_In in Hi. now apply calibrated_row_sum. }
  split; [exact (bincount_valid Hv)|].
  split; [exact (calibrate_confident_joint_valid J Hv Hs)|].
  split; [|split; [|split]].
  - unfold calibrated_table. cbv zeta. rewrite row_sums_tabulate, map_map.
    unfold class_counts. apply map_ext_in. intros i Hi.
    apply Qrint_inject. now apply Hrow.
  - apply Qrint_inject. now apply calibrated_total.
  - unfold calibrated_table. cbv zeta. rewrite row_sums_tabulate.
    unfold class_counts. rewrite map_map.
    apply Forall2_map_pointwise. exact Hrow.
  - now apply calibrated_total.
Qed.

Lemma calibrate_confident_joint_marginals_witness :
  valid_labels 2 [0; 0; 1; 1]%Z /\
  shape_ok 2 [0; 0; 1; 1]%Z [[9 # 10; 1 # 10]; [3 # 10; 7 # 10]; [1 # 10; 9 # 10]; [4 # 10; 6 # 10]] /\
  exists (counts : list Z) (M : matrix Q),
    bincount [0; 0; 1; 1]%Z = Ok counts /\
    calibrate_confident_joint []
      [0; 0; 1; 1]%Z [[9 # 10; 1 # 10]; [3 # 10; 7 # 10]; [1 # 10; 9 # 10]; [4 # 10; 6 # 10]]
      = Ok M /\
    map rint (row_sums M) = counts /\
    rint (np_sum2 M) = Z.of_nat (length [0; 0; 1; 1]%Z) /\
    Forall2 Qeq (row_sums M) (map inject_Z counts) /\
    np_sum2 M == inject_Z (Z.of_nat (length [0; 0; 1; 1]%Z)).
Proof.
  assert (Hv : valid_labels 2 [0; 0; 1; 1]%Z).
  { split; [lia|]. split.
    - repeat constructor; lia.
    - intros k Hk. assert (Hc : k = 0%Z \/ k = 1%Z) by lia.
      destruct Hc as [-> | ->]; simpl; auto. }
  assert (Hs : shape_ok 2 [0; 0; 1; 1]%Z
                 [[9 # 10; 1 # 10]; [3 # 10; 7 # 10]; [1 # 10; 9 # 10]; [4 # 10; 6 # 10]]).
  { split; [reflexivity|]. repeat constructor. }
  split; [exact Hv|]. split; [exact Hs|].
  exact (calibrate_confident_joint_marginals [] Hv Hs).
Defined.

(** ** The heap *)

Lemma heap_set_length {T} (h : heap T) (r : nat) (a : list (option T)) :
  length (heap_set h r a) = length h.
Proof.
  revert r. induction h as [|x h IH]; intros r; [reflexivity|].
  destruct r; simpl; [reflexivity|]. now rewrite IH.
Qed.

Lemma heap_get_set_same {T} (h : heap T) (r : nat) (a : list (option T)) :
  (r < length h)%nat -> heap_get (heap_set h r a) r = a.
Proof.
  unfold heap_get. revert r. induction h as [|x h IH]; intros r Hr; simpl in Hr; [lia|].
  destruct r; simpl; [reflexivity|]. apply IH. lia.
Qed.


Lemma heap_set_set {T} (h : heap T) (r : nat) (a b : list (option T)) :
  heap_set (heap_set h r a) r b = heap_set h r b.
Proof.
  revert r. induction h as [|x h IH]; intros r; [reflexivity|].
  destruct r; simpl; [reflexivity|]. now rewrite IH.
Qed.

Lemma heap_set_get {T} (h : heap T) (r : nat) : heap_set h r (heap_get h r) = h.
Proof.
  unfold heap_get. revert r. induction h as [|x h IH]; intros r; [reflexivity|].
  destruct r; simpl; [reflexivity|]. now rewrite IH.
Qed.

(** ** The loop of [estimate_confident_joint_from_probabilities] *)

Lemma last_joint_cons {T} (previous : option (matrix T)) (m : matrix T)
  (ms : list (matrix T)) :
  last_joint previous (m :: ms) = last_joint (Some m) ms.
Proof.
  unfold last_joint. simpl rev. destruct (rev ms); reflexivity.
Qed.

(** With adaptation enabled the loop is [fuel] adaptive passes on the array
    at [thresholds], which receives the thresholds of the last pass. *)
Lemma sgd_loop_adaptive {T} `{Num T} (s : list Z) (psx : matrix T) (K : Z)
  (ps : list T) (force_ps : force_ps_arg) (thresholds : nat) :
  truthy force_ps = true ->
  forall (fuel : nat) (h : heap T) (cjs : list (matrix T)) (last : option (matrix T)),
    (thresholds < length h)%nat ->
    match adaptive_passes fuel s psx K ps (heap_get h thresholds) with
    | Ok res =>
        sgd_loop s psx K ps force_ps thresholds fuel h cjs last
        = (heap_set h thresholds (snd res),
           Ok (cjs ++ fst res, last_joint last (fst res)))
    | Raise e =>
        snd (sgd_loop s psx K ps force_ps thresholds fuel h cjs last) = Raise e
    end.
Proof.
  intros Htruthy. induction fuel as [|fuel IH]; intros h cjs last Hr.
  - simpl. now rewrite heap_set_get, app_nil_r.
  - cbn [adaptive_passes sgd_loop]. unfold adaptive_pass, plain_pass.
    destruct (compute_confident_joint s psx (Some K) (Some (heap_get h thresholds)))
      as [raw|e]; cbn [bind]; [|reflexivity].
    destruct (calibrate_confident_joint raw s psx) as [calibrated|e];
      cbn [bind]; [|reflexivity].
    rewrite Htruthy. unfold joint_marginal.
    destruct (mapM (fun x => div_guard x (np_sum2 calibrated)) (row_sums calibrated))
      as [marginal|e]; cbn [bind]; [|reflexivity].
    destruct (updated_thresholds (heap_get h thresholds) marginal ps) as [t|e];
      cbn [bind fst snd]; [|reflexivity].
    specialize (IH (heap_set h thresholds t) (cjs ++ [calibrated]) (Some calibrated)).
    rewrite heap_set_length in IH. specialize (IH Hr).
    rewrite heap_get_set_same in IH by exact Hr.
    destruct (adaptive_passes fuel s psx K ps t) as [[ms t']|e]; cbn [bind fst snd] in *.
    + rewrite IH, heap_set_set, <- app_assoc, last_joint_cons. reflexivity.
    + exact IH.
Qed.



Lemma adaptive_passes_length {T} `{Num T} (n : nat) (s : list Z) (psx : matrix T)
  (K : Z) (ps : list T) (thresholds : list (option T))
  (res : list (matrix T) * list (option T)) :
  adaptive_passes n s psx K ps thresholds = Ok res -> length (fst res) = n.
Proof.
  revert thresholds res. induction n as [|n IH]; intros thresholds res Hres.
  - injection Hres as <-. reflexivity.
  - cbn [adaptive_passes] in Hres.
    destruct (adaptive_pass s psx K ps thresholds) as [r|e]; [|discriminate].
    cbn [bind] in Hres.
    destruct (adaptive_passes n s psx K ps (snd r)) as [rest|e] eqn:Hrest;
      [|discriminate].
    cbn [bind] in Hres. injection Hres as <-. cbn [fst length].
    now rewrite (IH _ _ Hrest).
Qed.

Lemma all_passes_length {T} `{Num T} (force_ps : force_ps_arg) (s : list Z)
  (psx : matrix T) (K : Z) (ps : list T) (thresholds : list (option T))
  (res : list (matrix T) * list (option T)) :
  all_passes force_ps s psx K ps thresholds = Ok res ->
  length (fst res) = passes force_ps.
Proof.
  destruct force_ps as [[|]|n]; cbn [all_passes].
  - apply adaptive_passes_length.
  - destruct (plain_pass s psx K thresholds); [|discriminate].
    cbn [bind]. intros Hres. injection Hres as <-. reflexivity.
  - apply adaptive_passes_length.
Qed.

(** The whole loop, for every [force_ps]. *)
Lemma sgd_loop_all_passes {T} `{Num T} (s : list Z) (psx : matrix T) (K : Z)
  (ps : list T) (force_ps : force_ps_arg) (thresholds : nat) (h : heap T) :
  (thresholds < length h)%nat ->
  match all_passes force_ps s psx K ps (heap_get h thresholds) with
  | Ok res =>
      sgd_loop s psx K ps force_ps thresholds (Z.to_nat (sgd_epochs force_ps)) h [] None
      = (heap_set h thresholds (snd res), Ok (fst res, last_joint None (fst res)))
  | Raise e =>
      snd (sgd_loop s psx K ps force_ps thresholds (Z.to_nat (sgd_epochs force_ps))
                    h [] None) = Raise e
  end.
Proof.
  intros Hr. destruct force_ps as [[|]|n].
  - exact (@sgd_loop_adaptive _ _ s psx K ps (ForceBool true) thresholds eq_refl
             5 h [] None Hr).
  - cbn [all_passes sgd_epochs]. change (Z.to_nat 1) with 1%nat. cbn [sgd_loop].
    unfold plain_pass.
    destruct (confident_joint <- compute_confident_joint s psx (Some K)
                                   (Some (heap_get h thresholds)) ;;
              calibrate_confident_joint confident_joint s psx) as [cj|e];
      cbn [bind truthy fst snd]; [|reflexivity].
    now rewrite heap_set_get.
  - cbn [all_passes sgd_epochs passes].
    destruct (Z.eq_dec n 0) as [->|Hn].
    + simpl. now rewrite heap_set_get.
    + apply (@sgd_loop_adaptive _ _ s psx K ps (ForceInt n) thresholds); [|exact Hr].
      cbn [truthy]. apply negb_true_iff. now apply Z.eqb_neq.
Qed.

Lemma thresholds_array_owned {T} `{Num T} (h h0 : heap T) (s : list Z)
  (psx : matrix T) (thresholds : thresholds_arg T) (r : nat) :
  owned h thresholds -> thresholds_array h s psx thresholds = Ok (h0, r) ->
  (r < length h0)%nat.
Proof.
  destruct thresholds as [|l|r0]; cbn [owned thresholds_array]; intros Ho Ha.
  - destruct (default_thresholds s psx _); [|discriminate].
    cbn [bind] in Ha. injection Ha as <- <-. rewrite length_app. simpl. lia.
  - injection Ha as <- <-. rewrite length_app. simpl. lia.
  - injection Ha as <- <-. exact Ho.
Qed.

(** The call: the empirical marginal, the array of thresholds, the passes. *)
Lemma estimate_confident_joint_from_probabilities_run {T} `{Num T}
  (h h0 : heap T) (s : list Z) (psx : matrix T) (thresholds : thresholds_arg T)
  (force_ps : force_ps_arg) (return_list : bool) (ps : list T) (r : nat) :
  owned h thresholds ->
  empirical_marginal s = Ok ps ->
  thresholds_array h s psx thresholds = Ok (h0, r) ->
  match all_passes force_ps s psx (Z.of_nat (length (unique s))) ps (heap_get h0 r) with
  | Ok res =>
      estimate_confident_joint_from_probabilities h s psx thresholds force_ps return_list
      = (heap_set h0 r (snd res),
         if return_list then Ok (JointList (fst res))
         else match last_joint None (fst res) with
              | Some confident_joint => Ok (Joint confident_joint)
              | None => Raise UnboundLocalError
              end)
  | Raise e =>
      snd (estimate_confident_joint_from_probabilities h s psx thresholds force_ps
             return_list) = Raise e
  end.
Proof.
  intros Ho Hps Ha.
  pose proof (@thresholds_array_owned _ _ h h0 s psx thresholds r Ho Ha) as Hr.
  unfold estimate_confident_joint_from_probabilities.
  unfold empirical_marginal in Hps. rewrite Hps.
  assert (Has : match (match thresholds with
                       | NoThresholds =>
                           t <- default_thresholds s psx (Z.of_nat (length (unique s))) ;;
                           Ok (inl t)
                       | ThresholdList l => Ok (inl l)
                       | ThresholdArray r => Ok (inr r)
                       end) with
                | Ok a => asarray h a = (h0, r)
                | Raise _ => False
                end).
  { destruct thresholds as [|l|r0]; cbn [thresholds_array] in Ha.
    - destruct (default_thresholds s psx _); [|discriminate].
      cbn [bind] in *. injection Ha as <- <-. reflexivity.
    - injection Ha as <- <-. reflexivity.
    - injection Ha as <- <-. reflexivity. }
  destruct (match thresholds with
            | NoThresholds => _
            | ThresholdList l => _
            | ThresholdArray r => _
            end) as [a|e]; [|contradiction].
  rewrite Has.
  pose proof (@sgd_loop_all_passes _ _ s psx (Z.of_nat (length (unique s))) ps
                force_ps r h0 Hr) as Hloop.
  destruct (all_passes force_ps s psx _ ps (heap_get h0 r)) as [res|e].
  - rewrite Hloop. cbn [bind fst snd]. reflexivity.
  - destruct (sgd_loop s psx _ ps force_ps r _ h0 [] None) as [h1 out].
    cbn [snd] in *. now rewrite Hloop.
Qed.

Lemma combine_map_r {A B C} (f : B -> C) (l : list A) (l' : list B) :
  combine l (map f l') = map (fun p => (fst p, f (snd p))) (combine l l').
Proof.
  revert l'. induction l as [|x l IH]; intros [|y l']; simpl; try reflexivity.
  now rewrite IH.
Qed.

(** The update on arrays of one shape:
    [thresholds[k] + 0.5 * (joint_ps[k] - ps[k])]; a NaN stays a NaN. *)
Lemma updated_thresholds_same_shape {T} `{Num T} (thresholds : list (option T))
  (joint_ps ps : list T) :
  length joint_ps = length ps -> length thresholds = length ps ->
  updated_thresholds thresholds joint_ps ps
  = Ok (map (fun x => option_map
                        (fun t => add t (mul eta (sub (fst (snd x)) (snd (snd x)))))
                        (fst x))
            (combine thresholds (combine joint_ps ps))).
Proof.
  intros Hj Ht. unfold updated_thresholds.
  rewrite (bcast2_same sub joint_ps ps Hj). cbn [bind].
  assert (Hl : length (map (mul eta)
                         (map (fun p => sub (fst p) (snd p)) (combine joint_ps ps)))
               = length thresholds).
  { rewrite !length_map, length_combine. lia. }
  rewrite Hl, Nat.eqb_refl. cbn [orb].
  rewrite bcast2_same by (now rewrite Hl).
  rewrite map_map, combine_map_r, map_map. reflexivity.
Qed.



(** ** The passes of the adaptive-threshold loop *)

(** The loop as a sequence of passes.  A call of
    [estimate_confident_joint_from_probabilities] runs [all_passes]: 5 passes for [force_ps=True], [n] passes for an integer
    [n], one pass and no threshold update for [force_ps=False].  A pass with
    adaptation recomputes the confident joint with the current thresholds,
    calibrates, and adds to each threshold 0.5 times the difference between
    the normalised row sum of the calibrated joint and the empirical
    frequency of the label; nothing tests for convergence, and the passes
    stop early only by an exception.  The joints of the passes are returned
    in order and the array of thresholds holds the thresholds of the last
    pass. *)
Theorem estimate_confident_joint_from_probabilities_passes :
  forall (T : Type) (N : Num T) (h h0 : heap T) (s : list Z) (psx : matrix T)
         (thresholds : thresholds_arg T) (force_ps : force_ps_arg)
         (ps : list T) (r : nat),
    owned h thresholds ->
    empirical_marginal s = Ok ps ->
    thresholds_array h s psx thresholds = Ok (h0, r) ->
    match all_passes force_ps s psx (Z.of_nat (length (unique s))) ps (heap_get h0 r) with
    | Ok res =>
        estimate_confident_joint_from_probabilities h s psx thresholds force_ps true
        = (heap_set h0 r (snd res), Ok (JointList (fst res))) /\
        length (fst res) = passes force_ps /\
        (force_ps = ForceBool false -> snd res = heap_get h0 r)
    | Raise e =>
        snd (estimate_confident_joint_from_probabilities h s psx thresholds force_ps true)
        = Raise e
    end /\
    (forall (t : list (option T)) (joint_ps : list T),
        length joint_ps = length ps -> length t = length ps ->
        updated_thresholds t joint_ps ps
        = Ok (map (fun x => option_map
                              (fun t => add t (mul eta (sub (fst (snd x)) (snd (snd x)))))
                              (fst x))
                  (combine t (combine joint_ps ps)))) /\
    passes (ForceBool true) = 5%nat /\
    passes (ForceBool false) = 1%nat /\
    (forall n, passes (ForceInt n) = Z.to_nat n).
Proof.
  intros T N h h0 s psx thresholds force_ps ps r Ho Hps Ha.
  split; [|split; [|repeat split]].
  - pose proof (@estimate_confident_joint_from_probabilities_run _ _ h h0 s psx
                  thresholds force_ps true ps r Ho Hps Ha) as Hrun.
    destruct (all_passes force_ps s psx _ ps (heap_get h0 r)) as [res|e] eqn:Hall;
      [|exact Hrun].
    split; [exact Hrun|]. split; [exact (all_passes_length _ _ _ _ _ _ Hall)|].
    intros ->. cbn [all_passes] in Hall.
    destruct (plain_pass s psx _ (heap_get h0 r)); [|discriminate].
    cbn [bind] in Hall. now injection Hall as <-.
  - intros t joint_ps Hj Ht. now apply updated_thresholds_same_shape.
Qed.

Lemma estimate_confident_joint_from_probabilities_passes_witness :
  match all_passes (ForceBool true) [0; 0; 1; 1]%Z
          [[9 # 10; 1 # 10]; [3 # 10; 7 # 10]; [1 # 10; 9 # 10]; [4 # 10; 6 # 10]]
          (Z.of_nat (length (unique [0; 0; 1; 1]%Z))) [2 # 4; 2 # 4]
          (heap_get [[Some (1 # 2); Some (1 # 2)]] 0) with
  | Ok res =>
      estimate_confident_joint_from_probabilities
        [[Some (1 # 2); Some (1 # 2)]] [0; 0; 1; 1]%Z
        [[9 # 10; 1 # 10]; [3 # 10; 7 # 10]; [1 # 10; 9 # 10]; [4 # 10; 6 # 10]]
        (ThresholdArray 0) (ForceBool true) true
      = (heap_set [[Some (1 # 2); Some (1 # 2)]] 0 (snd res), Ok (JointList (fst res))) /\
      length (fst res) = 5%nat
  | Raise e => False
  end.
Proof.
  pose proof (@estimate_confident_joint_from_probabilities_passes Q Num_Q
                [[Some (1 # 2); Some (1 # 2)]] [[Some (1 # 2); Some (1 # 2)]]
                [0; 0; 1; 1]%Z
                [[9 # 10; 1 # 10]; [3 # 10; 7 # 10]; [1 # 10; 9 # 10]; [4 # 10; 6 # 10]]
                (ThresholdArray 0) (ForceBool true) [2 # 4; 2 # 4] 0%nat
                ltac:(simpl; lia) eq_refl eq_refl) as [Hrun _].
  destruct (all_passes (ForceBool true) [0; 0; 1; 1]%Z _ _ [2 # 4; 2 # 4] _) as [res|e] eqn:E.
  - destruct Hrun as [Hrun [Hlen _]]. split; [exact Hrun|exact Hlen].
  - vm_compute in E. discriminate E.
Defined.

(** The step of a pass with adaptation, in exact arithmetic: each threshold
    moves by one half of the difference between the marginal of the joint
    and the frequency of the label. *)
Lemma updated_thresholds_half (t : list (option Q)) (joint_ps ps : list Q) :
  length joint_ps = length ps -> length t = length ps ->
  updated_thresholds t joint_ps ps
  = Ok (map (fun x => option_map
                        (fun t => t + (1 # 2) * (fst (snd x) - snd (snd x)))
                        (fst x))
            (combine t (combine joint_ps ps))).
Proof.
  intros Hj Ht. rewrite (@updated_thresholds_same_shape Q Num_Q t joint_ps ps Hj Ht).
  reflexivity.
Qed.

(** ** C5: what a pass calibrates *)

(** C5, the code at labels [0, 0, 1, 1], probabilities [[0.875, 0.125],
    [0.25, 0.75], [0.125, 0.875], [0.5, 0.5]] and thresholds
    [0.9375, 0.375], in binary64.  With these thresholds the recomputed
    joint is [[0, 1], [0, 2]], whose calibration is [[0, 2], [0, 2]]; with
    [force_ps=True] the five passes each return [[1, 1], [0, 2]], the
    calibration of the joint of the default thresholds, [[1, 1], [0, 1]],
    and leave the thresholds as they were.  Thresholds [0, 0], with the
    joint [[1, 1], [1, 1]], and no thresholds give the same joint in every
    pass: the joint of the current thresholds is computed and dropped. *)
Theorem adaptive_pass_discards_current_joint :
  let s := [0; 0; 1; 1]%Z in
  let psx := [[0.875; 0.125]; [0.25; 0.75]; [0.125; 0.875]; [0.5; 0.5]]%float in
  let thresholds := [Some 0.9375; Some 0.375]%float in
  let returned := [[1; 1]; [0; 2]]%float in
  compute_confident_joint s psx (Some 2%Z) (Some thresholds) = Ok [[0; 1]; [0; 2]]%Z /\
  calibration_of [[0; 1]; [0; 2]]%Z s = [[0; 2]; [0; 2]]%float /\
  estimate_confident_joint_from_probabilities
    [] s psx (ThresholdList thresholds) (ForceBool true) true
  = ([thresholds], Ok (JointList (repeat returned 5))) /\
  compute_confident_joint s psx None None = Ok [[1; 1]; [0; 1]]%Z /\
  calibration_of [[1; 1]; [0; 1]]%Z s = returned /\
  compute_confident_joint s psx (Some 2%Z) (Some [Some 0; Some 0]%float)
  = Ok [[1; 1]; [1; 1]]%Z /\
  calibration_of [[1; 1]; [1; 1]]%Z s = [[1; 1]; [1; 1]]%float /\
  snd (estimate_confident_joint_from_probabilities
         [] s psx (ThresholdList [Some 0; Some 0]%float) (ForceBool true) true)
  = Ok (JointList (repeat returned 5)) /\
  snd (estimate_confident_joint_from_probabilities
         [] s psx NoThresholds (ForceBool true) true)
  = Ok (JointList (repeat returned 5)).
Proof. repeat split; vm_compute; reflexivity. Qed.

(** *** On valid data every pass succeeds, in exact arithmetic *)

Lemma empirical_marginal_valid (K : nat) (s : list Z) :
  valid_labels K s ->
  empirical_marginal s
  = Ok (map (fun k => inject_Z (count_eq k s) / inject_Z (Z.of_nat (length s)))
            (zrange (Z.of_nat K))).
Proof.
  intros Hv. unfold empirical_marginal, value_counts.
  rewrite (@unique_eq_zrange (Z.of_nat K) s (valid_labels_In Hv)).
  rewrite <- (map_map (fun k => count_eq k s)
                      (fun c => inject_Z c / inject_Z (Z.of_nat (length s)))).
  apply mapM_pure. intros c _. unfold div_guard.
  change (is_zero (of_Z ?z)) with (Qeq_bool (inject_Z z) 0).
  rewrite inject_Z_nonzero; [reflexivity|].
  pose proof (valid_labels_length Hv). lia.
Qed.

Lemma plain_pass_valid (K : nat) (s : list Z) (psx : matrix Q)
  (thresholds : list (option Q)) :
  valid_labels K s -> shape_ok K s psx -> length thresholds = K ->
  plain_pass s psx (Z.of_nat K) thresholds = Ok (calibrated_table K s psx).
Proof.
  intros Hv Hs Ht. unfold plain_pass.
  rewrite (@compute_confident_joint_given _ _ K s psx (Some (Z.of_nat K)) thresholds
             (proj1 Hv) Hs Ht).
  cbn [bind]. now apply calibrate_confident_joint_valid.
Qed.

Lemma adaptive_pass_valid (K : nat) (s : list Z) (psx : matrix Q) (ps : list Q)
  (thresholds : list (option Q)) :
  valid_labels K s -> shape_ok K s psx -> length thresholds = K ->
  empirical_marginal s = Ok ps ->
  exists thresholds',
    adaptive_pass s psx (Z.of_nat K) ps thresholds
    = Ok (calibrated_table K s psx, thresholds') /\
    length thresholds' = K.
Proof.
  intros Hv Hs Ht Hps. unfold adaptive_pass.
  rewrite (@plain_pass_valid K s psx thresholds Hv Hs Ht). cbn [bind].
  rewrite (@empirical_marginal_valid K s Hv) in Hps. injection Hps as <-.
  assert (Hz : is_zero (np_sum2 (calibrated_table K s psx)) = false).
  { apply (@Qeq_bool_nonzero _ _ (@calibrated_total K s psx Hv Hs)).
    pose proof (valid_labels_length Hv). lia. }
  unfold joint_marginal.
  rewrite (mapM_pure _ (fun x => x / np_sum2 (calibrated_table K s psx))).
  2:{ intros x _. unfold div_guard. now rewrite Hz. }
  cbn [bind].
  assert (Hrs : length (row_sums (calibrated_table K s psx)) = K).
  { unfold calibrated_table, row_sums, tabulate. cbv zeta.
    rewrite !length_map, length_zrange. lia. }
  rewrite updated_thresholds_same_shape.
  - cbn [bind]. eexists. split; [reflexivity|].
    rewrite length_map, !length_combine, !length_map, length_zrange, Hrs, Ht. lia.
  - rewrite !length_map, length_zrange, Hrs. lia.
  - rewrite length_map, length_zrange. lia.
Qed.

Lemma adaptive_passes_valid (K : nat) (s : list Z) (psx : matrix Q) (ps : list Q)
  (n : nat) (thresholds : list (option Q)) :
  valid_labels K s -> shape_ok K s psx -> length thresholds = K ->
  empirical_marginal s = Ok ps ->
  exists thresholds',
    adaptive_passes n s psx (Z.of_nat K) ps thresholds
    = Ok (repeat (calibrated_table K s psx) n, thresholds') /\
    length thresholds' = K.
Proof.
  intros Hv Hs Ht Hps. revert thresholds Ht.
  induction n as [|n IH]; intros thresholds Ht.
  - exists thresholds. split; [reflexivity|exact Ht].
  - destruct (@adaptive_pass_valid K s psx ps thresholds Hv Hs Ht Hps) as [t1 [H1 Hl1]].
    destruct (IH t1 Hl1) as [t2 [H2 Hl2]].
    exists t2. split; [|exact Hl2].
    cbn [adaptive_passes]. rewrite H1. cbn [bind fst snd]. rewrite H2. reflexivity.
Qed.

(** On valid data, in exact arithmetic, all the passes of a call run and
    each returns the same calibrated joint, whatever the thresholds. *)
Lemma all_passes_valid (K : nat) (s : list Z) (psx : matrix Q) (ps : list Q)
  (force_ps : force_ps_arg) (thresholds : list (option Q)) :
  valid_labels K s -> shape_ok K s psx -> length thresholds = K ->
  empirical_marginal s = Ok ps ->
  exists thresholds',
    all_passes force_ps s psx (Z.of_nat K) ps thresholds
    = Ok (repeat (calibrated_table K s psx) (passes force_ps), thresholds') /\
    length thresholds' = K.
Proof.
  intros Hv Hs Ht Hps. destruct force_ps as [[|]|n]; cbn [all_passes].
  - now apply adaptive_passes_valid.
  - rewrite (@plain_pass_valid K s psx thresholds Hv Hs Ht). cbn [bind].
    exists thresholds. now split.
  - now apply adaptive_passes_valid.
Qed.

(** ** C9: what a call leaves in the caller's arrays *)




(** ** C7: noiseless, perfectly confident probabilities *)

Lemma combine_map_self {A B} (f : A -> B) (l : list A) :
  combine l (map f l) = map (fun x => (x, f x)) l.
Proof. induction l as [|x l IH]; simpl; [reflexivity|now rewrite IH]. Qed.

Lemma filter_map_comm {A B} (f : A -> B) (p : B -> bool) (l : list A) :
  filter p (map f l) = map f (filter (fun x => p (f x)) l).
Proof.
  induction l as [|x l IH]; simpl; [reflexivity|].
  destruct (p (f x)); simpl; now rewrite IH.
Qed.

Lemma filter_all {A} (p : A -> bool) (l : list A) :
  (forall x, In x l -> p x = true) -> filter p l = l.
Proof.
  induction l as [|x l IH]; intros Hp; simpl; [reflexivity|].
  rewrite (Hp x) by now left. f_equal. apply IH. intros y Hy. apply Hp. now right.
Qed.

Lemma one_hot_nth (K : nat) (l : Z) (k : nat) :
  (k < K)%nat -> nth k (one_hot K l) 0 = if (Z.of_nat k =? l)%Z then 1 else 0.
Proof.
  intros Hk. unfold one_hot, zrange. rewrite Nat2Z.id, map_map.
  rewrite (nth_indep _ 0 ((fun j => if (Z.of_nat j =? l)%Z then 1 else 0) 0%nat))
    by (rewrite length_map, length_seq; exact Hk).
  rewrite (map_nth (fun j => if (Z.of_nat j =? l)%Z then 1 else 0)).
  now rewrite seq_nth.
Qed.

Lemma one_hot_length (K : nat) (l : Z) : length (one_hot K l) = K.
Proof. unfold one_hot. rewrite length_map, length_zrange. lia. Qed.

Lemma np_sum_ones {A} (l : list A) :
  np_sum (map (fun _ => 1) l) == inject_Z (Z.of_nat (length l)).
Proof.
  induction l as [|x l IH]; [reflexivity|].
  simpl map. rewrite np_sum_cons, IH.
  replace (Z.of_nat (length (x :: l))) with (1 + Z.of_nat (length l))%Z
    by (simpl length; lia).
  rewrite inject_Z_plus. reflexivity.
Qed.

(** Every default threshold of one-hot data is 1. *)
Lemma one_hot_threshold (K : nat) (s : list Z) (k : nat) :
  valid_labels K s -> (k < K)%nat ->
  exists m, np_mean (selection s (map (one_hot K) s) k) = Some m /\ m == 1.
Proof.
  intros Hv Hk. unfold selection, examples.
  rewrite combine_map_self, filter_map_comm, map_map. cbn [fst snd].
  set (sel := filter (fun l => (l =? Z.of_nat k)%Z) s).
  assert (Hsel : map (fun l => nth k (one_hot K l) (of_Z 0)) sel = map (fun _ => 1) sel).
  { apply map_ext_in. intros l Hl. apply filter_In in Hl. destruct Hl as [_ Hl].
    apply Z.eqb_eq in Hl. change (of_Z 0) with 0.
    rewrite one_hot_nth by exact Hk. rewrite Hl, Z.eqb_refl. reflexivity. }
  rewrite Hsel.
  assert (Hne : sel <> []).
  { assert (Hin : In (Z.of_nat k) sel).
    { apply filter_In. split; [|apply Z.eqb_refl].
      apply (valid_labels_In Hv). lia. }
    intros E. rewrite E in Hin. destruct Hin. }
  destruct sel as [|l0 sel']; [contradiction|].
  eexists. split; [reflexivity|].
  change (np_sum (map (fun _ => 1) (l0 :: sel'))
          / inject_Z (Z.of_nat (length (map (fun _ : Z => 1) (l0 :: sel')))) == 1).
  rewrite np_sum_ones, length_map. field.
  intros Hz. unfold Qeq in Hz. simpl in Hz. lia.
Qed.

Lemma confident_bin_one (m : Q) :
  m == 1 -> confident_bin 1 (Some m) = true /\ confident_bin 0 (Some m) = false.
Proof.
  intros Hm. unfold confident_bin. split.
  - change (Qle_bool (m - tol) 1 = true). apply Qle_bool_iff. rewrite Hm.
    unfold Qle. simpl. lia.
  - change (Qle_bool (m - tol) 0 = false). apply not_true_is_false. intros Hb.
    apply Qle_bool_iff in Hb. rewrite Hm in Hb. unfold Qle in Hb. simpl in Hb. lia.
Qed.

Lemma indicator_row (l : Z) (len start c : nat) :
  (Z.of_nat start <= l < Z.of_nat (start + len))%Z ->
  num_true (map (fun j => (Z.of_nat j =? l)%Z) (seq start len)) = 1%nat /\
  first_true c (map (fun j => (Z.of_nat j =? l)%Z) (seq start len))
  = (c + (Z.to_nat l - start))%nat.
Proof.
  revert start c. induction len as [|len IH]; intros start c Hl; [lia|].
  cbn [seq map]. unfold num_true. cbn [filter first_true].
  destruct (Z.of_nat start =? l)%Z eqn:E.
  - apply Z.eqb_eq in E. split; [|lia]. cbn [length]. f_equal.
    assert (Hnone : forall len' start', (l < Z.of_nat start')%Z ->
              filter (fun b : bool => b)
                     (map (fun j => (Z.of_nat j =? l)%Z) (seq start' len')) = []).
    { clear. induction len' as [|len' IH']; intros start' Hlt; [reflexivity|].
      cbn [seq map filter]. destruct (Z.of_nat start' =? l)%Z eqn:E'.
      - apply Z.eqb_eq in E'. lia.
      - apply IH'. lia. }
    rewrite Hnone by lia. reflexivity.
  - apply Z.eqb_neq in E. destruct (IH (S start) (S c)) as [Hn Hf]; [lia|].
    split; [exact Hn|]. rewrite Hf. lia.
Qed.

(** On one-hot data every example is confident in its own label only. *)
Lemma one_hot_guess (K : nat) (s : list Z) (l : Z) :
  valid_labels K s -> (0 <= l < Z.of_nat K)%Z ->
  guess_of (mean_thresholds K s (map (one_hot K) s)) (one_hot K l) = (true, l).
Proof.
  intros Hv Hl.
  assert (Hlt : length (mean_thresholds K s (map (one_hot K) s)) = K).
  { unfold mean_thresholds. now rewrite length_map, length_seq. }
  assert (Hbins : bins_of (mean_thresholds K s (map (one_hot K) s)) (one_hot K l)
                  = map (fun j => (Z.of_nat j =? l)%Z) (seq 0 K)).
  { apply (nth_ext _ _ false false).
    - unfold bins_of. rewrite !length_map, length_combine, length_seq, one_hot_length.
      lia.
    - intros j Hj.
      assert (HjK : (j < K)%nat).
      { unfold bins_of in Hj.
        rewrite length_map, length_combine, one_hot_length in Hj. lia. }
      rewrite bins_of_nth by (rewrite one_hot_length; congruence).
      rewrite mean_thresholds_nth by exact HjK.
      destruct (@one_hot_threshold K s j Hv HjK) as [m [Hm Hm1]]. rewrite Hm.
      change (of_Z 0) with 0. rewrite one_hot_nth by exact HjK.
      rewrite (nth_indep _ false ((fun j => (Z.of_nat j =? l)%Z) 0%nat))
        by (rewrite length_map, length_seq; exact HjK).
      rewrite (map_nth (fun j => (Z.of_nat j =? l)%Z)), seq_nth by exact HjK.
      cbn [Nat.add].
      destruct (confident_bin_one Hm1) as [H1 H0].
      destruct (Z.of_nat j =? l)%Z; assumption. }
  unfold guess_of. cbv zeta. rewrite Hbins.
  destruct (@indicator_row l K 0 0) as [Hn Hf]; [lia|].
  rewrite Hn, Hf. cbn [Nat.ltb Nat.leb]. f_equal. lia.
Qed.

Lemma one_hot_confident_pairs (K : nat) (s : list Z) :
  valid_labels K s ->
  confident_pairs (mean_thresholds K s (map (one_hot K) s)) s (map (one_hot K) s)
  = map (fun l => (l, l)) s.
Proof.
  intros Hv. unfold confident_pairs, examples. rewrite combine_map_self.
  rewrite filter_all.
  - rewrite map_map. apply map_ext_in. intros l Hl. cbn [fst snd].
    rewrite one_hot_guess; [reflexivity|exact Hv|]. now apply (valid_labels_In Hv).
  - intros e He. apply in_map_iff in He. destruct He as [l [<- Hl]]. cbn [snd].
    rewrite one_hot_guess; [reflexivity|exact Hv|]. now apply (valid_labels_In Hv).
Qed.

Lemma pair_count_diagonal (s : list Z) (i j : Z) :
  pair_count (map (fun l => (l, l)) s) i j = if (i =? j)%Z then count_eq i s else 0%Z.
Proof.
  unfold pair_count, count_eq. rewrite filter_map_length. cbn [fst snd].
  destruct (i =? j)%Z eqn:E.
  - apply Z.eqb_eq in E. subst j. do 2 f_equal. apply filter_ext. intros l.
    rewrite andb_diag. apply Z.eqb_sym.
  - apply Z.eqb_neq in E. rewrite (filter_ext _ (fun _ => false)).
    + induction s; simpl; auto.
    + intros l. destruct (l =? i)%Z eqn:E1; [|reflexivity].
      destruct (l =? j)%Z eqn:E2; [|reflexivity].
      apply Z.eqb_eq in E1, E2. congruence.
Qed.

Lemma one_hot_shape (K : nat) (s : list Z) : shape_ok K s (map (one_hot K) s).
Proof.
  split; [apply length_map|]. apply Forall_map, Forall_forall.
  intros l _. apply one_hot_length.
Qed.

Lemma one_hot_confident_joint (K : nat) (s : list Z) :
  valid_labels K s ->
  compute_confident_joint s (map (one_hot K) s) None None = Ok (diagonal K s).
Proof.
  intros Hv.
  rewrite (compute_confident_joint_default_table Hv (one_hot_shape K s)).
  rewrite (one_hot_confident_pairs Hv). f_equal. unfold tabulate, diagonal.
  apply map_ext. intros i. apply map_ext. intros j. apply pair_count_diagonal.
Qed.

(** *** The number of label errors *)

Lemma num_label_errors_given {T} `{Num T} (labels : list Z) (psx cj : matrix T) :
  is_zero (np_sum2 cj) = false ->
  num_label_errors labels psx (Some cj) = Ok (error_count to_int labels cj).
Proof.
  intros Hz. unfold num_label_errors. cbn [bind].
  rewrite (mapM_pure _ (map (fun x => div x (np_sum2 cj)))).
  - reflexivity.
  - intros row _. apply mapM_pure. intros x _. unfold div_guard. now rewrite Hz.
Qed.

Lemma num_label_errors_computed {T} `{Num T} (labels : list Z) (psx cj : matrix T) :
  is_zero (np_sum2 cj) = false ->
  snd (estimate_confident_joint_from_probabilities
         [] labels psx NoThresholds (ForceBool false) false) = Ok (Joint cj) ->
  num_label_errors labels psx None = Ok (error_count to_int labels cj).
Proof.
  intros Hz Hest. rewrite <- (num_label_errors_given labels psx cj Hz).
  unfold num_label_errors. rewrite Hest. reflexivity.
Qed.

Lemma estimate_confident_joint_valid (K : nat) (s : list Z) (psx : matrix Q) :
  valid_labels K s -> shape_ok K s psx ->
  snd (estimate_confident_joint_from_probabilities
         [] s psx NoThresholds (ForceBool false) false)
  = Ok (Joint (calibrated_table K s psx)).
Proof.
  intros Hv Hs.
  assert (Ha : thresholds_array [] s psx NoThresholds
               = Ok ([mean_thresholds K s psx], 0%nat)).
  { cbn [thresholds_array]. rewrite (unique_valid_length Hv).
    now rewrite (default_thresholds_same_shape Hs). }
  pose proof (@estimate_confident_joint_from_probabilities_run _ _ [] _ s psx
                NoThresholds (ForceBool false) false _ 0%nat I
                (empirical_marginal_valid Hv) Ha) as Hrun.
  cbn [all_passes] in Hrun. rewrite (unique_valid_length Hv) in Hrun.
  rewrite (@plain_pass_valid K s psx _ Hv Hs) in Hrun.
  2:{ unfold heap_get. cbn [nth]. unfold mean_thresholds.
      now rewrite length_map, length_seq. }
  cbn [bind fst snd] in Hrun. rewrite Hrun. reflexivity.
Qed.

Lemma trace_tabulate {A} (f : A -> A -> Q) (L : list A) :
  trace (tabulate f L L) = np_sum (map (fun a => f a a) L).
Proof.
  unfold trace. destruct L as [|a0 L]; [reflexivity|].
  set (R := a0 :: L).
  assert (Hlen : Nat.min (length (tabulate f R R)) (length (hd [] (tabulate f R R)))
                 = length R).
  { unfold tabulate, R. cbn [map hd length]. rewrite !length_map. lia. }
  rewrite Hlen. f_equal.
  rewrite <- (map_seq_nth (fun a => f a a) R a0).
  apply map_ext_in. intros k Hk. apply in_seq in Hk.
  unfold tabulate.
  rewrite (nth_indep _ [] ((fun a => map (f a) R) a0)) by (rewrite length_map; lia).
  rewrite (map_nth (fun a => map (f a) R)).
  rewrite (nth_indep _ (of_Z 0) (f (nth k R a0) a0)) by (rewrite length_map; lia).
  apply (map_nth (f (nth k R a0))).
Qed.

Lemma zsum_map_scale {A} (c : Z) (f : A -> Z) (l : list A) :
  zsum (map (fun x => (c * f x)%Z) l) = (c * zsum (map f l))%Z.
Proof.
  induction l as [|x l IH]; [simpl; unfold zsum; simpl; lia|].
  simpl map. rewrite !zsum_cons, IH. lia.
Qed.

Lemma zsum_diagonal (K : nat) (i c : Z) :
  (0 <= i < Z.of_nat K)%Z ->
  zsum (map (fun j => if (i =? j)%Z then c else 0%Z) (zrange (Z.of_nat K))) = c.
Proof.
  intros Hi.
  rewrite (map_ext _ (fun j => (c * (if (j =? i)%Z then 1 else 0))%Z)).
  2:{ intros j. rewrite (Z.eqb_sym i j). destruct (j =? i)%Z; lia. }
  rewrite (zsum_map_scale c (fun j => if (j =? i)%Z then 1%Z else 0%Z)).
  unfold zrange. rewrite zsum_indicator.
  replace ((Z.of_nat 0 <=? i)%Z && (i <? Z.of_nat (0 + Z.to_nat (Z.of_nat K)))%Z)
    with true; [lia|].
  symmetry. apply andb_true_intro. split; [apply Z.leb_le|apply Z.ltb_lt]; lia.
Qed.

Lemma count_eq_pos (K : nat) (s : list Z) (i : Z) :
  valid_labels K s -> (0 <= i < Z.of_nat K)%Z -> (0 < count_eq i s)%Z.
Proof.
  intros Hv Hi. apply (valid_labels_In Hv) in Hi. unfold count_eq.
  assert (Hf : In i (filter (Z.eqb i) s)).
  { apply filter_In. split; [exact Hi|apply Z.eqb_refl]. }
  destruct (filter (Z.eqb i) s); [destruct Hf|]. simpl length. lia.
Qed.

(** The trace of the normalised calibrated joint of one-hot data is 1. *)
Lemma one_hot_trace (K : nat) (s : list Z) :
  valid_labels K s ->
  trace (map (map (fun x => x / np_sum2 (calibrated_table K s (map (one_hot K) s))))
             (calibrated_table K s (map (one_hot K) s))) == 1.
Proof.
  intros Hv. pose proof (one_hot_shape K s) as Hs.
  pose proof (calibrated_total Hv Hs) as Htot.
  pose proof (rescaled_total Hv Hs) as Htot'.
  pose proof (valid_labels_length Hv) as Hn.
  set (total := np_sum2 (calibrated_table K s (map (one_hot K) s))) in *.
  unfold calibrated_table. cbv zeta.
  rewrite (one_hot_confident_pairs Hv) in *.
  set (P := map (fun l => (l, l)) s) in *.
  set (L := zrange (Z.of_nat K)) in *.
  set (total' := np_sum2 (tabulate (rescaled_entry K s P) L L)) in *.
  replace (map (map (fun x => x / total))
               (tabulate (fun i j => rescaled_entry K s P i j / total'
                                     * inject_Z (Z.of_nat (length s))) L L))
    with (tabulate (fun i j => rescaled_entry K s P i j / total'
                               * inject_Z (Z.of_nat (length s)) / total) L L)
    by (unfold tabulate; rewrite map_map; apply map_ext; intros i;
        now rewrite map_map).
  rewrite trace_tabulate.
  rewrite (np_sum_map_ext _ (fun i => inject_Z (count_eq i s)
                                      * / inject_Z (Z.of_nat (length s)))).
  - rewrite (np_sum_map_scale (fun i => inject_Z (count_eq i s))).
    rewrite np_sum_map_inject.
    change (map (fun i => count_eq i s) L) with (class_counts K s).
    rewrite class_counts_total by exact (proj1 (proj2 Hv)).
    field. intros Hz. unfold Qeq in Hz. simpl in Hz. lia.
  - intros i Hi. apply zrange_In in Hi.
    pose proof (count_eq_pos Hv Hi) as Hpos.
    unfold rescaled_entry. fold L. unfold P.
    rewrite (map_ext _ _ (pair_count_diagonal s i)).
    rewrite pair_count_diagonal, Z.eqb_refl. unfold L.
    rewrite (@zsum_diagonal K i (count_eq i s) Hi).
    rewrite Htot, Htot'. field. split.
    + intros Hz. unfold Qeq in Hz. simpl in Hz. lia.
    + intros Hz. unfold Qeq in Hz. simpl in Hz. lia.
Qed.

(** C7.  For labels in [0, K) in which every class occurs and the
    probability matrix that gives each example probability 1 at its own
    label and 0 elsewhere, [compute_confident_joint] returns the diagonal
    matrix of the per-class counts and [num_label_errors] returns 0. *)
Theorem noiseless_labels_have_no_errors :
  forall (K : nat) (s : list Z),
    valid_labels K s ->
    compute_confident_joint s (map (one_hot K) s) None None = Ok (diagonal K s) /\
    num_label_errors s (map (one_hot K) s) None = Ok 0%Z.
Proof.
  intros K s Hv. pose proof (one_hot_shape K s) as Hs.
  split; [exact (one_hot_confident_joint Hv)|].
  rewrite (@num_label_errors_computed _ _ s (map (one_hot K) s)
             (calibrated_table K s (map (one_hot K) s))).
  - f_equal. unfold error_count. cbv zeta. apply Qtrunc_zero.
    change (to_int ?q) with (Qtrunc q).
    change ((1 - trace (map (map (fun x => x / np_sum2
                                   (calibrated_table K s (map (one_hot K) s))))
                            (calibrated_table K s (map (one_hot K) s))))
            * inject_Z (Z.of_nat (length s)) == 0).
    rewrite (one_hot_trace Hv). ring.
  - apply (@Qeq_bool_nonzero _ _ (calibrated_total Hv Hs)).
    pose proof (valid_labels_length Hv). lia.
  - exact (estimate_confident_joint_valid Hv Hs).
Qed.

Lemma noiseless_labels_have_no_errors_witness :
  valid_labels 2 [0; 1; 1]%Z /\
  compute_confident_joint [0; 1; 1]%Z (map (one_hot 2) [0; 1; 1]%Z) None None
    = Ok (diagonal 2 [0; 1; 1]%Z) /\
  num_label_errors [0; 1; 1]%Z (map (one_hot 2) [0; 1; 1]%Z) None = Ok 0%Z.
Proof.
  assert (Hv : valid_labels 2 [0; 1; 1]%Z).
  { split; [lia|]. split.
    - repeat constructor; lia.
    - intros k Hk. assert (Hc : k = 0%Z \/ k = 1%Z) by lia.
      destruct Hc as [-> | ->]; simpl; auto. }
  split; [exact Hv|].
  exact (noiseless_labels_have_no_errors Hv).
Defined.

(** ** C2, continued: [estimate_joint] raises for every K >= 2 *)

Lemma builtin_sum_array {T} `{Num T} (K : nat) (M : matrix T) (a : list T) :
  length a = K -> Forall (fun row => length row = K) M ->
  exists a', fold_left py_add M (Ok (Array1 a)) = Ok (Array1 a') /\ length a' = K.
Proof.
  intros Ha HM. revert a Ha. induction HM as [|row M Hrow HM IH]; intros a Ha.
  - exists a. now split.
  - cbn [fold_left py_add bind].
    rewrite bcast2_same by congruence. cbn [bind].
    apply IH. rewrite length_map, length_combine. lia.
Qed.

Lemma builtin_sum_rows {T} `{Num T} (K : nat) (M : matrix T) :
  M <> [] -> Forall (fun row => length row = K) M ->
  exists a, builtin_sum M = Ok (Array1 a) /\ length a = K.
Proof.
  intros Hne HM. destruct M as [|row M]; [contradiction|].
  inversion HM as [|? ? Hrow HM']; subst.
  unfold builtin_sum. cbn [fold_left py_add bind].
  apply builtin_sum_array; [now rewrite length_map|exact HM'].
Qed.

(** On valid data with two classes or more, in exact arithmetic,
    [estimate_joint] raises [TypeError]. *)
Lemma estimate_joint_raises_valid (K : nat) (s : list Z) (psx : matrix Q)
  (J : list (list Z)) :
  valid_labels K s -> shape_ok K s psx -> (2 <= K)%nat ->
  estimate_joint J s psx = Raise TypeError.
Proof.
  intros Hv Hs HK. unfold estimate_joint.
  rewrite (calibrate_confident_joint_valid J Hv Hs). cbn [bind].
  destruct (@builtin_sum_rows _ _ K (calibrated_table K s psx)) as [a [Ha Hl]].
  - unfold calibrated_table, tabulate. cbv zeta.
    pose proof (zrange_nonempty (proj1 Hv)) as HL.
    destruct (zrange (Z.of_nat K)); [contradiction|discriminate].
  - unfold calibrated_table, tabulate. cbv zeta. apply Forall_map, Forall_forall.
    intros i _. rewrite length_map, length_zrange. lia.
  - rewrite Ha. cbn [bind]. destruct a as [|x [|y a]]; simpl in Hl; try lia.
    reflexivity.
Qed.

(** * Further properties of the functions *)

Unset Implicit Arguments.

(** Inversion of one step of a computation that returned. *)
Ltac invert_step H x E :=
  match type of H with
  | bind ?c _ = Ok _ =>
      destruct c as [x|] eqn:E; cbn [bind] in H; [|discriminate H]
  end.

(** ** [calibrate_confident_joint]: what the asserts guarantee *)

(** Whatever the number type and the input, a matrix that
    [calibrate_confident_joint] returns has passed both asserts: its total
    rounds to the number of labels and its rounded row sums equal
    [bincount(s)], entry by entry (under NumPy's broadcasting). *)
Theorem calibrate_confident_joint_checked :
  forall (T : Type) (N : Num T) (J : list (list Z)) (s : list Z)
         (psx M : matrix T),
    calibrate_confident_joint J s psx = Ok M ->
    exists counts same,
      bincount s = Ok counts /\
      bcast2 Z.eqb (map rint (row_sums M)) counts = Ok same /\
      Forall (fun b => b = true) same /\
      (length M = length counts -> map rint (row_sums M) = counts) /\
      rint (np_sum2 M) = Z.of_nat (length s).
Proof.
  intros T N J s psx M HM. unfold calibrate_confident_joint in HM.
  invert_step HM counts Hcounts. invert_step HM cj Hcj.
  invert_step HM q1 Hq1. invert_step HM q2 Hq2. invert_step HM q3 Hq3.
  invert_step HM calibrated Hcal. invert_step HM same Hsame.
  destruct (forallb (fun b : bool => b) same) eqn:Hall; cbn [negb] in HM;
    [|discriminate HM].
  match type of HM with
  | (if negb ?c then _ else _) = _ => destruct c eqn:Htot
  end; cbn [negb] in HM; [|discriminate HM].
  injection HM as <-.
  exists counts, same.
  assert (Hforall : Forall (fun b => b = true) same).
  { apply Forall_forall. intros b Hb.
    rewrite forallb_forall in Hall. exact (Hall b Hb). }
  split; [reflexivity|]. split; [exact Hsame|]. split; [exact Hforall|]. split.
  - intros Hlen.
    assert (Hl : length (map rint (row_sums calibrated)) = length counts)
      by (unfold row_sums; rewrite !length_map; exact Hlen).
    rewrite (bcast2_same Z.eqb _ _ Hl) in Hsame. injection Hsame as <-.
    revert Hl Hforall. generalize (map rint (row_sums calibrated)).
    clear. induction counts as [|c cs IH]; intros [|x xs] Hl Hf; simpl in *;
      try discriminate; [reflexivity|].
    inversion Hf as [|? ? Hx Hxs]; subst. apply Z.eqb_eq in Hx. f_equal; [exact Hx|].
    apply IH; [lia|exact Hxs].
  - apply Z.eqb_eq in Htot. now symmetry.
Qed.

Lemma calibrate_confident_joint_checked_witness :
  exists counts same,
    bincount [0; 1; 1]%Z = Ok counts /\
    bcast2 Z.eqb (map rint (row_sums [[1; 0]; [0; 2]]%float)) counts = Ok same /\
    Forall (fun b => b = true) same /\
    (length [[1; 0]; [0; 2]]%float = length counts ->
     map rint (row_sums [[1; 0]; [0; 2]]%float) = counts) /\
    rint (np_sum2 [[1; 0]; [0; 2]]%float) = Z.of_nat (length [0; 1; 1]%Z).
Proof.
  apply (calibrate_confident_joint_checked float Num_float []
           [0; 1; 1]%Z [[1; 0]; [0; 1]; [0; 1]]%float).
  vm_compute. reflexivity.
Defined.

(** ** [compute_confident_joint]: shape and total of the result *)

Lemma mask_length {A} (a : list A) (m : list bool) (r : list A) :
  mask a m = Ok r -> length r = num_true m /\ length a = length m.
Proof.
  revert m r. induction a as [|x a IH]; intros [|b m] r Hr; simpl in Hr;
    try discriminate.
  - injection Hr as <-. now split.
  - destruct (mask a m) as [r'|e] eqn:E; [|discriminate]. cbn [bind] in Hr.
    injection Hr as <-. destruct (IH m r' E) as [Hl Hlen].
    unfold num_true in *. destruct b; simpl; split; lia.
Qed.

Lemma compute_confident_joint_inv {T} `{Num T} (s : list Z) (psx : matrix T)
  (K : option Z) (thresholds : list (option T)) (cj : list (list Z)) :
  compute_confident_joint s psx K (Some thresholds) = Ok cj ->
  exists rows y_confident s_confident,
    mapM (classify thresholds) psx = Ok rows /\
    mask (map snd rows) (map fst rows) = Ok y_confident /\
    mask s (map fst rows) = Ok s_confident /\
    cj = transpose 0%Z (confusion_matrix y_confident s_confident).
Proof.
  unfold compute_confident_joint. cbn [bind]. intros Hcj.
  invert_step Hcj rows Hrows. invert_step Hcj y Hy. invert_step Hcj s' Hs'.
  injection Hcj as <-. exists rows, y, s'. repeat split; assumption.
Qed.

Lemma transpose_tabulate_square {A C} (f : A -> A -> C) (L : list A) (d : C) :
  length (transpose d (tabulate f L L)) = length L /\
  Forall (fun row => length row = length L) (transpose d (tabulate f L L)).
Proof.
  destruct L as [|l0 L'].
  - split; [reflexivity|constructor].
  - rewrite transpose_tabulate by discriminate.
    unfold tabulate. rewrite length_map. split; [reflexivity|].
    apply Forall_map, Forall_forall. intros b _. now rewrite length_map.
Qed.

Lemma confusion_matrix_square (y_true y_pred : list Z) :
  length (transpose 0%Z (confusion_matrix y_true y_pred))
  = length (unique (y_true ++ y_pred)) /\
  Forall (fun row => length row = length (transpose 0%Z (confusion_matrix y_true y_pred)))
         (transpose 0%Z (confusion_matrix y_true y_pred)).
Proof.
  pose proof (transpose_tabulate_square
                (fun a b => Z.of_nat (length (filter (fun p => (fst p =? a)%Z && (snd p =? b)%Z)
                                                     (combine y_true y_pred))))
                (unique (y_true ++ y_pred)) 0%Z) as [Hl Hf].
  change (tabulate _ (unique (y_true ++ y_pred)) (unique (y_true ++ y_pred)))
    with (confusion_matrix y_true y_pred) in Hl, Hf.
  split; [exact Hl|]. now rewrite Hl.
Qed.

(** A call without thresholds is the call with the default ones. *)
Lemma compute_confident_joint_thresholds {T} `{Num T} (s : list Z) (psx : matrix T)
  (K : option Z) (thresholds : option (list (option T))) (cj : list (list Z)) :
  compute_confident_joint s psx K thresholds = Ok cj ->
  exists t, compute_confident_joint s psx K (Some t) = Ok cj.
Proof.
  destruct thresholds as [t|]; intros Hcj; [now exists t|].
  unfold compute_confident_joint in Hcj.
  invert_step Hcj t Ht. exists t. exact Hcj.
Qed.

(** The raw joint is square, whatever the input. *)
Theorem compute_confident_joint_square :
  forall (T : Type) (N : Num T) (s : list Z) (psx : matrix T) (K : option Z)
         (thresholds : option (list (option T))) (cj : list (list Z)),
    compute_confident_joint s psx K thresholds = Ok cj ->
    Forall (fun row => length row = length cj) cj.
Proof.
  intros T N s psx K thresholds cj Hcj.
  destruct (compute_confident_joint_thresholds _ _ _ _ _ Hcj) as [t Ht].
  destruct (compute_confident_joint_inv _ _ _ _ _ Ht) as [rows [y [s' [_ [_ [_ ->]]]]]].
  apply (confusion_matrix_square y s').
Qed.

Lemma compute_confident_joint_square_witness :
  Forall (fun row => length row = length [[1; 1]; [0; 2]]%Z) [[1; 1]; [0; 2]]%Z.
Proof.
  apply (compute_confident_joint_square Q Num_Q
           [0; 0; 1; 1]%Z
           [[9 # 10; 1 # 10]; [3 # 10; 7 # 10]; [1 # 10; 9 # 10]; [4 # 10; 6 # 10]]
           None (Some [Some (1 # 2); Some (1 # 2)])).
  vm_compute. reflexivity.
Defined.

Lemma zsum_map_zero {A} (l : list A) : zsum (map (fun _ => 0%Z) l) = 0%Z.
Proof.
  induction l as [|x l IH]; [reflexivity|]. simpl map. rewrite zsum_cons, IH. lia.
Qed.

Lemma zsum_map_pointwise {A} (f g : A -> Z) (l : list A) :
  (forall x, In x l -> f x = g x) -> zsum (map f l) = zsum (map g l).
Proof. intros Hfg. f_equal. now apply map_ext_in. Qed.

Lemma zsum_indicator_ascending (L : list Z) (x : Z) :
  ascending L ->
  zsum (map (fun a => if (x =? a)%Z then 1%Z else 0%Z) L)
  = if existsb (Z.eqb x) L then 1%Z else 0%Z.
Proof.
  induction L as [|a L IH]; intros Ha; [reflexivity|].
  destruct Ha as [Hlt Ha]. cbn [map existsb]. rewrite zsum_cons, (IH Ha).
  destruct (x =? a)%Z eqn:E; cbn [orb]; [|lia].
  apply Z.eqb_eq in E. subst a.
  destruct (existsb (Z.eqb x) L) eqn:Ex; [|reflexivity].
  apply existsb_exists in Ex. destruct Ex as [y [Hy Hxy]].
  apply Z.eqb_eq in Hxy. subst y. specialize (Hlt x Hy). lia.
Qed.

Lemma zsum_indicator_member (L : list Z) (x : Z) :
  ascending L -> In x L ->
  zsum (map (fun a => if (x =? a)%Z then 1%Z else 0%Z) L) = 1%Z.
Proof.
  intros Ha Hx. rewrite (zsum_indicator_ascending L x Ha).
  replace (existsb (Z.eqb x) L) with true; [reflexivity|].
  symmetry. apply existsb_exists. exists x. split; [exact Hx|apply Z.eqb_refl].
Qed.

(** A table of pair counts over labels that cover the pairs counts every
    pair once. *)
Lemma pair_table_total (L : list Z) (P : list (Z * Z)) :
  ascending L ->
  (forall p, In p P -> In (fst p) L /\ In (snd p) L) ->
  zsum (map zsum (tabulate (pair_count P) L L)) = Z.of_nat (length P).
Proof.
  intros Ha. unfold tabulate. rewrite map_map.
  induction P as [|p P IH]; intros HP.
  - unfold pair_count. simpl.
    rewrite (zsum_map_pointwise _ (fun _ => 0%Z)); [apply zsum_map_zero|].
    intros a _. apply zsum_map_zero.
  - destruct (HP p (or_introl eq_refl)) as [Hf Hs].
    rewrite (zsum_map_pointwise _
               (fun a => ((if (fst p =? a)%Z then 1 else 0)
                          + zsum (map (pair_count P a) L))%Z)).
    + rewrite (zsum_map_add (fun a => if (fst p =? a)%Z then 1%Z else 0%Z)
                            (fun a => zsum (map (pair_count P a) L))).
      rewrite IH by (intros q Hq; apply HP; now right).
      rewrite (zsum_indicator_member L (fst p) Ha Hf). simpl length. lia.
    + intros a _.
      rewrite (zsum_map_pointwise (pair_count (p :: P) a)
                 (fun b => ((if (fst p =? a)%Z && (snd p =? b)%Z then 1 else 0)
                            + pair_count P a b)%Z)).
      2:{ intros b _. unfold pair_count. cbn [filter].
          destruct ((fst p =? a)%Z && (snd p =? b)%Z); simpl length; lia. }
      rewrite (zsum_map_add
                 (fun b => if (fst p =? a)%Z && (snd p =? b)%Z then 1%Z else 0%Z)
                 (pair_count P a)).
      f_equal. destruct (fst p =? a)%Z; cbn [andb].
      * apply (zsum_indicator_member L (snd p) Ha Hs).
      * apply zsum_map_zero.
Qed.

Lemma zsum_swap {A B} (f : A -> B -> Z) (rows : list A) (cols : list B) :
  zsum (map (fun b => zsum (map (fun a => f a b) rows)) cols)
  = zsum (map (fun a => zsum (map (f a) cols)) rows).
Proof.
  induction cols as [|b cols IH].
  - simpl. symmetry. apply zsum_map_zero.
  - cbn [map]. rewrite zsum_cons, IH.
    rewrite (zsum_map_pointwise (fun a => zsum (f a b :: map (f a) cols))
                                (fun a => (f a b + zsum (map (f a) cols))%Z))
      by (intros a _; apply zsum_cons).
    now rewrite (zsum_map_add (fun a => f a b) (fun a => zsum (map (f a) cols))).
Qed.

Lemma confusion_matrix_total (y_true y_pred : list Z) :
  length y_true = length y_pred ->
  zsum (map zsum (transpose 0%Z (confusion_matrix y_true y_pred)))
  = Z.of_nat (length y_true).
Proof.
  intros Hlen. set (L := unique (y_true ++ y_pred)).
  set (P := combine y_true y_pred).
  assert (HP : forall p, In p P -> In (fst p) L /\ In (snd p) L).
  { intros [a b] Hp. unfold L. rewrite !unique_In, !in_app_iff. split.
    - left. eapply in_combine_l, Hp.
    - right. eapply in_combine_r, Hp. }
  pose proof (pair_table_total L P (unique_ascending (y_true ++ y_pred)) HP) as Htot.
  fold L in Htot.
  assert (HlenP : length P = length y_true).
  { unfold P. rewrite length_combine. lia. }
  rewrite HlenP in Htot. rewrite <- Htot.
  change (confusion_matrix y_true y_pred) with (tabulate (pair_count P) L L).
  destruct L as [|l0 L'] eqn:EL; [reflexivity|]. rewrite <- EL.
  rewrite transpose_tabulate by (rewrite EL; discriminate).
  unfold tabulate. rewrite !map_map. apply zsum_swap.
Qed.

(** Every example with a confident bin is counted exactly once in the raw
    joint, and the others are not counted: the entries are non-negative and
    add up to the number of included examples. *)
Theorem compute_confident_joint_total :
  forall (T : Type) (N : Num T) (s : list Z) (psx : matrix T) (K : option Z)
         (thresholds : list (option T)) (cj : list (list Z)),
    compute_confident_joint s psx K (Some thresholds) = Ok cj ->
    exists rows,
      mapM (classify thresholds) psx = Ok rows /\
      zsum (map zsum cj) = Z.of_nat (num_true (map fst rows)) /\
      Forall (Forall (fun c => (0 <= c)%Z)) cj.
Proof.
  intros T N s psx K thresholds cj Hcj.
  destruct (compute_confident_joint_inv _ _ _ _ _ Hcj)
    as [rows [y [s' [Hrows [Hy [Hs' ->]]]]]].
  exists rows. split; [exact Hrows|].
  destruct (mask_length _ _ _ Hy) as [Hly _]. destruct (mask_length _ _ _ Hs') as [Hls _].
  split.
  - rewrite confusion_matrix_total by congruence. now rewrite Hly.
  - change (confusion_matrix y s')
      with (tabulate (pair_count (combine y s')) (unique (y ++ s')) (unique (y ++ s'))).
    destruct (unique (y ++ s')) as [|l0 L'] eqn:EL; [constructor|]. rewrite <- EL.
    rewrite transpose_tabulate by (rewrite EL; discriminate).
    unfold tabulate. apply Forall_map, Forall_forall. intros b _.
    apply Forall_map, Forall_forall. intros a _. apply pair_count_nonneg.
Qed.

Lemma compute_confident_joint_total_witness :
  exists rows,
    mapM (classify [Some 0.5; Some 0.5]%float)
         [[0.25; 0.25]; [0.25; 0.75]; [0.75; 0.75]]%float = Ok rows /\
    zsum (map zsum [[1; 0]; [0; 1]]%Z) = Z.of_nat (num_true (map fst rows)) /\
    Forall (Forall (fun c => (0 <= c)%Z)) [[1; 0]; [0; 1]]%Z.
Proof.
  apply (compute_confident_joint_total float Num_float [0; 1; 0]%Z
           [[0.25; 0.25]; [0.25; 0.75]; [0.75; 0.75]]%float None
           [Some 0.5; Some 0.5]%float).
  vm_compute. reflexivity.
Defined.

(** ** [compute_confident_joint]: the guesses *)

Lemma num_true_all (l : list bool) :
  Forall (fun b => b = true) l -> num_true l = length l.
Proof.
  induction 1 as [|b l Hb _ IH]; [reflexivity|]. subst b.
  unfold num_true in *. simpl. now rewrite IH.
Qed.

Lemma guess_of_all_confident {T} `{Num T} (thresholds : list (option T))
  (row : list T) :
  length row = length thresholds -> row <> [] ->
  Forall (fun b => b = true) (bins_of thresholds row) ->
  guess_of thresholds row = (true, Z.of_nat (argmax_index row)).
Proof.
  intros Hl Hne Hall. unfold guess_of. cbv zeta.
  assert (Hb : length (bins_of thresholds row) = length row).
  { unfold bins_of. rewrite length_map, length_combine. lia. }
  rewrite (num_true_all _ Hall), Hb.
  destruct row as [|x [|y row]]; [contradiction| |].
  - destruct thresholds as [|t [|t' thresholds]]; try discriminate.
    unfold bins_of in *. cbn [combine map fst snd length] in *.
    inversion Hall as [|? ? Ht _]; subst. rewrite Ht. reflexivity.
  - reflexivity.
Qed.

(** When every probability reaches its threshold, every example is
    included and the raw joint is the confusion matrix of the argmax
    predictions against the labels, rows being the labels. *)
Theorem compute_confident_joint_all_confident :
  forall (T : Type) (N : Num T) (s : list Z) (psx : matrix T) (K : option Z)
         (thresholds : list (option T)),
    length psx = length s -> thresholds <> [] ->
    Forall (fun row => length row = length thresholds /\
                       Forall (fun b => b = true) (bins_of thresholds row)) psx ->
    compute_confident_joint s psx K (Some thresholds)
    = Ok (transpose 0%Z
            (confusion_matrix (map (fun row => Z.of_nat (argmax_index row)) psx) s)).
Proof.
  intros T N s psx K thresholds Hlen Hne Hrows.
  assert (HK : (0 < length thresholds)%nat)
    by (destruct thresholds; [contradiction|simpl; lia]).
  assert (Hshape : shape_ok (length thresholds) s psx).
  { split; [exact Hlen|]. eapply Forall_impl; [|exact Hrows]. now intros row [Hr _]. }
  rewrite (@compute_confident_joint_given T N (length thresholds) s psx K thresholds
             HK Hshape eq_refl).
  assert (Hpairs : confident_pairs thresholds s psx
                   = map (fun e => (fst e, Z.of_nat (argmax_index (snd e))))
                         (combine s psx)).
  { unfold confident_pairs, examples.
    assert (Hg : forall e, In e (combine s psx) ->
                 guess_of thresholds (snd e)
                 = (true, Z.of_nat (argmax_index (snd e)))).
    { intros [l row] He. cbn [snd]. apply in_combine_r in He.
      rewrite Forall_forall in Hrows. destruct (Hrows row He) as [Hr Hb].
      apply guess_of_all_confident; [exact Hr| |exact Hb].
      intros ->. simpl in Hr. lia. }
    rewrite filter_all by (intros e He; now rewrite (Hg e He)).
    apply map_ext_in. intros e He. now rewrite (Hg e He). }
  rewrite Hpairs, !map_map. cbn [fst snd].
  assert (Hy : map (fun e : Z * list T => Z.of_nat (argmax_index (snd e))) (combine s psx)
               = map (fun row => Z.of_nat (argmax_index row)) psx).
  { transitivity (map (fun row => Z.of_nat (argmax_index row))
                      (map snd (combine s psx))).
    - now rewrite map_map.
    - rewrite map_snd_combine by congruence. reflexivity. }
  assert (Hs : map (fun e : Z * list T => fst e) (combine s psx) = s).
  { transitivity (map fst (combine s psx)); [reflexivity|].
    apply map_fst_combine. congruence. }
  rewrite Hy, Hs. reflexivity.
Qed.

Lemma compute_confident_joint_all_confident_witness :
  compute_confident_joint [0; 1; 1]%Z [[3 # 4; 1 # 4]; [1 # 2; 1 # 2]; [1 # 4; 3 # 4]]
                          None (Some [Some 0; Some 0])
  = Ok (transpose 0%Z
          (confusion_matrix
             (map (fun row => Z.of_nat (argmax_index row))
                  [[3 # 4; 1 # 4]; [1 # 2; 1 # 2]; [1 # 4; 3 # 4]])
             [0; 1; 1]%Z)).
Proof.
  apply (compute_confident_joint_all_confident Q Num_Q).
  - reflexivity.
  - discriminate.
  - repeat constructor.
Defined.

(** [argmax] of a row of rationals: a maximal entry, the first of them. *)
Lemma argmax_from_spec (l pre : list Q) (best : nat) (bv : Q) :
  (best < length pre)%nat -> nth best pre 0 = bv ->
  (forall j, (j < length pre)%nat -> nth j pre 0 <= bv) ->
  (forall j, (j < best)%nat -> nth j pre 0 < bv) ->
  (argmax_from (length pre) best bv l < length (pre ++ l))%nat /\
  (forall j, (j < length (pre ++ l))%nat ->
             nth j (pre ++ l) 0 <= nth (argmax_from (length pre) best bv l) (pre ++ l) 0) /\
  (forall j, (j < argmax_from (length pre) best bv l)%nat ->
             nth j (pre ++ l) 0 < nth (argmax_from (length pre) best bv l) (pre ++ l) 0).
Proof.
  revert pre best bv. induction l as [|x l IH]; intros pre best bv Hb Hv Hle Hlt.
  - cbn [argmax_from]. rewrite app_nil_r, Hv. repeat split; assumption.
  - cbn [argmax_from].
    replace (pre ++ x :: l) with ((pre ++ [x]) ++ l) by (now rewrite <- app_assoc).
    replace (S (length pre)) with (length (pre ++ [x]))
      by (rewrite length_app; simpl; lia).
    assert (Hlen : length (pre ++ [x]) = S (length pre))
      by (rewrite length_app; simpl; lia).
    change (gtb x bv) with (negb (Qle_bool x bv)).
    destruct (Qle_bool x bv) eqn:E; cbn [negb].
    + apply Qle_bool_iff in E. apply IH.
      * lia.
      * rewrite app_nth1 by exact Hb. exact Hv.
      * intros j Hj. destruct (Nat.eq_dec j (length pre)) as [->|Hne].
        -- now rewrite nth_middle.
        -- rewrite app_nth1 by lia. apply Hle. lia.
      * intros j Hj. rewrite app_nth1 by lia. now apply Hlt.
    + assert (Hgt : bv < x).
      { apply Qnot_le_lt. intros Hc. apply Qle_bool_iff in Hc. congruence. }
      apply IH.
      * lia.
      * apply nth_middle.
      * intros j Hj. destruct (Nat.eq_dec j (length pre)) as [->|Hne].
        -- rewrite nth_middle. apply Qle_refl.
        -- rewrite app_nth1 by lia. apply Qlt_le_weak.
           eapply Qle_lt_trans; [apply Hle; lia|exact Hgt].
      * intros j Hj. rewrite app_nth1 by lia.
        eapply Qle_lt_trans; [apply Hle; lia|exact Hgt].
Qed.

(** With more than one confident bin the guess is a class of largest
    probability in the row; among equal largest probabilities it is the
    one of lowest index. *)
Theorem classify_tie_break :
  forall (thresholds : list (option Q)) (row : list Q) (included : bool)
         (guess : Z) (bins : list bool),
    classify thresholds row = Ok (included, guess) ->
    bcast2 confident_bin row thresholds = Ok bins ->
    (1 < num_true bins)%nat ->
    (Z.to_nat guess < length row)%nat /\
    (forall j, (j < length row)%nat -> nth j row 0 <= nth (Z.to_nat guess) row 0) /\
    (forall j, (j < Z.to_nat guess)%nat -> nth j row 0 < nth (Z.to_nat guess) row 0).
Proof.
  intros thresholds row included guess bins Hc Hb Hn.
  destruct (classify_rule _ _ Hc) as [bins' [Hb' [_ [_ Harg]]]].
  rewrite Hb in Hb'. injection Hb' as <-. specialize (Harg Hn).
  destruct row as [|x l]; [discriminate|]. cbn [argmax] in Harg.
  injection Harg as Harg. rewrite <- Harg.
  apply (argmax_from_spec l [x] 0 x).
  - simpl. lia.
  - reflexivity.
  - intros j Hj. simpl in Hj. assert (j = 0%nat) by lia. subst j. apply Qle_refl.
  - intros j Hj. lia.
Qed.

Lemma classify_tie_break_witness :
  (Z.to_nat 1 < length [1 # 4; 1 # 2; 1 # 2])%nat /\
  (forall j, (j < length [1 # 4; 1 # 2; 1 # 2])%nat ->
             nth j [1 # 4; 1 # 2; 1 # 2] 0 <= nth (Z.to_nat 1) [1 # 4; 1 # 2; 1 # 2] 0) /\
  (forall j, (j < Z.to_nat 1)%nat ->
             nth j [1 # 4; 1 # 2; 1 # 2] 0 < nth (Z.to_nat 1) [1 # 4; 1 # 2; 1 # 2] 0).
Proof.
  apply (classify_tie_break [Some (1 # 2); Some (1 # 2); Some (1 # 2)]
           [1 # 4; 1 # 2; 1 # 2] true 1%Z [false; true; true]).
  - reflexivity.
  - reflexivity.
  - unfold num_true. simpl. lia.
Defined.

(** ** [calibrate_confident_joint]: the entries on valid data *)

Lemma nth_tabulate {A B C} (f : A -> B -> C) (rows : list A) (cols : list B)
  (i j : nat) (d : C) (a0 : A) (b0 : B) :
  (i < length rows)%nat -> (j < length cols)%nat ->
  nth j (nth i (tabulate f rows cols) []) d = f (nth i rows a0) (nth j cols b0).
Proof.
  intros Hi Hj. unfold tabulate.
  rewrite (nth_indep _ [] ((fun a => map (f a) cols) a0)) by (now rewrite length_map).
  rewrite (map_nth (fun a => map (f a) cols)).
  rewrite (nth_indep _ d (f (nth i rows a0) b0)) by (now rewrite length_map).
  apply map_nth.
Qed.

Lemma nth_zrange (K i : nat) :
  (i < K)%nat -> nth i (zrange (Z.of_nat K)) 0%Z = Z.of_nat i.
Proof.
  intros Hi. unfold zrange. rewrite Nat2Z.id.
  change 0%Z with (Z.of_nat 0). rewrite map_nth. now rewrite seq_nth.
Qed.

Lemma nth_tabulate_zrange {C} (f : Z -> Z -> C) (K i j : nat) (d : C) :
  (i < K)%nat -> (j < K)%nat ->
  nth j (nth i (tabulate f (zrange (Z.of_nat K)) (zrange (Z.of_nat K))) []) d
  = f (Z.of_nat i) (Z.of_nat j).
Proof.
  intros Hi Hj.
  rewrite (nth_tabulate f _ _ i j d 0%Z 0%Z)
    by (rewrite length_zrange; lia).
  now rewrite !nth_zrange.
Qed.

Lemma rescaled_entry_nonneg (K : nat) (s : list Z) (P : list (Z * Z)) (i j : Z) :
  0 <= rescaled_entry K s P i j.
Proof.
  unfold rescaled_entry. apply Qmult_le_0_compat.
  - unfold Qdiv. apply Qmult_le_0_compat.
    + change 0 with (inject_Z 0). rewrite <- Zle_Qle. apply pair_count_nonneg.
    + apply Qinv_le_0_compat. change 0 with (inject_Z 0). rewrite <- Zle_Qle.
      apply zsum_nonneg. apply Forall_map, Forall_forall. intros b _.
      apply pair_count_nonneg.
  - change 0 with (inject_Z 0). rewrite <- Zle_Qle. unfold count_eq. lia.
Qed.

(** On valid data the calibrated joint has no negative entry, and each
    entry is the share of the raw entry in its row of the raw joint, times
    the number of examples of the row's label: in exact arithmetic the
    second rescaling changes nothing. *)
Theorem calibrate_confident_joint_entries :
  forall (K : nat) (s : list Z) (psx : matrix Q) (J : list (list Z)),
    valid_labels K s -> shape_ok K s psx ->
    exists (cj : list (list Z)) (M : matrix Q),
      compute_confident_joint s psx None None = Ok cj /\
      calibrate_confident_joint J s psx = Ok M /\
      length M = K /\ Forall (fun row => length row = K) M /\
      Forall (Forall (fun x => 0 <= x)) M /\
      forall i j, (i < K)%nat -> (j < K)%nat ->
                  nth j (nth i M []) 0
                  == inject_Z (nth j (nth i cj []) 0%Z) / inject_Z (zsum (nth i cj []))
                     * inject_Z (count_eq (Z.of_nat i) s).
Proof.
  intros K s psx J Hv Hs.
  set (P := confident_pairs (mean_thresholds K s psx) s psx).
  set (L := zrange (Z.of_nat K)).
  exists (tabulate (pair_count P) L L), (calibrated_table K s psx).
  pose proof (@rescaled_total K s psx Hv Hs) as Htot. fold P L in Htot.
  pose proof (@valid_labels_length K s Hv) as Hn.
  split; [exact (@compute_confident_joint_default_table K s psx Hv Hs)|].
  split; [exact (@calibrate_confident_joint_valid K s psx J Hv Hs)|].
  unfold calibrated_table. cbv zeta. fold P L.
  split; [unfold tabulate, L; now rewrite length_map, length_zrange, Nat2Z.id|].
  split; [|split].
  - unfold tabulate. apply Forall_map, Forall_forall. intros i _.
    unfold L. now rewrite length_map, length_zrange, Nat2Z.id.
  - unfold tabulate. apply Forall_map, Forall_forall. intros i _.
    apply Forall_map, Forall_forall. intros j _.
    apply Qmult_le_0_compat.
    + unfold Qdiv. apply Qmult_le_0_compat; [apply rescaled_entry_nonneg|].
      apply Qinv_le_0_compat. rewrite Htot. change 0 with (inject_Z 0).
      rewrite <- Zle_Qle. lia.
    + change 0 with (inject_Z 0). rewrite <- Zle_Qle. lia.
  - intros i j Hi Hj. unfold L.
    rewrite (nth_tabulate_zrange _ K i j 0 Hi Hj). fold L. rewrite Htot.
    assert (Hrow : nth i (tabulate (pair_count P) L L) []
                   = map (pair_count P (Z.of_nat i)) L).
    { unfold tabulate.
      rewrite (nth_indep _ [] ((fun a => map (pair_count P a) L) 0%Z))
        by (unfold L; rewrite length_map, length_zrange; lia).
      rewrite (map_nth (fun a => map (pair_count P a) L)).
      unfold L. now rewrite nth_zrange. }
    rewrite Hrow.
    assert (Hent : nth j (map (pair_count P (Z.of_nat i)) L) 0%Z
                   = pair_count P (Z.of_nat i) (Z.of_nat j)).
    { rewrite (nth_indep _ 0%Z (pair_count P (Z.of_nat i) 0%Z))
        by (unfold L; rewrite length_map, length_zrange; lia).
      rewrite (map_nth (pair_count P (Z.of_nat i))). unfold L.
      now rewrite nth_zrange. }
    rewrite Hent. unfold rescaled_entry. fold L.
    pose proof (@row_total_pos K s psx (Z.of_nat i) Hv Hs ltac:(lia)) as Hpos.
    fold P L in Hpos. field.
    split; intros Hz; unfold Qeq in Hz; simpl in Hz; lia.
Qed.

Lemma calibrate_confident_joint_entries_witness :
  exists (cj : list (list Z)) (M : matrix Q),
    compute_confident_joint [0; 1; 1]%Z [[1; 0]; [1 # 2; 1 # 2]; [0; 1]] None None
      = Ok cj /\
    calibrate_confident_joint [] [0; 1; 1]%Z [[1; 0]; [1 # 2; 1 # 2]; [0; 1]] = Ok M /\
    length M = 2%nat /\ Forall (fun row => length row = 2%nat) M /\
    Forall (Forall (fun x => 0 <= x)) M /\
    forall i j, (i < 2)%nat -> (j < 2)%nat ->
                nth j (nth i M []) 0
                == inject_Z (nth j (nth i cj []) 0%Z) / inject_Z (zsum (nth i cj []))
                   * inject_Z (count_eq (Z.of_nat i) [0; 1; 1]%Z).
Proof.
  apply (calibrate_confident_joint_entries 2 [0; 1; 1]%Z
           [[1; 0]; [1 # 2; 1 # 2]; [0; 1]] []).
  - split; [lia|]. split.
    + repeat constructor; lia.
    + intros k Hk. assert (Hc : k = 0%Z \/ k = 1%Z) by lia.
      destruct Hc as [-> | ->]; simpl; auto.
  - split; [reflexivity|]. repeat constructor.
Defined.

(** ** [num_label_errors]: range and errors *)

Lemma np_sum_nonneg (l : list Q) : Forall (fun x => 0 <= x) l -> 0 <= np_sum l.
Proof.
  induction 1 as [|x l Hx _ IH]; [apply Qle_refl|].
  rewrite np_sum_cons. change 0 with (0 + 0). now apply Qplus_le_compat.
Qed.

Lemma nth_le_np_sum (l : list Q) (j : nat) :
  Forall (fun x => 0 <= x) l -> nth j l 0 <= np_sum l.
Proof.
  intros Hl. revert j. induction Hl as [|x l Hx Hl IH]; intros j.
  - destruct j; apply Qle_refl.
  - rewrite np_sum_cons. destruct j; cbn [nth].
    + setoid_replace x with (x + 0) at 1 by ring.
      apply Qplus_le_compat; [apply Qle_refl|now apply np_sum_nonneg].
    + setoid_replace (nth j l 0) with (0 + nth j l 0) by ring.
      apply Qplus_le_compat; [exact Hx|apply IH].
Qed.

Lemma np_sum2_cons (r : list Q) (M : matrix Q) :
  np_sum2 (r :: M) == np_sum r + np_sum2 M.
Proof. unfold np_sum2. cbn [concat]. apply np_sum_app. Qed.

Lemma np_sum2_nonneg (M : matrix Q) :
  Forall (Forall (fun x => 0 <= x)) M -> 0 <= np_sum2 M.
Proof.
  intros HM. unfold np_sum2. apply np_sum_nonneg.
  induction HM as [|r M Hr _ IH]; [constructor|].
  cbn [concat]. apply Forall_app. now split.
Qed.

Lemma diagonal_le_total (M : matrix Q) :
  Forall (Forall (fun x => 0 <= x)) M ->
  forall c m, (m <= length M)%nat ->
    0 <= np_sum (map (fun k => nth (c + k) (nth k M []) 0) (seq 0 m)) /\
    np_sum (map (fun k => nth (c + k) (nth k M []) 0) (seq 0 m)) <= np_sum2 M.
Proof.
  induction 1 as [|r M Hr HM IH]; intros c m Hm.
  - simpl in Hm. assert (m = 0%nat) by lia. subst m. split; apply Qle_refl.
  - destruct m as [|m].
    + split; [apply Qle_refl|]. apply np_sum2_nonneg. now constructor.
    + cbn [seq map]. rewrite <- seq_shift, map_map.
      rewrite np_sum_cons, np_sum2_cons. cbn [nth].
      destruct (IH (S c) m ltac:(simpl in Hm; lia)) as [H0 Hle].
      assert (Heq : map (fun k => nth (c + S k) (nth k M []) 0) (seq 0 m)
                    = map (fun k => nth (S c + k) (nth k M []) 0) (seq 0 m)).
      { apply map_ext. intros k. f_equal. lia. }
      rewrite Heq. split.
      * change 0 with (0 + 0). apply Qplus_le_compat; [|exact H0].
        destruct (Nat.lt_ge_cases (c + 0) (length r)) as [Hin|Hout].
        -- rewrite Forall_forall in Hr. apply Hr. now apply nth_In.
        -- rewrite nth_overflow by exact Hout. apply Qle_refl.
      * apply Qplus_le_compat; [now apply nth_le_np_sum|exact Hle].
Qed.

Lemma trace_bounds (M : matrix Q) :
  Forall (Forall (fun x => 0 <= x)) M -> 0 <= trace M /\ trace M <= np_sum2 M.
Proof.
  intros HM. unfold trace.
  apply (diagonal_le_total M HM 0%nat). apply Nat.le_min_l.
Qed.

Lemma np_sum2_scaled (M : matrix Q) (t : Q) :
  np_sum2 (map (map (fun x => x / t)) M) == np_sum2 M / t.
Proof.
  unfold np_sum2. rewrite <- concat_map.
  rewrite (np_sum_map_ext (fun x => x / t) (fun x => x * / t))
    by (intros x _; reflexivity).
  rewrite (np_sum_map_scale (fun x => x) (/ t)). now rewrite map_id.
Qed.

(** For a joint without negative entries whose total is positive, the
    estimated number of label errors lies between 0 and the number of
    labels. *)
Theorem num_label_errors_range :
  forall (labels : list Z) (psx cj : matrix Q),
    Forall (Forall (fun x => 0 <= x)) cj -> 0 < np_sum2 cj ->
    exists n, num_label_errors labels psx (Some cj) = Ok n /\
              (0 <= n <= Z.of_nat (length labels))%Z.
Proof.
  intros labels psx cj Hnn Hpos.
  assert (Hz : is_zero (np_sum2 cj) = false).
  { apply not_true_is_false. intros Hb.
    change (Qeq_bool (np_sum2 cj) 0 = true) in Hb. apply Qeq_bool_iff in Hb.
    rewrite Hb in Hpos. exact (Qlt_irrefl 0 Hpos). }
  exists (error_count to_int labels cj).
  split; [exact (num_label_errors_given labels psx cj Hz)|].
  unfold error_count. cbv zeta. set (total := np_sum2 cj) in *.
  set (joint := map (map (fun x => div x total)) cj).
  assert (Hj : Forall (Forall (fun x => 0 <= x)) joint).
  { unfold joint. apply Forall_map. eapply Forall_impl; [|exact Hnn].
    intros row Hrow. apply Forall_map. eapply Forall_impl; [|exact Hrow].
    intros x Hx. change (0 <= x / total). unfold Qdiv.
    apply Qmult_le_0_compat; [exact Hx|]. apply Qinv_le_0_compat.
    now apply Qlt_le_weak. }
  destruct (trace_bounds joint Hj) as [Ht0 Ht1].
  assert (Hone : np_sum2 joint == 1).
  { unfold joint. change (fun x => div x total) with (fun x : Q => x / total).
    rewrite np_sum2_scaled. fold total. field.
    intros Hc. rewrite Hc in Hpos. exact (Qlt_irrefl 0 Hpos). }
  rewrite Hone in Ht1.
  set (n := inject_Z (Z.of_nat (length labels))).
  assert (Hn : 0 <= n).
  { unfold n. change 0 with (inject_Z 0). rewrite <- Zle_Qle. lia. }
  change (0 <= Qtrunc ((1 - trace joint) * n) <= Z.of_nat (length labels))%Z.
  assert (Hv0 : 0 <= (1 - trace joint) * n).
  { apply Qmult_le_0_compat; [|exact Hn].
    apply Qle_minus_iff in Ht1. exact Ht1. }
  assert (Hv1 : (1 - trace joint) * n <= n).
  { setoid_replace n with (1 * n) at 2 by ring.
    apply Qmult_le_compat_r; [|exact Hn].
    apply Qle_minus_iff. setoid_replace (1 + - (1 - trace joint)) with (trace joint) by ring.
    exact Ht0. }
  unfold Qtrunc. apply Qle_bool_iff in Hv0. rewrite Hv0.
  apply Qle_bool_iff in Hv0. split.
  - change 0%Z with (Qfloor 0). now apply Qfloor_resp_le.
  - rewrite <- (Qfloor_Z (Z.of_nat (length labels))). now apply Qfloor_resp_le.
Qed.

Lemma num_label_errors_range_witness :
  exists n, num_label_errors [0; 1; 1]%Z [[1; 0]; [0; 1]; [0; 1]] (Some [[1; 1]; [1; 1]])
            = Ok n /\
            (0 <= n <= Z.of_nat (length [0; 1; 1]%Z))%Z.
Proof.
  apply (num_label_errors_range [0; 1; 1]%Z [[1; 0]; [0; 1]; [0; 1]] [[1; 1]; [1; 1]]).
  - repeat constructor; unfold Qle; simpl; lia.
  - reflexivity.
Defined.

Lemma mapM_rows_raise {A B} (g : A -> result B) (e : exn) (M : list (list A)) :
  (forall x, g x = Raise e) -> concat M <> [] -> mapM (mapM g) M = Raise e.
Proof.
  intros Hg. induction M as [|row M IH]; intros Hne; [contradiction|].
  cbn [mapM]. destruct row as [|x row].
  - cbn [mapM bind]. rewrite IH by exact Hne. reflexivity.
  - cbn [mapM]. rewrite Hg. reflexivity.
Qed.

Lemma mapM_rows_empty {A B} (g : A -> result B) (M : list (list A)) :
  concat M = [] -> mapM (mapM g) M = Ok (map (fun _ => []) M).
Proof.
  induction M as [|row M IH]; intros He; [reflexivity|].
  cbn [concat] in He. apply app_eq_nil in He. destruct He as [-> He].
  cbn [mapM bind map]. now rewrite (IH He).
Qed.

Lemma Qtrunc_inject (q : Q) (z : Z) : q == inject_Z z -> (0 <= z)%Z -> Qtrunc q = z.
Proof.
  intros Hq Hz. unfold Qtrunc.
  assert (Hle : Qle_bool 0 q = true).
  { apply Qle_bool_iff. rewrite Hq. change 0 with (inject_Z 0).
    now rewrite <- Zle_Qle. }
  rewrite Hle, Hq. apply Qfloor_Z.
Qed.

(** A joint whose entries add up to zero: with an entry in it the call
    raises (the division gives nan or inf, which [int] refuses); without any
    entry (no rows, or rows without columns) the trace is 0 and every label
    is counted as an error. *)
Theorem num_label_errors_zero_total :
  forall (labels : list Z) (psx cj : matrix Q),
    np_sum2 cj == 0 ->
    (concat cj <> [] -> exists e, num_label_errors labels psx (Some cj) = Raise e) /\
    (concat cj = [] -> num_label_errors labels psx (Some cj)
                       = Ok (Z.of_nat (length labels))).
Proof.
  intros labels psx cj Hz. split; intros Hc.
  - exists ZeroDivisionError. unfold num_label_errors. cbn [bind].
    rewrite (mapM_rows_raise (fun x => div_guard x (np_sum2 cj)) ZeroDivisionError).
    + reflexivity.
    + intros x. unfold div_guard.
      change (is_zero (np_sum2 cj)) with (Qeq_bool (np_sum2 cj) 0).
      apply Qeq_bool_iff in Hz. now rewrite Hz.
    + exact Hc.
  - unfold num_label_errors. cbn [bind]. rewrite mapM_rows_empty by exact Hc.
    cbn [bind]. f_equal.
    assert (Ht : trace (map (fun _ : list Q => @nil Q) cj) = 0).
    { unfold trace. destruct cj as [|row cj]; reflexivity. }
    rewrite Ht. change (to_int ?q) with (Qtrunc q).
    apply Qtrunc_inject; [|lia].
    change (sub (of_Z 1) 0) with (1 - 0).
    change (mul ?a ?b) with (a * b). change (of_Z ?z) with (inject_Z z). ring.
Qed.

Lemma num_label_errors_zero_total_witness :
  (concat [[1; -1]; [0; 0]] <> [] ->
   exists e, num_label_errors [0; 1]%Z [[1; 0]; [0; 1]] (Some [[1; -1]; [0; 0]])
             = Raise e) /\
  (concat [[1; -1]; [0; 0]] = [] ->
   num_label_errors [0; 1]%Z [[1; 0]; [0; 1]] (Some [[1; -1]; [0; 0]])
   = Ok (Z.of_nat (length [0; 1]%Z))).
Proof.
  apply (num_label_errors_zero_total [0; 1]%Z [[1; 0]; [0; 1]] [[1; -1]; [0; 0]]).
  reflexivity.
Defined.

(** ** [estimate_confident_joint_from_probabilities]: edge cases *)

(** With [force_ps] an integer that is zero or negative the loop body never
    runs: asked for the last joint the function raises [UnboundLocalError],
    asked for the list it returns the empty list; no array is changed. *)
Theorem estimate_confident_joint_no_pass :
  forall (T : Type) (N : Num T) (h h0 : heap T) (s : list Z) (psx : matrix T)
         (thresholds : thresholds_arg T) (n : Z) (ps : list T) (r : nat),
    (n <= 0)%Z ->
    owned h thresholds ->
    empirical_marginal s = Ok ps ->
    thresholds_array h s psx thresholds = Ok (h0, r) ->
    estimate_confident_joint_from_probabilities h s psx thresholds (ForceInt n) false
    = (h0, Raise UnboundLocalError) /\
    estimate_confident_joint_from_probabilities h s psx thresholds (ForceInt n) true
    = (h0, Ok (JointList [])).
Proof.
  intros T N h h0 s psx thresholds n ps r Hn Ho Hps Ha.
  pose proof (@estimate_confident_joint_from_probabilities_run T N h h0 s psx
                thresholds (ForceInt n) false ps r Ho Hps Ha) as Hf.
  pose proof (@estimate_confident_joint_from_probabilities_run T N h h0 s psx
                thresholds (ForceInt n) true ps r Ho Hps Ha) as Ht.
  cbn [all_passes passes] in Hf, Ht.
  replace (Z.to_nat n) with 0%nat in Hf, Ht by lia.
  cbn [adaptive_passes fst snd] in Hf, Ht.
  rewrite heap_set_get in Hf, Ht. split; assumption.
Qed.

Lemma estimate_confident_joint_no_pass_witness :
  estimate_confident_joint_from_probabilities
    [[Some 0.5; Some 0.5]]%float [0; 1]%Z [[1; 0]; [0; 1]]%float
    (ThresholdArray 0) (ForceInt 0) false
  = ([[Some 0.5; Some 0.5]]%float, Raise UnboundLocalError) /\
  estimate_confident_joint_from_probabilities
    [[Some 0.5; Some 0.5]]%float [0; 1]%Z [[1; 0]; [0; 1]]%float
    (ThresholdArray 0) (ForceInt 0) true
  = ([[Some 0.5; Some 0.5]]%float, Ok (JointList [])).
Proof.
  apply (estimate_confident_joint_no_pass float Num_float
           [[Some 0.5; Some 0.5]]%float [[Some 0.5; Some 0.5]]%float
           [0; 1]%Z [[1; 0]; [0; 1]]%float (ThresholdArray 0) 0%Z
           [0.5; 0.5]%float 0%nat).
  - lia.
  - simpl. lia.
  - vm_compute. reflexivity.
  - reflexivity.
Defined.



Lemma last_joint_repeat {T} (M : matrix T) (n : nat) :
  last_joint (Some M) (repeat M n) = Some M.
Proof.
  induction n as [|n IH]; [reflexivity|].
  cbn [repeat]. rewrite last_joint_cons. exact IH.
Qed.

(** On valid data, in exact arithmetic, neither the thresholds nor
    [force_ps] have any effect on the joints returned: every pass yields what
    [calibrate_confident_joint] returns on the labels and probabilities. *)
Theorem estimate_confident_joint_ignores_thresholds :
  forall (K : nat) (h : heap Q) (s : list Z) (psx : matrix Q)
         (thresholds : thresholds_arg Q) (force_ps : force_ps_arg)
         (J : list (list Z)),
    valid_labels K s -> shape_ok K s psx -> thresholds_shape K h thresholds ->
    exists M,
      calibrate_confident_joint J s psx = Ok M /\
      snd (estimate_confident_joint_from_probabilities h s psx thresholds force_ps true)
      = Ok (JointList (repeat M (passes force_ps))) /\
      ((0 < passes force_ps)%nat ->
       snd (estimate_confident_joint_from_probabilities h s psx thresholds force_ps false)
       = Ok (Joint M)).
Proof.
  intros K h s psx thresholds force_ps J Hv Hs Ht.
  exists (calibrated_table K s psx).
  split; [exact (@calibrate_confident_joint_valid K s psx J Hv Hs)|].
  pose proof (@empirical_marginal_valid K s Hv) as Hps.
  assert (Ha : exists h0 r,
             thresholds_array h s psx thresholds = Ok (h0, r) /\
             length (heap_get h0 r) = K).
  { destruct thresholds as [|l|r]; cbn [thresholds_array thresholds_shape] in *.
    - rewrite (@unique_valid_length K s Hv).
      rewrite (@default_thresholds_same_shape Q Num_Q K s psx Hs). cbn [bind].
      exists (h ++ [mean_thresholds K s psx]), (length h). split; [reflexivity|].
      unfold heap_get. rewrite nth_middle. unfold mean_thresholds.
      now rewrite length_map, length_seq.
    - exists (h ++ [l]), (length h). split; [reflexivity|].
      unfold heap_get. now rewrite nth_middle.
    - exists h, r. split; [reflexivity|]. exact (proj2 Ht). }
  destruct Ha as [h0 [r [Ha Hlen]]].
  assert (Ho : owned h thresholds).
  { destruct thresholds as [|l|r0]; cbn [owned thresholds_shape] in *;
      [exact I|exact I|exact (proj1 Ht)]. }
  destruct (@all_passes_valid K s psx _ force_ps (heap_get h0 r) Hv Hs Hlen Hps)
    as [t' [Hall _]].
  pose proof (@estimate_confident_joint_from_probabilities_run Q Num_Q h h0 s psx
                thresholds force_ps true _ r Ho Hps Ha) as Htrue.
  pose proof (@estimate_confident_joint_from_probabilities_run Q Num_Q h h0 s psx
                thresholds force_ps false _ r Ho Hps Ha) as Hfalse.
  rewrite (@unique_valid_length K s Hv) in Htrue, Hfalse.
  rewrite Hall in Htrue, Hfalse. cbn [fst snd] in Htrue, Hfalse.
  split.
  - now rewrite Htrue.
  - intros Hp. rewrite Hfalse. cbn [snd].
    destruct (passes force_ps) as [|n]; [lia|].
    cbn [repeat]. rewrite last_joint_cons, last_joint_repeat. reflexivity.
Qed.

Lemma estimate_confident_joint_ignores_thresholds_witness :
  exists M,
    calibrate_confident_joint [] [0; 1; 1]%Z [[1; 0]; [1 # 2; 1 # 2]; [0; 1]] = Ok M /\
    snd (estimate_confident_joint_from_probabilities
           [] [0; 1; 1]%Z [[1; 0]; [1 # 2; 1 # 2]; [0; 1]]
           (ThresholdList [Some (1 # 10); Some (9 # 10)]) (ForceInt 3) true)
    = Ok (JointList (repeat M (passes (ForceInt 3)))) /\
    ((0 < passes (ForceInt 3))%nat ->
     snd (estimate_confident_joint_from_probabilities
            [] [0; 1; 1]%Z [[1; 0]; [1 # 2; 1 # 2]; [0; 1]]
            (ThresholdList [Some (1 # 10); Some (9 # 10)]) (ForceInt 3) false)
     = Ok (Joint M)).
Proof.
  apply (estimate_confident_joint_ignores_thresholds 2 [] [0; 1; 1]%Z
           [[1; 0]; [1 # 2; 1 # 2]; [0; 1]]
           (ThresholdList [Some (1 # 10); Some (9 # 10)]) (ForceInt 3) []).
  - split; [lia|]. split.
    + repeat constructor; lia.
    + intros k Hk. assert (Hc : k = 0%Z \/ k = 1%Z) by lia.
      destruct Hc as [-> | ->]; simpl; auto.
  - split; [reflexivity|]. repeat constructor.
  - reflexivity.
Defined.

(** ** [converge_estimates]: iteration counts, composition, fixed points *)

Section ConvergeProperties.

Variables V M : Type.
Variable inv_f : V -> M -> V -> M.
Variable py_f : V -> M -> M -> V.
Variable nm_f : V -> M -> V -> M.

Lemma converge_estimates_as_iter (ps py : V) (nm inv : M) (inner outer : option Z) :
  converge_estimates inv_f py_f nm_f ps py nm inv inner outer
  = Nat.iter (Z.to_nat (match outer with Some n => n | None => 3%Z end))
             (outer_iteration inv_f py_f nm_f ps
                (Z.to_nat (match inner with Some n => n | None => 5%Z end)))
             (py, nm, inv).
Proof.
  unfold converge_estimates.
  rewrite <- (length_zrange (match outer with Some n => n | None => 3%Z end)).
  rewrite <- fold_left_const_iter.
  apply fold_left_pointwise. intros [[py' nm'] inv'] j.
  unfold outer_iteration.
  rewrite <- (length_zrange (match inner with Some n => n | None => 5%Z end)).
  rewrite <- (inner_loop_iter inv_f py_f ps nm').
  destruct (fold_left _ _ (py', inv')) as [py2 inv2]. reflexivity.
Qed.

Lemma noise_matrix_update_iter (ps py : V) (nm inv : M) (n : nat) :
  Nat.iter (S n) (noise_matrix_update nm_f ps) (py, nm, inv)
  = (py, nm_f ps inv py, inv).
Proof.
  induction n as [|n IH]; [reflexivity|].
  change (Nat.iter (S (S n)) (noise_matrix_update nm_f ps) (py, nm, inv))
    with (noise_matrix_update nm_f ps
            (Nat.iter (S n) (noise_matrix_update nm_f ps) (py, nm, inv))).
  rewrite IH. reflexivity.
Qed.

(** Iteration counts at the edge: with no outer iteration (a count of zero
    or below) the three estimates come back unchanged; with no inner
    iteration py and the inverse noise matrix are never touched, and any
    positive number of outer iterations leaves the noise matrix computed
    once from them. *)
Theorem converge_estimates_edge_counts :
  forall (ps py : V) (nm inv : M) (inner outer : Z),
    ((outer <= 0)%Z ->
     converge_estimates inv_f py_f nm_f ps py nm inv (Some inner) (Some outer)
     = (py, nm, inv)) /\
    ((inner <= 0)%Z -> (1 <= outer)%Z ->
     converge_estimates inv_f py_f nm_f ps py nm inv (Some inner) (Some outer)
     = (py, nm_f ps inv py, inv)).
Proof.
  intros ps py nm inv inner outer. split.
  - intros Ho. rewrite converge_estimates_as_iter.
    replace (Z.to_nat outer) with 0%nat by lia. reflexivity.
  - intros Hi Ho. rewrite converge_estimates_as_iter.
    replace (Z.to_nat inner) with 0%nat by lia.
    replace (Z.to_nat outer) with (S (Z.to_nat outer - 1)) by lia.
    apply noise_matrix_update_iter.
Qed.

(** Outer iterations compose: [a + b] of them are [a] of them followed by
    [b] more on the result. *)
Theorem converge_estimates_compose :
  forall (ps py : V) (nm inv : M) (inner : option Z) (a b : Z),
    (0 <= a)%Z -> (0 <= b)%Z ->
    converge_estimates inv_f py_f nm_f ps py nm inv inner (Some (a + b)%Z)
    = let '(py1, nm1, inv1) :=
        converge_estimates inv_f py_f nm_f ps py nm inv inner (Some a) in
      converge_estimates inv_f py_f nm_f ps py1 nm1 inv1 inner (Some b).
Proof.
  intros ps py nm inv inner a b Ha Hb.
  rewrite (converge_estimates_as_iter ps py nm inv inner (Some a)).
  rewrite (converge_estimates_as_iter ps py nm inv inner (Some (a + b)%Z)).
  replace (Z.to_nat (a + b)) with (Z.to_nat b + Z.to_nat a)%nat by lia.
  rewrite Nat.iter_add.
  destruct (Nat.iter (Z.to_nat a) _ (py, nm, inv)) as [[py1 nm1] inv1].
  now rewrite (converge_estimates_as_iter ps py1 nm1 inv1 inner (Some b)).
Qed.

(** Estimates that already satisfy the three closed-form relations are
    returned as they are, whatever the iteration counts. *)
Theorem converge_estimates_fixed_point :
  forall (ps py : V) (nm inv : M) (inner outer : option Z),
    inv = inv_f py nm ps -> py = py_f ps nm inv -> nm = nm_f ps inv py ->
    converge_estimates inv_f py_f nm_f ps py nm inv inner outer = (py, nm, inv).
Proof.
  intros ps py nm inv inner outer Hinv Hpy Hnm.
  rewrite converge_estimates_as_iter.
  assert (Hin : inner_iteration inv_f py_f ps (py, nm, inv) = (py, nm, inv)).
  { unfold inner_iteration. rewrite <- Hinv, <- Hpy. reflexivity. }
  assert (Hins : forall n, Nat.iter n (inner_iteration inv_f py_f ps) (py, nm, inv)
                           = (py, nm, inv)).
  { induction n as [|n IH]; [reflexivity|]. cbn [Nat.iter nat_rect].
    change (inner_iteration inv_f py_f ps
              (Nat.iter n (inner_iteration inv_f py_f ps) (py, nm, inv)) = (py, nm, inv)).
    now rewrite IH. }
  assert (Hout : forall k, outer_iteration inv_f py_f nm_f ps k (py, nm, inv)
                           = (py, nm, inv)).
  { intros k. unfold outer_iteration. rewrite Hins. unfold noise_matrix_update.
    now rewrite <- Hnm. }
  induction (Z.to_nat (match outer with Some n => n | None => 3%Z end)) as [|n IH];
    [reflexivity|].
  change (outer_iteration inv_f py_f nm_f ps
            (Z.to_nat (match inner with Some n => n | None => 5%Z end))
            (Nat.iter n (outer_iteration inv_f py_f nm_f ps
                           (Z.to_nat (match inner with Some n => n | None => 5%Z end)))
                      (py, nm, inv)) = (py, nm, inv)).
  rewrite IH. apply Hout.
Qed.

End ConvergeProperties.

Lemma converge_estimates_edge_counts_witness :
  converge_estimates (fun py nm ps => py + nm + ps)%Z (fun ps nm inv => ps * nm + inv)%Z
                     (fun ps inv py => ps + inv * py)%Z 2%Z 3%Z 5%Z 7%Z
                     (Some 4%Z) (Some 0%Z)
  = (3, 5, 7)%Z /\
  converge_estimates (fun py nm ps => py + nm + ps)%Z (fun ps nm inv => ps * nm + inv)%Z
                     (fun ps inv py => ps + inv * py)%Z 2%Z 3%Z 5%Z 7%Z
                     (Some 0%Z) (Some 2%Z)
  = (3, 2 + 7 * 3, 7)%Z.
Proof.
  split.
  - apply (proj1 (converge_estimates_edge_counts Z Z
                    (fun py nm ps => py + nm + ps)%Z (fun ps nm inv => ps * nm + inv)%Z
                    (fun ps inv py => ps + inv * py)%Z 2%Z 3%Z 5%Z 7%Z 4%Z 0%Z)).
    lia.
  - apply (proj2 (converge_estimates_edge_counts Z Z
                    (fun py nm ps => py + nm + ps)%Z (fun ps nm inv => ps * nm + inv)%Z
                    (fun ps inv py => ps + inv * py)%Z 2%Z 3%Z 5%Z 7%Z 0%Z 2%Z)); lia.
Defined.

Lemma converge_estimates_compose_witness :
  converge_estimates (fun py nm ps => py + nm + ps)%Z (fun ps nm inv => ps * nm + inv)%Z
                     (fun ps inv py => ps + inv * py)%Z 2%Z 3%Z 5%Z 7%Z
                     (Some 1%Z) (Some (1 + 2)%Z)
  = (let '(py1, nm1, inv1) :=
       converge_estimates (fun py nm ps => py + nm + ps)%Z
                          (fun ps nm inv => ps * nm + inv)%Z
                          (fun ps inv py => ps + inv * py)%Z 2%Z 3%Z 5%Z 7%Z
                          (Some 1%Z) (Some 1%Z) in
     converge_estimates (fun py nm ps => py + nm + ps)%Z
                        (fun ps nm inv => ps * nm + inv)%Z
                        (fun ps inv py => ps + inv * py)%Z 2%Z py1 nm1 inv1
                        (Some 1%Z) (Some 2%Z)).
Proof.
  apply (converge_estimates_compose Z Z
           (fun py nm ps => py + nm + ps)%Z (fun ps nm inv => ps * nm + inv)%Z
           (fun ps inv py => ps + inv * py)%Z 2%Z 3%Z 5%Z 7%Z (Some 1%Z) 1%Z 2%Z); lia.
Defined.

Lemma converge_estimates_fixed_point_witness :
  converge_estimates (fun (py nm ps : Z) => nm) (fun (ps nm inv : Z) => inv)
                     (fun (ps inv py : Z) => py) 2%Z 1%Z 1%Z 1%Z None None
  = (1, 1, 1)%Z.
Proof.
  apply (converge_estimates_fixed_point Z Z
           (fun py nm ps => nm) (fun ps nm inv => inv) (fun ps inv py => py));
    reflexivity.
Defined.

(** ** [estimate_latent]: the count ratios *)

Lemma matrix_as_table (K : nat) (M : matrix Q) :
  length M = K -> Forall (fun row => length row = K) M ->
  M = tabulate (fun i j => nth j (nth i M []) 0) (seq 0 K) (seq 0 K).
Proof.
  intros Hl Hrows. unfold tabulate.
  transitivity (map (fun i => nth i M []) (seq 0 K)).
  - rewrite <- Hl. rewrite (map_seq_nth (fun row => row) M []). now rewrite map_id.
  - apply map_ext_in. intros i Hi. apply in_seq in Hi.
    assert (Hrow : length (nth i M []) = K).
    { rewrite Forall_forall in Hrows. apply Hrows. apply nth_In. lia. }
    rewrite <- Hrow.
    rewrite (map_seq_nth (fun x => x) (nth i M []) 0). now rewrite map_id.
Qed.

Lemma np_sum_ratio {A} (f : A -> Q) (l : list A) :
  ~ np_sum (map f l) == 0 ->
  np_sum (map (fun a => f a / np_sum (map f l)) l) == 1.
Proof.
  intros Hnz.
  rewrite (np_sum_map_ext (fun a => f a / np_sum (map f l))
                          (fun a => f a * / np_sum (map f l)))
    by (intros a _; reflexivity).
  rewrite (np_sum_map_scale f). field. exact Hnz.
Qed.

(** For a K x K joint without a zero row sum or column sum,
    [estimate_latent] hands to [compute_py] and to [clip_noise_rates] the
    noise matrix [confident_joint / y_count], whose entry (i, j) is the
    joint's entry (i, j) over the joint's column sum j, and the inverse noise
    matrix [confident_joint.T / s_count], whose entry (j, i) is the joint's
    entry (i, j) over the joint's row sum i; both have columns that sum
    to 1. *)
Theorem estimate_latent_column_stochastic :
  forall (Method : Type) (cnt : Method)
         (compute_py : list Q -> matrix Q -> matrix Q -> Method -> option (list Q) -> list Q)
         (compute_inv_noise_matrix : list Q -> matrix Q -> list Q -> matrix Q)
         (compute_noise_matrix_from_inverse : list Q -> matrix Q -> list Q -> matrix Q)
         (clip_noise_rates : matrix Q -> matrix Q)
         (clip_values : list Q -> Q -> Q -> Q -> list Q)
         (K : nat) (cj : matrix Q) (s : list Z) (py_method : Method),
    (0 < K)%nat -> length cj = K -> Forall (fun row => length row = K) cj ->
    Forall (fun x => ~ x == 0) (row_sums cj) ->
    Forall (fun x => ~ x == 0) (column_sums cj) ->
    exists noise_matrix inv_noise_matrix,
      estimate_latent cnt compute_py compute_inv_noise_matrix
                      compute_noise_matrix_from_inverse clip_noise_rates clip_values
                      cj s py_method false
      = Ok (compute_py
              (map (fun c => inject_Z c / inject_Z (Z.of_nat (length s))) (value_counts s))
              noise_matrix inv_noise_matrix py_method (Some (column_sums cj)),
            clip_noise_rates noise_matrix, clip_noise_rates inv_noise_matrix) /\
      length noise_matrix = K /\ Forall (fun row => length row = K) noise_matrix /\
      length inv_noise_matrix = K /\ Forall (fun row => length row = K) inv_noise_matrix /\
      (forall i j, (i < K)%nat -> (j < K)%nat ->
         nth j (nth i noise_matrix []) 0
         = nth j (nth i cj []) 0 / nth j (column_sums cj) 0) /\
      (forall i j, (i < K)%nat -> (j < K)%nat ->
         nth i (nth j inv_noise_matrix []) 0
         = nth j (nth i cj []) 0 / nth i (row_sums cj) 0) /\
      Forall (fun x => x == 1) (column_sums noise_matrix) /\
      Forall (fun x => x == 1) (column_sums inv_noise_matrix).
Proof.
  intros Method cnt compute_py cinv cnm clip clipv K cj s py_method HK Hl Hrows Hrs Hcs.
  set (I := seq 0 K).
  assert (HI : I <> []) by (unfold I; destruct K; [lia|discriminate]).
  assert (HlI : length I = K) by (unfold I; apply length_seq).
  assert (HnI : forall i, (i < K)%nat -> nth i I 0%nat = i).
  { intros i Hi. unfold I. now rewrite seq_nth. }
  pose proof (matrix_as_table K cj Hl Hrows) as Hcj. fold I in Hcj.
  revert Hcj Hrs Hcs. generalize (fun i j : nat => nth j (nth i cj []) 0).
  intros c Hcj Hrs Hcs. clear Hl Hrows. subst cj.
  assert (Hcol : column_sums (tabulate c I I)
                 = map (fun j => np_sum (map (fun i' => c i' j) I)) I).
  { unfold column_sums.
    rewrite (@transpose_tabulate _ _ _ c I I (of_Z 0) HI).
    apply row_sums_tabulate. }
  assert (Hrow : row_sums (tabulate c I I) = map (fun i => np_sum (map (c i) I)) I)
    by apply row_sums_tabulate.
  rewrite Hcol in Hcs. rewrite Hrow in Hrs.
  exists (tabulate (fun i j => c i j / np_sum (map (fun i' => c i' j) I)) I I),
         (tabulate (fun j i => c i j / np_sum (map (c i) I)) I I).
  repeat split.
  - unfold estimate_latent. rewrite Hcol, Hrow.
    rewrite (@bcast_rows_tabulate _ _ _ _ _ div c
               (fun j => np_sum (map (fun i' => c i' j) I)) I I HI).
    cbn [bind].
    rewrite (@transpose_tabulate _ _ _ c I I (of_Z 0) HI).
    rewrite (@bcast_rows_tabulate _ _ _ _ _ div (fun j i => c i j)
               (fun i => np_sum (map (c i) I)) I I HI).
    cbn [bind]. reflexivity.
  - unfold tabulate. now rewrite length_map.
  - unfold tabulate. apply Forall_map, Forall_forall. intros i _.
    now rewrite length_map.
  - unfold tabulate. now rewrite length_map.
  - unfold tabulate. apply Forall_map, Forall_forall. intros i _.
    now rewrite length_map.
  - intros i j Hi Hj. rewrite Hcol.
    rewrite !(nth_tabulate _ I I i j 0 0%nat 0%nat) by lia.
    rewrite (nth_indep _ 0 ((fun j0 => np_sum (map (fun i' => c i' j0) I)) 0%nat))
      by (rewrite length_map; lia).
    rewrite (map_nth (fun j0 => np_sum (map (fun i' => c i' j0) I))).
    now rewrite !HnI.
  - intros i j Hi Hj. rewrite Hrow.
    rewrite (nth_tabulate _ I I j i 0 0%nat 0%nat) by lia.
    rewrite (nth_tabulate _ I I i j 0 0%nat 0%nat) by lia.
    rewrite (nth_indep _ 0 ((fun i0 => np_sum (map (c i0) I)) 0%nat))
      by (rewrite length_map; lia).
    rewrite (map_nth (fun i0 => np_sum (map (c i0) I))).
    now rewrite !HnI.
  - unfold column_sums.
    rewrite (@transpose_tabulate _ _ _
               (fun i j => c i j / np_sum (map (fun i' => c i' j) I)) I I (of_Z 0) HI).
    rewrite row_sums_tabulate. apply Forall_map, Forall_forall. intros j Hj.
    apply (np_sum_ratio (fun i => c i j) I).
    rewrite Forall_map, Forall_forall in Hcs. now apply Hcs.
  - unfold column_sums.
    rewrite (@transpose_tabulate _ _ _
               (fun j i => c i j / np_sum (map (c i) I)) I I (of_Z 0) HI).
    rewrite row_sums_tabulate. apply Forall_map, Forall_forall. intros i Hi.
    apply (np_sum_ratio (c i) I).
    rewrite Forall_map, Forall_forall in Hrs. now apply Hrs.
Qed.

Lemma estimate_latent_column_stochastic_witness :
  exists noise_matrix inv_noise_matrix,
    estimate_latent tt (fun ps nm inv _ _ => ps) (fun py nm ps => nm)
                    (fun ps inv py => inv) (fun m => m) (fun v _ _ _ => v)
                    [[1; 1]; [0; 2]] [0; 0; 1; 1]%Z tt false
    = Ok ((fun ps nm inv (_ : unit) (_ : option (list Q)) => ps)
            (map (fun c => inject_Z c / inject_Z (Z.of_nat (length [0; 0; 1; 1]%Z)))
                 (value_counts [0; 0; 1; 1]%Z))
            noise_matrix inv_noise_matrix tt (Some (column_sums [[1; 1]; [0; 2]])),
          (fun m : matrix Q => m) noise_matrix, (fun m : matrix Q => m) inv_noise_matrix) /\
    length noise_matrix = 2%nat /\ Forall (fun row => length row = 2%nat) noise_matrix /\
    length inv_noise_matrix = 2%nat /\
    Forall (fun row => length row = 2%nat) inv_noise_matrix /\
    (forall i j, (i < 2)%nat -> (j < 2)%nat ->
       nth j (nth i noise_matrix []) 0
       = nth j (nth i [[1; 1]; [0; 2]] []) 0 / nth j (column_sums [[1; 1]; [0; 2]]) 0) /\
    (forall i j, (i < 2)%nat -> (j < 2)%nat ->
       nth i (nth j inv_noise_matrix []) 0
       = nth j (nth i [[1; 1]; [0; 2]] []) 0 / nth i (row_sums [[1; 1]; [0; 2]]) 0) /\
    Forall (fun x => x == 1) (column_sums noise_matrix) /\
    Forall (fun x => x == 1) (column_sums inv_noise_matrix).
Proof.
  apply (estimate_latent_column_stochastic unit tt (fun ps nm inv _ _ => ps)
           (fun py nm ps => nm) (fun ps inv py => inv) (fun m => m)
           (fun v _ _ _ => v) 2 [[1; 1]; [0; 2]] [0; 0; 1; 1]%Z tt).
  - lia.
  - reflexivity.
  - repeat constructor.
  - repeat constructor; intros Hc; discriminate Hc.
  - repeat constructor; intros Hc; discriminate Hc.
Defined.

Lemma estimate_latent_table {T} `{Num T} (Method : Type) (cnt : Method)
  (compute_py : list T -> matrix T -> matrix T -> Method -> option (list T) -> list T)
  (cinv : list T -> matrix T -> list T -> matrix T)
  (cnm : list T -> matrix T -> list T -> matrix T)
  (clip : matrix T -> matrix T) (clipv : list T -> T -> T -> T -> list T)
  (f : Z -> Z -> T) (L : list Z) (s : list Z) (m : Method) (converge : bool) :
  L <> [] ->
  exists r, estimate_latent cnt compute_py cinv cnm clip clipv
                            (tabulate f L L) s m converge = Ok r.
Proof.
  intros HL. unfold estimate_latent, column_sums.
  rewrite (@transpose_tabulate _ _ _ f L L (of_Z 0) HL).
  rewrite !row_sums_tabulate.
  rewrite (@bcast_rows_tabulate _ _ _ _ _ div f
             (fun j => np_sum (map (fun i => f i j) L)) L L HL).
  cbn [bind].
  rewrite (@bcast_rows_tabulate _ _ _ _ _ div (fun j i => f i j)
             (fun i => np_sum (map (f i) L)) L L HL).
  cbn [bind]. destruct converge.
  - destruct (converge_estimates _ _ _ _ _ _ _ _ _) as [[py nm] inv].
    eexists. reflexivity.
  - eexists. reflexivity.
Qed.

(** ** [estimate_py_and_noise_matrices_from_probabilities] *)

(** On valid data, in exact arithmetic, a call without thresholds and
    without [force_ps] raises nothing of its own: the shapes handed to
    [estimate_latent] broadcast, so the call returns whenever the imported
    functions do, whatever they compute, and the confident joint it returns
    is the calibrated joint of the labels and probabilities. *)
Theorem estimate_py_and_noise_matrices_valid :
  forall (Method : Type) (cnt : Method)
         (compute_py : list Q -> matrix Q -> matrix Q -> Method -> option (list Q) -> list Q)
         (compute_inv_noise_matrix : list Q -> matrix Q -> list Q -> matrix Q)
         (compute_noise_matrix_from_inverse : list Q -> matrix Q -> list Q -> matrix Q)
         (clip_noise_rates : matrix Q -> matrix Q)
         (clip_values : list Q -> Q -> Q -> Q -> list Q)
         (K : nat) (s : list Z) (psx : matrix Q) (converge : bool)
         (py_method : Method) (J : list (list Z)),
    valid_labels K s -> shape_ok K s psx ->
    exists py noise_matrix inv_noise_matrix confident_joint,
      calibrate_confident_joint J s psx = Ok confident_joint /\
      snd (estimate_py_and_noise_matrices_from_probabilities
             cnt compute_py compute_inv_noise_matrix compute_noise_matrix_from_inverse
             clip_noise_rates clip_values [] s psx NoThresholds converge
             (ForceBool false) py_method)
      = Ok (py, noise_matrix, inv_noise_matrix, confident_joint).
Proof.
  intros Method cnt compute_py cinv cnm clip clipv K s psx converge py_method J Hv Hs.
  pose proof (@estimate_confident_joint_valid K s psx Hv Hs) as Hest.
  destruct (@estimate_latent_table Q Num_Q Method cnt compute_py cinv cnm clip clipv
              (fun i j => rescaled_entry K s
                            (confident_pairs (mean_thresholds K s psx) s psx) i j
                          / np_sum2 (tabulate
                                       (rescaled_entry K s
                                          (confident_pairs (mean_thresholds K s psx) s psx))
                                       (zrange (Z.of_nat K)) (zrange (Z.of_nat K)))
                          * inject_Z (Z.of_nat (length s)))
              (zrange (Z.of_nat K)) s py_method converge
              (@zrange_nonempty K (proj1 Hv))) as [[[py nm] inv] Hlat].
  change (tabulate _ (zrange (Z.of_nat K)) (zrange (Z.of_nat K)))
    with (calibrated_table K s psx) in Hlat.
  exists py, nm, inv, (calibrated_table K s psx).
  split; [exact (@calibrate_confident_joint_valid K s psx J Hv Hs)|].
  unfold estimate_py_and_noise_matrices_from_probabilities.
  destruct (estimate_confident_joint_from_probabilities
              [] s psx NoThresholds (ForceBool false) false) as [h1 out].
  cbn [snd] in *. rewrite Hest. cbn [bind]. rewrite Hlat. reflexivity.
Qed.

Lemma estimate_py_and_noise_matrices_valid_witness :
  exists py noise_matrix inv_noise_matrix confident_joint,
    calibrate_confident_joint [] [0; 1; 1]%Z [[1; 0]; [1 # 2; 1 # 2]; [0; 1]]
      = Ok confident_joint /\
    snd (estimate_py_and_noise_matrices_from_probabilities
           tt (fun ps nm inv (_ : unit) (_ : option (list Q)) => ps)
           (fun py nm ps => nm) (fun ps inv py => inv) (fun m => m) (fun v _ _ _ => v)
           [] [0; 1; 1]%Z [[1; 0]; [1 # 2; 1 # 2]; [0; 1]] NoThresholds true
           (ForceBool false) tt)
    = Ok (py, noise_matrix, inv_noise_matrix, confident_joint).
Proof.
  apply (estimate_py_and_noise_matrices_valid unit tt
           (fun ps nm inv _ _ => ps) (fun py nm ps => nm) (fun ps inv py => inv)
           (fun m => m) (fun v _ _ _ => v) 2 [0; 1; 1]%Z
           [[1; 0]; [1 # 2; 1 # 2]; [0; 1]] true tt []).
  - split; [lia|]. split.
    + repeat constructor; lia.
    + intros k Hk. assert (Hc : k = 0%Z \/ k = 1%Z) by lia.
      destruct Hc as [-> | ->]; simpl; auto.
  - split; [reflexivity|]. repeat constructor.
Defined.

(** ** [estimate_joint]: the number of classes decides *)

(** On valid data, in exact arithmetic: with a single class
    [estimate_joint] returns the 1 x 1 matrix [[1]]; with two classes or
    more it raises [TypeError]. *)
Theorem estimate_joint_by_classes :
  forall (K : nat) (s : list Z) (psx : matrix Q) (J : list (list Z)),
    valid_labels K s -> shape_ok K s psx ->
    (K = 1%nat -> exists x, estimate_joint J s psx = Ok [[x]] /\ x == 1) /\
    ((2 <= K)%nat -> estimate_joint J s psx = Raise TypeError).
Proof.
  intros K s psx J Hv Hs. split.
  - intros ->. unfold estimate_joint.
    rewrite (@calibrate_confident_joint_valid 1 s psx J Hv Hs). cbn [bind].
    pose proof (@calibrated_total 1 s psx Hv Hs) as Htot.
    pose proof (@valid_labels_length 1 s Hv) as Hn.
    unfold calibrated_table in *. cbv zeta in *.
    change (zrange (Z.of_nat 1)) with [0%Z] in *.
    set (P := confident_pairs (mean_thresholds 1 s psx) s psx) in *.
    set (g := rescaled_entry 1 s P 0 0
              / np_sum2 (tabulate (rescaled_entry 1 s P) [0%Z] [0%Z])
              * inject_Z (Z.of_nat (length s))) in *.
    change (tabulate _ [0%Z] [0%Z]) with [[g]] in Htot |- *.
    change (np_sum2 [[g]]) with (0 + g) in Htot.
    unfold builtin_sum. cbn [fold_left py_add bind map py_float mapM].
    change (add (of_Z 0) g) with (0 + g). unfold div_guard.
    change (is_zero (0 + g)) with (Qeq_bool (0 + g) 0).
    rewrite (@Qeq_bool_nonzero (0 + g) _ Htot) by lia. cbn [bind].
    eexists. split; [reflexivity|].
    change (div g (0 + g)) with (g / (0 + g)). field.
    intros Hz. rewrite Hz in Htot. unfold Qeq in Htot. simpl in Htot. lia.
  - intros HK. exact (@estimate_joint_raises_valid K s psx J Hv Hs HK).
Qed.

Lemma estimate_joint_by_classes_witness :
  (1%nat = 1%nat ->
   exists x, estimate_joint [] [0; 0]%Z [[1 # 2]; [1 # 4]] = Ok [[x]] /\ x == 1) /\
  ((2 <= 1)%nat -> estimate_joint [] [0; 0]%Z [[1 # 2]; [1 # 4]] = Raise TypeError).
Proof.
  apply (estimate_joint_by_classes 1 [0; 0]%Z [[1 # 2]; [1 # 4]] []).
  - split; [lia|]. split.
    + repeat constructor; lia.
    + intros k Hk. assert (k = 0%Z) by lia. subst k. simpl. auto.
  - split; [reflexivity|]. repeat constructor.
Defined.

(** ** Labels that [np.bincount] refuses *)

(** A negative label makes [calibrate_confident_joint], and with it
    [estimate_joint], raise [ValueError] before anything is computed. *)
Theorem calibrate_confident_joint_negative_label :
  forall (T : Type) (N : Num T) (J : list (list Z)) (s : list Z) (psx : matrix T)
         (l : Z),
    In l s -> (l < 0)%Z ->
    calibrate_confident_joint J s psx = Raise ValueError /\
    estimate_joint J s psx = Raise ValueError.
Proof.
  intros T N J s psx l Hin Hl.
  assert (Hb : bincount s = Raise ValueError).
  { unfold bincount.
    replace (existsb (fun x => (x <? 0)%Z) s) with true; [reflexivity|].
    symmetry. apply existsb_exists. exists l. split; [exact Hin|].
    now apply Z.ltb_lt. }
  assert (Hc : calibrate_confident_joint J s psx = Raise ValueError).
  { unfold calibrate_confident_joint. rewrite Hb. reflexivity. }
  split; [exact Hc|]. unfold estimate_joint. rewrite Hc. reflexivity.
Qed.

Lemma calibrate_confident_joint_negative_label_witness :
  calibrate_confident_joint [] [0; -1]%Z [[1; 0]; [0; 1]]%float = Raise ValueError /\
  estimate_joint [] [0; -1]%Z [[1; 0]; [0; 1]]%float = Raise ValueError.
Proof.
  apply (calibrate_confident_joint_negative_label float Num_float []
           [0; -1]%Z [[1; 0]; [0; 1]]%float (-1)%Z).
  - simpl. auto.
  - lia.
Defined.

(** ** The raw joint under the default thresholds *)

(** On valid data, in exact arithmetic, the raw joint computed with the
    default thresholds is K x K and every class keeps a confident example:
    no row sums to zero. *)
Theorem compute_confident_joint_default_rows :
  forall (K : nat) (s : list Z) (psx : matrix Q),
    valid_labels K s -> shape_ok K s psx ->
    exists cj,
      compute_confident_joint s psx None None = Ok cj /\
      length cj = K /\
      Forall (fun row => length row = K /\ (1 <= zsum row)%Z) cj.
Proof.
  intros K s psx Hv Hs.
  exists (tabulate (pair_count (confident_pairs (mean_thresholds K s psx) s psx))
                   (zrange (Z.of_nat K)) (zrange (Z.of_nat K))).
  split; [exact (@compute_confident_joint_default_table K s psx Hv Hs)|].
  unfold tabulate. split; [now rewrite length_map, length_zrange, Nat2Z.id|].
  apply Forall_map, Forall_forall. intros i Hi. apply zrange_In in Hi.
  split; [now rewrite length_map, length_zrange, Nat2Z.id|].
  pose proof (@row_total_pos K s psx i Hv Hs Hi). lia.
Qed.

Lemma compute_confident_joint_default_rows_witness :
  exists cj,
    compute_confident_joint [0; 1; 1]%Z [[1; 0]; [1 # 2; 1 # 2]; [0; 1]] None None
      = Ok cj /\
    length cj = 2%nat /\
    Forall (fun row => length row = 2%nat /\ (1 <= zsum row)%Z) cj.
Proof.
  apply (compute_confident_joint_default_rows 2 [0; 1; 1]%Z
           [[1; 0]; [1 # 2; 1 # 2]; [0; 1]]).
  - split; [lia|]. split.
    + repeat constructor; lia.
    + intros k Hk. assert (Hc : k = 0%Z \/ k = 1%Z) by lia.
      destruct Hc as [-> | ->]; simpl; auto.
  - split; [reflexivity|]. repeat constructor.
Defined.
